(** * random-winners: the line loader, the sampler and the command line

    A shallow embedding of [random-winners.c].  C [int]s are integers of [Z]
    checked against the 32-bit range, the participant array is a list
    addressed by index, the file is the list of its bytes, and the two
    sources of non-determinism of the program (the values [rand()] returns,
    and whether an allocation succeeds) are explicit arguments.  A
    computation that would be undefined in C (an access out of bounds, a
    signed overflow, a remainder by zero) yields [None].  The modules
    [Loader] and [Cli] keep of the heap only the success of each request;
    the module [Heap] runs the same program with its pointers, its blocks
    and its stream, [free_lines] and the calls of [free] and [fclose]
    included. *)

From Stdlib Require Import ZArith Lia Strings.Byte String Ascii DecimalString.
From Stdlib Require Import DecimalPos.
From Equations Require Import Equations.
From stdpp Require Import base tactics option list numbers.

Local Open Scope Z_scope.

(** ** Machine integers *)

Definition INT_MAX : Z := 2147483647.
Definition INT_MIN : Z := -2147483648.

(** The value of an [int] expression, when it is representable. *)
Definition int (z : Z) : option Z :=
  if (INT_MIN <=? z) && (z <=? INT_MAX) then Some z else None.

(** Text, byte by byte. *)
Definition bytes (s : string) : list byte := list_byte_of_string s.

#[global] Instance byte_eq_dec : EqDecision byte := Byte.byte_eq_dec.

(** ** The sampler: [shuffle] *)

Module Sampler.

(** The generator behind [rand()]: the values the successive calls return.
    A call takes the first one and leaves the rest. *)
Definition rng : Type := nat → Z.

Definition rand (g : rng) : Z * rng := (g 0%nat, λ k, g (S k)).

Section shuffle.
Context {A : Type}.

(** [array[i]] read, for an [int] index. *)
Definition load (array : list A) (i : Z) : option A :=
  if 0 <=? i then array !! Z.to_nat i else None.

(** [array[i] = x]. *)
Definition store (array : list A) (i : Z) (x : A) : option (list A) :=
  if (0 <=? i) && (i <? Z.of_nat (length array))
  then Some (<[Z.to_nat i := x]> array) else None.

(** The three assignments of the loop body. *)
Definition swap (array : list A) (i j : Z) : option (list A) :=
  temp ← load array i;
  aj ← load array j;
  array1 ← store array i aj;
  store array1 j temp.

(** One iteration: [int j = i + rand() % (n - i);] and the swap. *)
Definition shuffle_step (array : list A) (n i : Z) (g : rng)
  : option (list A * rng) :=
  let '(r, g') := rand g in
  d ← int (n - i);
  if d =? 0 then None else
  j ← int (i + Z.rem r d);
  array' ← swap array i j;
  Some (array', g').

(** [for (i = ...; i < n - 1; i++)], with [todo] iterations left: neither
    [n] nor [i] is assigned in the body, so the trip count is fixed at
    loop entry. *)
Fixpoint shuffle_from (todo : nat) (array : list A) (n i : Z) (g : rng)
  : option (list A) :=
  match todo with
  | O => Some array
  | S todo' =>
      '(array', g') ← shuffle_step array n i g;
      i' ← int (i + 1);
      shuffle_from todo' array' n i' g'
  end.

Definition shuffle (array : list A) (n : Z) (g : rng) : option (list A) :=
  bound ← int (n - 1);
  shuffle_from (Z.to_nat bound) array n 0 g.

(** The variant the specification permits: the same loop, stopped once
    the first [N] positions are final ([i] from [0] to [N - 1]). *)
Definition shuffle_first (array : list A) (n N : Z) (g : rng)
  : option (list A) :=
  shuffle_from (Z.to_nat N) array n 0 g.

(** The swap indices [(i, j)] of the successive iterations. *)
Fixpoint swap_indices (todo : nat) (n i : Z) (g : rng) : list (Z * Z) :=
  match todo with
  | O => []
  | S todo' =>
      (i, i + Z.rem (g 0%nat) (n - i))
        :: swap_indices todo' n (i + 1) (λ k, g (S k))
  end.

(** Exchange of two cells by position, where both exist. *)
Definition swap_at (array : list A) (i j : nat) : list A :=
  match array !! i, array !! j with
  | Some x, Some y => <[j := x]> (<[i := y]> array)
  | _, _ => array
  end.

Definition apply_swaps (array : list A) (ijs : list (Z * Z)) : list A :=
  foldl (λ a ij, swap_at a (Z.to_nat ij.1) (Z.to_nat ij.2)) array ijs.

End shuffle.

(** What [rand()] promises: a value between [0] and [RAND_MAX], the latter
    an [int]. *)
Definition draws_within (RAND_MAX : Z) (g : rng) : Prop :=
  ∀ k, 0 ≤ g k ≤ RAND_MAX.

(** *** Counting draws

    [RAND_MAX] comes from [<stdlib.h>] and is a parameter here; ISO C asks
    for [32767] at least, which is its value with the C library of
    Windows. *)

(** The generator that returns the values of [v] in turn (and [0] after
    them), and the one that returns [r] and goes on as [g]. *)
Definition replay (v : list Z) : rng := λ k, default 0 (v !! k).

Definition draw_then (r : Z) (g : rng) : rng :=
  λ k, match k with O => r | S k' => g k' end.

Definition sumZ (f : Z → Z) (l : list Z) : Z := foldr (λ r acc, f r + acc) 0 l.

(** The values [rand()] can return: [0], [1], ..., [RAND_MAX]. *)
Fixpoint upto (n : nat) (start : Z) : list Z :=
  match n with
  | O => []
  | S n' => start :: upto n' (start + 1)
  end.

Definition draw_values (RAND_MAX : Z) : list Z :=
  upto (Z.to_nat (RAND_MAX + 1)) 0.

(** The number of sequences of [m] values of [rand()], each between [0]
    and [RAND_MAX], for which [P] holds.  With [rand()] uniform, the
    probability of [P] is this number over [(RAND_MAX + 1) ^ m]. *)
Fixpoint count_draws (RAND_MAX : Z) (m : nat) (P : list Z → bool) : Z :=
  match m with
  | O => if P [] then 1 else 0
  | S m' =>
      sumZ (λ r, count_draws RAND_MAX m' (λ v, P (r :: v)))
        (draw_values RAND_MAX)
  end.

(** How many of [0, 1, ..., x - 1] leave the remainder [k] in the division
    by [d]. *)
Definition residues (d k x : Z) : Z :=
  x / d + (if k <? x mod d then 1 else 0).

(** The draws for which the first [N] elements after [shuffle] are [w]. *)
Definition winners_are `{EqDecision A}
    (array : list A) (N : nat) (w : list A) (v : list Z) : bool :=
  bool_decide
    (take N <$> shuffle array (Z.of_nat (length array)) (replay v) = Some w).

(** Every [N] first elements are as likely as any other: the same number
    of sequences of draws leads to each arrangement of [N] of the
    elements. *)
Definition equally_likely `{EqDecision A}
    (RAND_MAX : Z) (array : list A) (N : nat) : Prop :=
  ∀ w1 w2 : list A,
    length w1 = N → length w2 = N → NoDup w1 → NoDup w2 →
    w1 ⊆ array → w2 ⊆ array →
    count_draws RAND_MAX (length array - 1) (winners_are array N w1)
    = count_draws RAND_MAX (length array - 1) (winners_are array N w2).

(** The array [shuffle] returns when it stays inside the array. *)
Definition arrange {A} (array : list A) (g : rng) : list A :=
  apply_swaps array
    (swap_indices (length array - 1) (Z.of_nat (length array)) 0 g).

(** One step of the shuffle on [x :: l]: the element that comes first and
    the list that is left, for the offset [k] of the swap. *)
Definition pick {A} (x : A) (l : list A) (k : nat) : A * list A :=
  match k with
  | O => (x, l)
  | S k' =>
      match l !! k' with
      | Some y => (y, <[k' := x]> l)
      | None => (x, l)
      end
  end.

End Sampler.

(** ** The line loader: [read_lines] *)

Module Loader.

Definition MAX_LINE_LENGTH : Z := 256.
Definition INITIAL_CAPACITY : Z := 100.

Definition NUL : byte := x00.
Definition LF : byte := x0a.
Definition CR : byte := x0d.

(** [fgets(buffer, size, file)] on the bytes left in the file: it stores
    bytes until [size - 1] of them are read, or a newline has been stored,
    or the file ends, and gives back what is left of the file.  [room] is
    the number of bytes the buffer can still take. *)
Fixpoint fgets_read (room : nat) (stream : list byte)
  : list byte * list byte :=
  match room, stream with
  | S room', c :: rest =>
      if Byte.eqb c LF then ([c], rest)
      else let '(buffer, rest') := fgets_read room' rest in
           (c :: buffer, rest')
  | _, _ => ([], stream)
  end.

(** [NULL] ([None]) at the end of the file, when no byte could be read. *)
Definition fgets (size : Z) (stream : list byte)
  : option (list byte * list byte) :=
  match stream with
  | [] => None
  | _ :: _ => Some (fgets_read (Z.to_nat (size - 1)) stream)
  end.

(** The buffer holds the bytes read and then a terminating NUL, so
    [strlen] counts up to the first NUL byte, one read from the file or
    the terminator. *)
Fixpoint strlen (buffer : list byte) : nat :=
  match buffer with
  | [] => 0
  | c :: rest => if Byte.eqb c NUL then 0 else S (strlen rest)
  end.

Definition is_eol (c : byte) : bool := Byte.eqb c LF || Byte.eqb c CR.

(** [while (len > 0 && (buffer[len - 1] == '\n' || buffer[len - 1] == '\r'))
    { buffer[len - 1] = '\0'; len--; }]: the new [len]; the string left in
    the buffer is its first [len] bytes. *)
Fixpoint strip (buffer : list byte) (len : nat) : nat :=
  match len with
  | O => O
  | S len' =>
      match buffer !! len' with
      | Some c => if is_eol c then strip buffer len' else len
      | None => len
      end
  end.

(** The allocator: whether the request number [k] of the run ([malloc] or
    [realloc]) succeeds. *)
Definition allocator : Type := nat → bool.

(** The variables of the loop: the filled cells of [*lines] ([*count] is
    their number), [capacity], and the number of allocation requests made
    so far. *)
Record state : Type := State {
  lines : list (list byte);
  capacity : Z;
  requests : nat
}.

Definition count (st : state) : Z := Z.of_nat (length (lines st)).

Inductive flow : Type :=
  | Continue (st : state)
  | Return (code : Z) (st : state).

(** [if ( *count >= capacity) { capacity *= 2; ... realloc ... }] *)
Definition grow (alloc : allocator) (st : state) : option flow :=
  if capacity st <=? count st then
    capacity' ← int (capacity st * 2);
    if alloc (requests st)
    then Some (Continue (State (lines st) capacity' (S (requests st))))
    else Some (Return (-2) st)
  else Some (Continue st).

(** [( *lines)[*count] = malloc(len + 1); strcpy(...); ( *count)++;] *)
Definition append (alloc : allocator) (text : list byte) (st : state)
  : option flow :=
  if count st <? capacity st then
    if alloc (requests st)
    then count' ← int (count st + 1);
         Some (Continue (State (lines st ++ [text]) (capacity st)
                           (S (requests st))))
    else Some (Return (-2) st)
  else None.

(** The body of the [while] loop, for the buffer [fgets] filled. *)
Definition body (alloc : allocator) (buffer : list byte) (st : state)
  : option flow :=
  let len := strip buffer (strlen buffer) in
  if (len =? 0)%nat then Some (Continue st)
  else
    grown ← grow alloc st;
    match grown with
    | Return code st' => Some (Return code st')
    | Continue st' => append alloc (take len buffer) st'
    end.

Definition inspect {X : Type} (x : X) : {y : X | x = y} := exist _ x eq_refl.

(** [while (fgets(buffer, MAX_LINE_LENGTH, file)) { ... } return 0;]
    Every call of [fgets] that succeeds takes at least one byte from the
    file, which is why the loop ends. *)
Equations? read_loop (alloc : allocator) (stream : list byte) (st : state)
  : option (Z * state) by wf (length stream) lt :=
  read_loop alloc stream st with inspect (fgets MAX_LINE_LENGTH stream) := {
    | exist _ None _ => Some (0, st)
    | exist _ (Some (buffer, rest)) Hgets with body alloc buffer st := {
        | None => None
        | Some (Return code st') => Some (code, st')
        | Some (Continue st') => read_loop alloc rest st' } }.
Proof.
  clear - Hgets.
  assert (∀ room s b r,
    fgets_read room s = (b, r) → (length r ≤ length s)%nat) as Hle.
  { induction room as [|room IH]; intros [|d s] b r; simpl;
      try (intros [= <- <-]; simpl; lia).
    destruct (Byte.eqb d LF); [intros [= <- <-]; simpl; lia|].
    destruct (fgets_read room s) as [b' r'] eqn:Hrd. intros [= <- <-].
    apply IH in Hrd. simpl. lia. }
  assert (∀ room d s b r,
    fgets_read (S room) (d :: s) = (b, r)
    → (length r < length (d :: s))%nat) as Hlt.
  { intros room d s b r. simpl.
    destruct (Byte.eqb d LF); [intros [= <- <-]; simpl; lia|].
    destruct (fgets_read room s) as [b' r'] eqn:Hrd. intros [= <- <-].
    apply Hle in Hrd. simpl. lia. }
  unfold fgets in Hgets. destruct stream as [|c stream]; [done|].
  apply (inj Some) in Hgets. apply (Hlt 254%nat c stream buffer rest).
  rewrite <-Hgets. reflexivity.
Qed.

(** [read_lines]: the return value with [*lines]; [*count] is the length
    of the latter.  [file] is what [fopen] finds: the bytes the stream
    delivers, or nothing when the file cannot be opened.  The caller has
    set [*lines] to [NULL] and [*count] to [0], which is what it finds
    after a failure before the loop. *)
Definition read_lines (alloc : allocator) (file : option (list byte))
  : option (Z * list (list byte)) :=
  match file with
  | None => Some (-1, [])
  | Some contents =>
      if alloc 0%nat
      then '(code, st) ← read_loop alloc contents
                            (State [] INITIAL_CAPACITY 1);
           Some (code, lines st)
      else Some (-2, [])
  end.

(** The string the loop body finds in the buffer, and what it adds to the
    array for it. *)
Definition entry (buffer : list byte) : list byte :=
  take (strip buffer (strlen buffer)) buffer.

Definition kept (text : list byte) : list (list byte) :=
  match text with [] => [] | _ :: _ => [text] end.

(** *** The loader in the words of the specification *)

(** The lines of a file: the text between newlines; a last line needs no
    newline after it. *)
Fixpoint split_lines (contents : list byte) : list (list byte) :=
  match contents with
  | [] => []
  | c :: rest =>
      if Byte.eqb c LF then [] :: split_lines rest
      else match split_lines rest with
           | [] => [[c]]
           | line :: others => (c :: line) :: others
           end
  end.

(** A line without its trailing newline and carriage-return characters. *)
Fixpoint strip_trailing (line : list byte) : list byte :=
  match line with
  | [] => []
  | c :: rest =>
      match strip_trailing rest with
      | [] => if is_eol c then [] else [c]
      | tail => c :: tail
      end
  end.

(** What the loop leaves in the array: a string with a byte in it, no
    newline inside, and a last byte that is no line terminator. *)
Definition clean_entry (e : list byte) : Prop :=
  e ≠ [] ∧ (LF ∉ e) ∧ (∀ c, list.last e = Some c → c ≠ LF ∧ c ≠ CR).

(** The invariant as the specification has it: an entry is not empty and
    holds no line terminator at all. *)
Definition no_line_terminator (e : list byte) : Prop :=
  e ≠ [] ∧ (LF ∉ e) ∧ (CR ∉ e).

(** The state the loop can be in: room for [*count] cells. *)
Definition sound (st : state) : Prop :=
  0 < capacity st ∧ count st ≤ capacity st.

Definition nonempty (line : list byte) : bool :=
  match line with [] => false | _ :: _ => true end.

(** The lines of [text ++ rest], from those of [rest], for a [text]
    without newline: [text] goes in front of the first of them. *)
Definition join_first (text : list byte) (ls : list (list byte))
  : list (list byte) :=
  match ls with
  | [] => kept text
  | line :: others => (text ++ line) :: others
  end.

(** Strip every line, drop those that are empty then, keep the order. *)
Definition spec_lines (contents : list byte) : list (list byte) :=
  filter (λ line, nonempty line = true)
    (strip_trailing <$> split_lines contents).

(** *** The buffers of a whole file *)

(** The buffers the successive calls of [fgets] fill until the file ends,
    with [fuel] calls left.  A call that succeeds takes a byte at least,
    so the length of the file is fuel enough. *)
Fixpoint chunks_from (fuel : nat) (stream : list byte) : list (list byte) :=
  match fuel with
  | O => []
  | S fuel' =>
      match fgets MAX_LINE_LENGTH stream with
      | None => []
      | Some (buffer, rest) => buffer :: chunks_from fuel' rest
      end
  end.

Definition chunks (stream : list byte) : list (list byte) :=
  chunks_from (length stream) stream.

(** What the loop body keeps of them when no request is refused. *)
Definition entries (stream : list byte) : list (list byte) :=
  filter (λ text, nonempty text = true) (entry <$> chunks stream).

(** The lines of a file with their newline: each ends with the newline
    that closes it, the last one perhaps with the file. *)
Fixpoint raw_lines (contents : list byte) : list (list byte) :=
  match contents with
  | [] => []
  | c :: rest =>
      if Byte.eqb c LF then [c] :: raw_lines rest
      else match raw_lines rest with
           | [] => [[c]]
           | line :: others => (c :: line) :: others
           end
  end.

(** A text cut into consecutive pieces of [size] bytes, the last one with
    what is left. *)
Fixpoint pieces_from (fuel size : nat) (text : list byte)
  : list (list byte) :=
  match fuel, text with
  | S fuel', _ :: _ => take size text :: pieces_from fuel' size (drop size text)
  | _, _ => []
  end.

Definition pieces (size : nat) (text : list byte) : list (list byte) :=
  pieces_from (length text) size text.

(** A contiguous part of the file. *)
Definition segment_of (text contents : list byte) : Prop :=
  ∃ before after, contents = before ++ text ++ after.

(** The capacity after [k] doublings. *)
Definition doubled (k : nat) : Z := INITIAL_CAPACITY * 2 ^ Z.of_nat k.

(** The file that holds the names [ls] one per line, each followed by
    [eol]. *)
Definition written (eol : list byte) (ls : list (list byte)) : list byte :=
  concat ((λ name, name ++ eol) <$> ls).

(** A name that can be written on a line and read back: a clean entry
    without NUL byte. *)
Definition writable (e : list byte) : Prop := clean_entry e ∧ NUL ∉ e.

(** The array as the doubling leaves it: the capacity is the initial one
    doubled [k] times, has room for the entries, and was doubled only
    when the array was full; a request was made for the array, for each
    entry and for each doubling. *)
Definition tidy (st : state) : Prop :=
  ∃ k : nat,
    capacity st = doubled k ∧ count st ≤ doubled k
    ∧ (k = 0%nat ∨ doubled k < 2 * count st)
    ∧ requests st = (1 + length (lines st) + k)%nat.

End Loader.

(** ** The command line: [main] *)

Module Cli.
Import Sampler Loader.

(** *** [atoi], as ISO C describes it: white space is skipped, then an
    optional sign and the longest run of decimal digits are converted, and
    what follows is ignored; no digits give [0].  A value that does not
    fit an [int] is undefined. *)

Definition isspace (c : byte) : bool :=
  let n := Z.of_N (Byte.to_N c) in (n =? 32) || ((9 <=? n) && (n <=? 13)).

Definition digit_value (c : byte) : option Z :=
  let n := Z.of_N (Byte.to_N c) in
  if (48 <=? n) && (n <=? 57) then Some (n - 48) else None.

Fixpoint skip_spaces (s : list byte) : list byte :=
  match s with
  | c :: rest => if isspace c then skip_spaces rest else s
  | [] => []
  end.

Fixpoint digits (acc : Z) (s : list byte) : Z :=
  match s with
  | c :: rest =>
      match digit_value c with
      | Some d => digits (10 * acc + d) rest
      | None => acc
      end
  | [] => acc
  end.

Definition atoi (nptr : list byte) : option Z :=
  match skip_spaces nptr with
  | c :: rest =>
      if Byte.eqb c "-"%byte then int (- digits 0 rest)
      else if Byte.eqb c "+"%byte then int (digits 0 rest)
      else int (digits 0 (c :: rest))
  | [] => int 0
  end.

(** *** Output *)

Inductive fd : Type := stdout | stderr.

(** What the run writes: the stream and the text of each [printf] and
    [fprintf] call, in order. *)
Definition output : Type := list (fd * list byte).

(** The conversion [%d]. *)
Definition decimal (z : Z) : list byte :=
  bytes (NilZero.string_of_int (Z.to_int z)).

Definition print_usage (program_name : list byte) : output :=
  [ (stdout, bytes "Usage: " ++ program_name
               ++ bytes " <input_file> <number_of_winners>" ++ [LF]);
    (stdout, [LF]);
    (stdout, bytes "Arguments:" ++ [LF]);
    (stdout, bytes "  input_file        Path to text file with one nickname per line"
               ++ [LF]);
    (stdout, bytes "  number_of_winners Number of random winners to select"
               ++ [LF]);
    (stdout, [LF]);
    (stdout, bytes "Example:" ++ [LF]);
    (stdout, bytes "  " ++ program_name ++ bytes " participants.txt 3" ++ [LF]) ].

Definition error_winner_count : fd * list byte :=
  (stderr, bytes "Error: Number of winners must be a positive integer." ++ [LF]).

Definition error_open (filename : list byte) : fd * list byte :=
  (stderr, bytes "Error: Could not open file '" ++ filename
             ++ bytes "'. Please check the file path." ++ [LF]).

Definition error_memory : fd * list byte :=
  (stderr, bytes "Error: Memory allocation failed." ++ [LF]).

Definition error_empty (filename : list byte) : fd * list byte :=
  (stderr, bytes "Error: The file '" ++ filename
             ++ bytes "' contains no valid nicknames." ++ [LF]).

(** The second [fprintf] of the last error. *)
Definition advice_too_many : fd * list byte :=
  (stderr, bytes "Please reduce the number of winners or add more participants to the file."
             ++ [LF]).

Definition error_too_many (num_winners line_count : Z) : output :=
  [ (stderr, bytes "Error: Cannot select " ++ decimal num_winners
               ++ bytes " winners from only " ++ decimal line_count
               ++ bytes " participants." ++ [LF]);
    advice_too_many ].

(** The two [#ifdef DEBUG] blocks, one after the other. *)
Definition debug_dump (lines : list (list byte)) (line_count : Z) : output :=
  (stdout, bytes "DEBUG: Loaded " ++ decimal line_count
             ++ bytes " participants:" ++ [LF])
  :: imap (λ i name, (stdout, bytes "  [" ++ decimal (Z.of_nat i)
                                ++ bytes "] '" ++ name ++ bytes "'" ++ [LF]))
       lines
  ++ [(stdout, [LF])].

(** The first bytes of the header, as they are in the source file. *)
Definition header_mark : list byte :=
  [xc3; xb0; xc5; xb8; xc5; xbd; xe2; x80; xb0].

Definition header (num_winners line_count : Z) : fd * list byte :=
  (stdout, header_mark ++ bytes " Randomly selected " ++ decimal num_winners
             ++ bytes " winner(s) from " ++ decimal line_count
             ++ bytes " participants:" ++ [LF; LF]).

Definition winner_line (rank : Z) (name : list byte) : fd * list byte :=
  (stdout, bytes "  " ++ decimal rank ++ bytes ". " ++ name ++ [LF]).

(** [for (int i = ...; i < num_winners; i++)
      printf("  %d. %s\n", i + 1, lines[i]);] with [todo] iterations left. *)
Fixpoint print_winners (todo : nat) (lines : list (list byte)) (i : Z)
  : option output :=
  match todo with
  | O => Some []
  | S todo' =>
      name ← load lines i;
      rank ← int (i + 1);
      rest ← print_winners todo' lines rank;
      Some (winner_line rank name :: rest)
  end.

(** Strings for which [atoi] has nothing to skip and nothing to convert,
    strings of decimal digits, and strings that do not go on with one. *)
Definition plain_start (s : list byte) : Prop :=
  match s with
  | [] => True
  | c :: _ => isspace c = false ∧ c ≠ "-"%byte ∧ c ≠ "+"%byte
              ∧ digit_value c = None
  end.

Definition all_digits (s : list byte) : Prop :=
  Forall (λ c, is_Some (digit_value c)) s.

Definition no_digit_first (s : list byte) : Prop :=
  match s with [] => True | c :: _ => digit_value c = None end.

(** *** The environment of a run *)

Record environment : Type := Environment {
  (** [fopen(filename, "r")]: the bytes of the file, if it can be opened *)
  files : list byte → option (list byte);
  heap : allocator;
  (** [time(NULL)] *)
  clock : Z;
  (** the values [rand()] returns after [srand(seed)] *)
  generator : Z → rng;
  (** whether the program was compiled with [DEBUG] defined *)
  DEBUG : bool
}.

(** [main]: the exit status and the output.  [argv[0]] is [program_name]
    and the other arguments are [arguments], so [argc] is one more than
    their number. *)
Definition main (env : environment) (program_name : list byte)
    (arguments : list (list byte)) : option (Z * output) :=
  match arguments with
  | [filename; winners] =>
      num_winners ← atoi winners;
      if num_winners <=? 0 then Some (1, [error_winner_count])
      else
        '(result, lines) ← read_lines (heap env) (files env filename);
        let line_count := Z.of_nat (length lines) in
        if result =? -1 then Some (1, [error_open filename])
        else if result =? -2 then Some (1, [error_memory])
        else if line_count =? 0 then Some (1, [error_empty filename])
        else if line_count <? num_winners
        then Some (1, error_too_many num_winners line_count)
        else
          let g := generator env (clock env mod 2 ^ 32) in
          let dump := if DEBUG env
                      then debug_dump lines line_count
                             ++ debug_dump lines line_count
                      else [] in
          shuffled ← shuffle lines line_count g;
          winners ← print_winners (Z.to_nat num_winners) shuffled 0;
          Some (0, dump ++ [header num_winners line_count] ++ winners
                     ++ [(stdout, [LF])])
  | _ => Some (1, print_usage program_name)
  end.

(** What a successful run prints, for the array [shuffle] left. *)
Definition success_output (env : environment) (num_winners : Z)
    (lines shuffled : list (list byte)) : output :=
  let line_count := Z.of_nat (length lines) in
  (if DEBUG env
   then debug_dump lines line_count ++ debug_dump lines line_count
   else [])
  ++ [header num_winners line_count]
  ++ imap (λ k name, winner_line (Z.of_nat k + 1) name)
       (take (Z.to_nat num_winners) shuffled)
  ++ [(stdout, [LF])].

End Cli.

(** ** The heap and the stream: [malloc], [realloc], [free], [free_lines] *)

Module Heap.
Import Sampler Cli.

(** The same program with its pointers: the array [*lines] and the
    strings it points to are blocks of a heap, and the file is a stream
    that is open or closed.  A block is named by its address, the order
    in which it was allocated; a freed block keeps its address, which is
    not given out again.  Using a block that is not there (a freed one,
    one never allocated, [NULL]), reading a cell that was never
    assigned, and writing beyond a block are undefined.  A [size_t]
    holds [capacity * sizeof(char * )] for every [int] capacity. *)

Inductive ptr : Type := NULL | Addr (a : nat).

(** The cells of an array of [char *], which are indeterminate ([None])
    until they are assigned; or the bytes of an array of [char], with the
    string they hold once one was copied there. *)
Inductive block : Type :=
  | Pointers (cells : list (option ptr))
  | Chars (size : nat) (text : option (list byte)).

Record memory : Type := Memory {
  (** the blocks by address, [None] once freed *)
  blocks : list (option block);
  (** the number of open streams *)
  streams : nat;
  (** the number of requests made to the allocator *)
  asked : nat
}.

(** The memory when [main] starts. *)
Definition initial : memory := Memory [] 0 0.

(** [malloc]: the request number [asked h] of the run; [fresh] is the
    block as it is handed out. *)
Definition malloc (alloc : Loader.allocator) (fresh : block) (h : memory)
  : ptr * memory :=
  if alloc (asked h)
  then (Addr (length (blocks h)),
        Memory (blocks h ++ [Some fresh]) (streams h) (S (asked h)))
  else (NULL, Memory (blocks h) (streams h) (S (asked h))).

(** [free(p)]; [free(NULL)] does nothing. *)
Definition free (p : ptr) (h : memory) : option memory :=
  match p with
  | NULL => Some h
  | Addr a =>
      match blocks h !! a with
      | Some (Some _) =>
          Some (Memory (<[a := None]> (blocks h)) (streams h) (asked h))
      | _ => None
      end
  end.

(** [realloc(p, n * sizeof(char * ))] on an array of pointers: when the
    request is granted the array has [n] cells, the old ones with their
    values, and it has moved to a new block or not, as [moves] tells;
    when it is refused the old block stays as it is. *)
Definition realloc (alloc : Loader.allocator) (moves : nat → bool)
    (p : ptr) (n : nat) (h : memory) : option (ptr * memory) :=
  match p with
  | NULL => Some (malloc alloc (Pointers (replicate n None)) h)
  | Addr a =>
      match blocks h !! a with
      | Some (Some (Pointers cells)) =>
          if alloc (asked h) then
            let cells' := take n cells ++ replicate (n - length cells) None in
            if moves (asked h)
            then Some (Addr (length (blocks h)),
                       Memory (<[a := None]> (blocks h)
                                 ++ [Some (Pointers cells')])
                         (streams h) (S (asked h)))
            else Some (Addr a,
                       Memory (<[a := Some (Pointers cells')]> (blocks h))
                         (streams h) (S (asked h)))
          else Some (NULL, Memory (blocks h) (streams h) (S (asked h)))
      | _ => None
      end
  end.

(** [fopen] that succeeds, and [fclose]. *)
Definition fopen (h : memory) : memory :=
  Memory (blocks h) (S (streams h)) (asked h).

Definition fclose (h : memory) : option memory :=
  match streams h with
  | O => None
  | S n => Some (Memory (blocks h) n (asked h))
  end.

(** The array [array] points to. *)
Definition cells_at (h : memory) (array : ptr)
  : option (nat * list (option ptr)) :=
  match array with
  | NULL => None
  | Addr a =>
      match blocks h !! a with
      | Some (Some (Pointers cells)) => Some (a, cells)
      | _ => None
      end
  end.

(** [array[i]] read. *)
Definition load_cell (h : memory) (array : ptr) (i : Z) : option ptr :=
  '(a, cells) ← cells_at h array;
  if 0 <=? i then cell ← cells !! Z.to_nat i; cell else None.

(** [array[i] = v]. *)
Definition store_cell (h : memory) (array : ptr) (i : Z) (v : ptr)
  : option memory :=
  '(a, cells) ← cells_at h array;
  if (0 <=? i) && (i <? Z.of_nat (length cells))
  then Some (Memory
               (<[a := Some (Pointers (<[Z.to_nat i := Some v]> cells))]>
                  (blocks h))
               (streams h) (asked h))
  else None.

(** The string [p] points to, as [%s] reads it. *)
Definition load_string (h : memory) (p : ptr) : option (list byte) :=
  match p with
  | NULL => None
  | Addr a =>
      match blocks h !! a with
      | Some (Some (Chars _ (Some text))) => Some text
      | _ => None
      end
  end.

(** [strcpy(dest, src)] where [src] holds the string [text]: [dest] needs
    room for its bytes and the terminator. *)
Definition strcpy (h : memory) (dest : ptr) (text : list byte)
  : option memory :=
  match dest with
  | NULL => None
  | Addr a =>
      match blocks h !! a with
      | Some (Some (Chars size _)) =>
          if (length text <? size)%nat
          then Some (Memory (<[a := Some (Chars size (Some text))]> (blocks h))
                       (streams h) (asked h))
          else None
      | _ => None
      end
  end.

(** *** [read_lines] *)

(** [*lines], [*count] and [capacity]. *)
Record locals : Type := Locals {
  lines : ptr;
  count : Z;
  capacity : Z
}.

Inductive flow : Type :=
  | Continue (v : locals) (h : memory)
  | Return (code : Z) (v : locals) (h : memory).

(** [if ( *count >= capacity) { capacity *= 2; temp = realloc(...);
    if (!temp) { fclose(file); return -2; } *lines = temp; }] *)
Definition grow (alloc : Loader.allocator) (moves : nat → bool)
    (v : locals) (h : memory) : option flow :=
  if capacity v <=? count v then
    capacity' ← int (capacity v * 2);
    '(temp, h1) ← realloc alloc moves (lines v) (Z.to_nat capacity') h;
    match temp with
    | NULL =>
        h2 ← fclose h1;
        Some (Return (-2) (Locals (lines v) (count v) capacity') h2)
    | Addr _ => Some (Continue (Locals temp (count v) capacity') h1)
    end
  else Some (Continue v h).

(** [( *lines)[*count] = malloc((len + 1) * sizeof(char));
    if (!( *lines)[*count]) { fclose(file); return -2; }
    strcpy(( *lines)[*count], buffer); ( *count)++;]
    where [text] is the string in the buffer. *)
Definition append (alloc : Loader.allocator) (len : nat) (text : list byte)
    (v : locals) (h : memory) : option flow :=
  let '(p, h1) := malloc alloc (Chars (len + 1) None) h in
  h2 ← store_cell h1 (lines v) (count v) p;
  match p with
  | NULL => h3 ← fclose h2; Some (Return (-2) v h3)
  | Addr _ =>
      h3 ← strcpy h2 p text;
      count' ← int (count v + 1);
      Some (Continue (Locals (lines v) count' (capacity v)) h3)
  end.

(** The body of the [while] loop, for the buffer [fgets] filled. *)
Definition body (alloc : Loader.allocator) (moves : nat → bool)
    (buffer : list byte) (v : locals) (h : memory) : option flow :=
  let len := Loader.strip buffer (Loader.strlen buffer) in
  if (len =? 0)%nat then Some (Continue v h)
  else
    grown ← grow alloc moves v h;
    match grown with
    | Return code v' h' => Some (Return code v' h')
    | Continue v' h' => append alloc len (take len buffer) v' h'
    end.

(** [while (fgets(buffer, MAX_LINE_LENGTH, file)) { ... } fclose(file);
    return 0;] over the buffers the successive calls of [fgets] fill. *)
Fixpoint read_loop (alloc : Loader.allocator) (moves : nat → bool)
    (buffers : list (list byte)) (v : locals) (h : memory)
  : option (Z * locals * memory) :=
  match buffers with
  | [] => h' ← fclose h; Some (0, v, h')
  | buffer :: rest =>
      match body alloc moves buffer v h with
      | None => None
      | Some (Return code v' h') => Some (code, v', h')
      | Some (Continue v' h') => read_loop alloc moves rest v' h'
      end
  end.

(** [read_lines]: the return value, [*lines] and [*count], which the
    caller has set to [NULL] and [0]. *)
Definition read_lines (alloc : Loader.allocator) (moves : nat → bool)
    (file : option (list byte)) (h : memory)
  : option (Z * ptr * Z * memory) :=
  match file with
  | None => Some (-1, NULL, 0, h)
  | Some contents =>
      let '(p, h1) :=
        malloc alloc
          (Pointers (replicate (Z.to_nat Loader.INITIAL_CAPACITY) None))
          (fopen h) in
      match p with
      | NULL => h2 ← fclose h1; Some (-2, NULL, 0, h2)
      | Addr _ =>
          '(code, v, h2) ← read_loop alloc moves (Loader.chunks contents)
                             (Locals p 0 Loader.INITIAL_CAPACITY) h1;
          Some (code, lines v, count v, h2)
      end
  end.

(** *** [shuffle] *)

Definition swap (h : memory) (array : ptr) (i j : Z) : option memory :=
  temp ← load_cell h array i;
  aj ← load_cell h array j;
  h1 ← store_cell h array i aj;
  store_cell h1 array j temp.

Definition shuffle_step (h : memory) (array : ptr) (n i : Z) (g : rng)
  : option (memory * rng) :=
  let '(r, g') := rand g in
  d ← int (n - i);
  if d =? 0 then None else
  j ← int (i + Z.rem r d);
  h' ← swap h array i j;
  Some (h', g').

Fixpoint shuffle_from (todo : nat) (h : memory) (array : ptr) (n i : Z)
    (g : rng) : option memory :=
  match todo with
  | O => Some h
  | S todo' =>
      '(h', g') ← shuffle_step h array n i g;
      i' ← int (i + 1);
      shuffle_from todo' h' array n i' g'
  end.

Definition shuffle (h : memory) (array : ptr) (n : Z) (g : rng)
  : option memory :=
  bound ← int (n - 1);
  shuffle_from (Z.to_nat bound) h array n 0 g.

(** *** [free_lines] *)

(** [for (int i = ...; i < count; i++) free(lines[i]);] with [todo]
    iterations left. *)
Fixpoint free_each (todo : nat) (lines : ptr) (i : Z) (h : memory)
  : option memory :=
  match todo with
  | O => Some h
  | S todo' =>
      p ← load_cell h lines i;
      h' ← free p h;
      i' ← int (i + 1);
      free_each todo' lines i' h'
  end.

Definition free_lines (lines : ptr) (count : Z) (h : memory)
  : option memory :=
  h' ← free_each (Z.to_nat count) lines 0 h;
  free lines h'.

(** *** [main] *)

(** [printf("  [%d] '%s'\n", i, lines[i]);] *)
Definition debug_line (i : Z) (name : list byte) : fd * list byte :=
  (stdout, bytes "  [" ++ decimal i ++ bytes "] '" ++ name
             ++ bytes "'" ++ [Loader.LF]).

(** The loop of a [DEBUG] block and the loop that prints the winners. *)
Fixpoint debug_lines (todo : nat) (h : memory) (lines : ptr) (i : Z)
  : option output :=
  match todo with
  | O => Some []
  | S todo' =>
      p ← load_cell h lines i;
      name ← load_string h p;
      i' ← int (i + 1);
      rest ← debug_lines todo' h lines i';
      Some (debug_line i name :: rest)
  end.

Definition debug_block (h : memory) (lines : ptr) (line_count : Z)
  : option output :=
  dumped ← debug_lines (Z.to_nat line_count) h lines 0;
  Some ((stdout, bytes "DEBUG: Loaded " ++ decimal line_count
                   ++ bytes " participants:" ++ [Loader.LF])
          :: dumped ++ [(stdout, [Loader.LF])]).

Fixpoint print_winners (todo : nat) (h : memory) (lines : ptr) (i : Z)
  : option output :=
  match todo with
  | O => Some []
  | S todo' =>
      p ← load_cell h lines i;
      name ← load_string h p;
      rank ← int (i + 1);
      rest ← print_winners todo' h lines rank;
      Some (winner_line rank name :: rest)
  end.

(** [main]: the exit status, the output and the memory it leaves. *)
Definition main (env : environment) (moves : nat → bool)
    (program_name : list byte) (arguments : list (list byte))
  : option (Z * output * memory) :=
  match arguments with
  | [filename; winners] =>
      num_winners ← atoi winners;
      if num_winners <=? 0 then Some (1, [error_winner_count], initial)
      else
        '(result, lines, line_count, h) ←
          read_lines (heap env) moves (files env filename) initial;
        if result =? -1 then Some (1, [error_open filename], h)
        else if result =? -2 then
          h' ← match lines with
               | NULL => Some h
               | Addr _ => free_lines lines line_count h
               end;
          Some (1, [error_memory], h')
        else if line_count =? 0 then
          h' ← free lines h;
          Some (1, [error_empty filename], h')
        else if line_count <? num_winners then
          h' ← free_lines lines line_count h;
          Some (1, error_too_many num_winners line_count, h')
        else
          let g := generator env (clock env mod 2 ^ 32) in
          dump ← (if DEBUG env
                  then first ← debug_block h lines line_count;
                       second ← debug_block h lines line_count;
                       Some (first ++ second)
                  else Some []);
          h1 ← shuffle h lines line_count g;
          winners ← print_winners (Z.to_nat num_winners) h1 lines 0;
          h2 ← free_lines lines line_count h1;
          Some (0, dump ++ [header num_winners line_count] ++ winners
                     ++ [(stdout, [Loader.LF])], h2)
  | _ => Some (1, print_usage program_name, initial)
  end.

(** *** What the heap holds *)

(** The block at [b] is an array of [char] that holds the string [s] and
    has the size of it, terminator included. *)
Definition string_at (h : memory) (b : nat) (s : list byte) : Prop :=
  blocks h !! b = Some (Some (Chars (S (length s)) (Some s))).

(** The block at [a] is the array, with the pointers [addrs] in its first
    cells and then the cells [spare]. *)
Definition array_at (h : memory) (a : nat) (spare : list (option ptr))
    (addrs : list nat) : Prop :=
  blocks h !! a = Some (Some (Pointers ((Some ∘ Addr <$> addrs) ++ spare))).

(** All the heap holds is the array at [a], whose first cells point to
    the blocks [addrs], and these blocks, one for each of the strings
    [ls]. *)
Definition holds (h : memory) (a : nat) (addrs : list nat)
    (spare : list (option ptr)) (ls : list (list byte)) : Prop :=
  array_at h a spare addrs
  ∧ NoDup (a :: addrs)
  ∧ Forall2 (string_at h) addrs ls
  ∧ ∀ b, is_Some (mjoin (blocks h !! b)) → b ∈ a :: addrs.

(** The block at [b] is there: allocated and not freed. *)
Definition live (h : memory) (b : nat) : Prop :=
  is_Some (mjoin (blocks h !! b)).

(** The memory once the blocks [bs] are freed. *)
Definition release (bs : list nat) (h : memory) : memory :=
  Memory (foldl (λ l b, <[b := None]> l) (blocks h) bs)
    (streams h) (asked h).

(** Every block was freed and no stream is open. *)
Definition released (h : memory) : Prop :=
  Forall (λ b, b = None) (blocks h) ∧ streams h = 0%nat.

(** The variables of the loop of [read_lines] as the loader without
    pointers has them ([st]) and with the heap ([v] and [h]): the same
    count, capacity and number of requests, an open stream, and a heap
    that holds the array, of [capacity] cells, and the strings. *)
Definition mirrors (st : Loader.state) (v : locals) (h : memory)
    (a : nat) (addrs : list nat) (spare : list (option ptr)) : Prop :=
  lines v = Addr a ∧ count v = Loader.count st
  ∧ capacity v = Loader.capacity st
  ∧ asked h = Loader.requests st ∧ streams h = 1%nat
  ∧ Z.of_nat (length addrs + length spare) = Loader.capacity st
  ∧ holds h a addrs spare (Loader.lines st).

(** The same when [read_lines] has returned: the stream is closed. *)
Definition settled (st : Loader.state) (v : locals) (h : memory) : Prop :=
  ∃ a addrs spare,
    lines v = Addr a ∧ count v = Loader.count st
    ∧ streams h = 0%nat ∧ holds h a addrs spare (Loader.lines st).

(** The memory with the pointers [addrs] in the first cells of the array
    at [a]. *)
Definition rearranged (h : memory) (a : nat) (spare : list (option ptr))
    (addrs : list nat) : memory :=
  Memory (<[a := Some (Pointers ((Some ∘ Addr <$> addrs) ++ spare))]>
            (blocks h))
    (streams h) (asked h).

(** The string in the block at [b]. *)
Definition text_of (h : memory) (b : nat) : list byte :=
  default [] (load_string h (Addr b)).

End Heap.

(** ** Sample inputs *)

Module Samples.
Import Sampler Loader Cli.

Definition names : list (list byte) :=
  [bytes "alice"; bytes "bob"; bytes "carol"].

(** Three calls of [rand()] that return [5], [7] and [1], then [0]. *)
Definition draws : rng := replay [5; 7; 1].

(** The allocator that refuses nothing. *)
Definition generous : allocator := λ _, true.

(** An allocator that grants eight requests and refuses the others. *)
Definition thrifty : allocator := λ k, bool_decide (k < 8)%nat.

(** The file of the scenario of the specification, with a blank line. *)
Definition blank_line_file : list byte :=
  bytes "alice" ++ [LF; LF] ++ bytes "bob" ++ [LF].

(** One line of 256 letters. *)
Definition long_line_file : list byte := repeat "a"%byte 256 ++ [LF].

(** One line with a carriage return in the middle. *)
Definition inner_cr_file : list byte :=
  bytes "ann" ++ [CR] ++ bytes "bob" ++ [LF].

(** A run on [draw.txt], which holds the three names, one per line; the
    generator counts up from its seed. *)
Definition three_names_file : list byte :=
  bytes "alice" ++ [LF] ++ bytes "bob" ++ [LF] ++ bytes "carol" ++ [LF].

Definition machine : environment :=
  {| files := λ name, if decide (name = bytes "draw.txt")
                      then Some three_names_file else None;
     heap := generous;
     clock := 1700000000;
     generator := λ seed k, (seed + Z.of_nat k) mod 32768;
     DEBUG := false |}.

(** A file of line terminators only. *)
Definition blank_only_file : list byte := [LF; CR; LF; LF; CR].

(** An allocator that grants two requests and refuses the others. *)
Definition stingy : allocator := λ k, bool_decide (k < 2)%nat.

Definition pair_of_names : list (list byte) := [bytes "alice"; bytes "bob"].

(** A run on a file of blank lines. *)
Definition blank_machine : environment :=
  {| files := λ _, Some blank_only_file;
     heap := generous;
     clock := 0;
     generator := λ _ _, 0;
     DEBUG := false |}.

(** A file of 101 lines, one more than the array holds at first. *)
Definition crowd_file : list byte := concat (repeat (bytes "ann" ++ [LF]) 101).

(** The memory after the three names were loaded: the array and a block
    for each name. *)
Definition loaded : Heap.memory :=
  Heap.Memory
    [ Some (Heap.Pointers ((Some ∘ Heap.Addr <$> [1; 2; 3]%nat)
                             ++ replicate 97 None));
      Some (Heap.Chars 6 (Some (bytes "alice")));
      Some (Heap.Chars 4 (Some (bytes "bob")));
      Some (Heap.Chars 6 (Some (bytes "carol"))) ] 0 4.

End Samples.

(** * Machine integers in range *)

(** The side conditions on the range of an [int]. *)
Ltac int_range := unfold INT_MIN, INT_MAX in *; lia.

Lemma int_in_range z : INT_MIN ≤ z ≤ INT_MAX → int z = Some z.
Proof.
  intros [Hlo Hhi]. unfold int.
  apply Z.leb_le in Hlo. apply Z.leb_le in Hhi. by rewrite Hlo, Hhi.
Qed.

Lemma int_inv z z' : int z = Some z' → z' = z ∧ INT_MIN ≤ z ≤ INT_MAX.
Proof.
  unfold int. destruct (INT_MIN <=? z) eqn:Hlo; [|done].
  destruct (z <=? INT_MAX) eqn:Hhi; [|done].
  intros [= <-]. apply Z.leb_le in Hlo. apply Z.leb_le in Hhi. done.
Qed.

(** * Properties of the sampler *)

Module SamplerFacts.
Import Sampler.

Section facts.
Context {A : Type}.
Implicit Types (array : list A) (i j n : Z) (g : rng).

Lemma load_in_range array i :
  0 ≤ i → load array i = array !! Z.to_nat i.
Proof. intros Hi. unfold load. apply Z.leb_le in Hi. by rewrite Hi. Qed.

Lemma store_in_range array i x :
  0 ≤ i < Z.of_nat (length array) →
  store array i x = Some (<[Z.to_nat i := x]> array).
Proof.
  intros [Hlo Hhi]. unfold store.
  apply Z.leb_le in Hlo. apply Z.ltb_lt in Hhi. by rewrite Hlo, Hhi.
Qed.

Lemma swap_in_range array i j :
  0 ≤ i < Z.of_nat (length array) → 0 ≤ j < Z.of_nat (length array) →
  swap array i j = Some (swap_at array (Z.to_nat i) (Z.to_nat j)).
Proof.
  intros Hi Hj. unfold swap, swap_at.
  rewrite !load_in_range by lia.
  destruct (lookup_lt_is_Some_2 array (Z.to_nat i)) as [x Hx]; [lia|].
  destruct (lookup_lt_is_Some_2 array (Z.to_nat j)) as [y Hy]; [lia|].
  rewrite Hx, Hy. simpl.
  rewrite store_in_range by done. simpl.
  rewrite store_in_range by (rewrite length_insert; done). done.
Qed.

Lemma length_swap_at array (a b : nat) :
  length (swap_at array a b) = length array.
Proof.
  unfold swap_at. destruct (array !! a), (array !! b); try done.
  by rewrite !length_insert.
Qed.

Lemma length_apply_swaps ijs array :
  length (apply_swaps array ijs) = length array.
Proof.
  revert array. induction ijs as [|ij ijs IH]; intros array; [done|].
  unfold apply_swaps in *. simpl. rewrite IH. apply length_swap_at.
Qed.

(** One iteration inside the array: the divisor is positive, [j] falls
    in [[i, n - 1]] and the swap is defined. *)
Lemma shuffle_step_in_range array n i g :
  0 ≤ i < n → n ≤ INT_MAX → n ≤ Z.of_nat (length array) →
  0 ≤ g 0%nat ≤ INT_MAX →
  let j := i + Z.rem (g 0%nat) (n - i) in
  i ≤ j ≤ n - 1
  ∧ shuffle_step array n i g
    = Some (swap_at array (Z.to_nat i) (Z.to_nat j), λ k, g (S k)).
Proof.
  intros Hi Hn Hlen Hr j.
  assert (0 ≤ Z.rem (g 0%nat) (n - i) < n - i) as Hrem
    by (apply Z.rem_bound_pos; lia).
  split; [lia|].
  unfold shuffle_step, rand.
  rewrite (int_in_range (n - i)) by int_range.
  simpl. destruct (Z.eqb_spec (n - i) 0) as [?|_]; [lia|].
  fold j. rewrite (int_in_range j) by int_range.
  simpl. rewrite swap_in_range by lia. done.
Qed.

(** The loop never leaves the array: with [i + todo ≤ n ≤ length array]
    every iteration is defined and swaps cell [i] with a cell of
    [[i, n - 1]]. *)
Lemma shuffle_from_swaps todo : ∀ array n i g,
  0 ≤ i → i + Z.of_nat todo ≤ n → n ≤ INT_MAX →
  n ≤ Z.of_nat (length array) → draws_within INT_MAX g →
  shuffle_from todo array n i g
    = Some (apply_swaps array (swap_indices todo n i g))
  ∧ Forall (λ ij, i ≤ ij.1 ∧ ij.1 ≤ ij.2 ∧ ij.2 ≤ n - 1)
      (swap_indices todo n i g).
Proof.
  induction todo as [|todo IH]; intros array n i g Hi Hin Hn Hlen Hg.
  { by split. }
  destruct (shuffle_step_in_range array n i g) as [Hj Hstep];
    [lia|done|done|apply Hg|].
  cbn [shuffle_from swap_indices]. rewrite Hstep. simpl.
  rewrite (int_in_range (i + 1)) by int_range.
  simpl.
  destruct (IH (swap_at array (Z.to_nat i)
                  (Z.to_nat (i + Z.rem (g 0%nat) (n - i))))
              n (i + 1) (λ k, g (S k))) as [Heq Hall];
    [lia|lia|done|by rewrite length_swap_at|by intros k; apply Hg|].
  split; [done|].
  constructor; [simpl; lia|].
  eapply Forall_impl; [|exact Hall]. simpl. intros ij ?. lia.
Qed.

(** Defined or not, the loop returns an array of the same length. *)
Lemma shuffle_from_length todo : ∀ array n i g array',
  shuffle_from todo array n i g = Some array' →
  length array' = length array.
Proof.
  induction todo as [|todo IH]; intros array n i g array'.
  { by intros [= <-]. }
  cbn [shuffle_from]. unfold shuffle_step, rand.
  destruct (int (n - i)) as [d|]; simpl; [|done].
  destruct (d =? 0); simpl; [done|].
  destruct (int (i + Z.rem _ _)) as [j|]; simpl; [|done].
  destruct (swap array i j) as [array1|] eqn:Hswap; simpl; [|done].
  destruct (int (i + 1)) as [i'|]; simpl; [|done].
  intros Hrec. apply IH in Hrec. rewrite Hrec. revert Hswap.
  unfold swap, store.
  destruct (load array i); [|done]. simpl.
  destruct (load array j); [|done]. simpl.
  destruct (_ && _); [|done]. simpl. rewrite length_insert.
  destruct (_ && _); [|done]. intros [= <-].
  by rewrite !length_insert.
Qed.

Lemma shuffle_length array n g array' :
  shuffle array n g = Some array' → length array' = length array.
Proof.
  unfold shuffle. destruct (int (n - 1)) as [bound|]; [|done]. simpl.
  apply shuffle_from_length.
Qed.

(** *** Swaps as permutations *)

Lemma insert_cons_perm (l : list A) (k : nat) x y :
  l !! k = Some y → y :: <[k := x]> l ≡ₚ x :: l.
Proof.
  revert k. induction l as [|z l IH]; intros [|k] Hk; simplify_eq/=.
  - apply perm_swap.
  - rewrite (perm_swap z y). rewrite (IH k Hk). apply perm_swap.
Qed.

Lemma swap_at_same array (a : nat) : swap_at array a a = array.
Proof.
  unfold swap_at. destruct (array !! a) as [x|] eqn:Hx; [|done].
  rewrite list_insert_insert_eq. by apply list_insert_id.
Qed.

Lemma swap_at_perm array (a b : nat) : swap_at array a b ≡ₚ array.
Proof.
  destruct (decide (a = b)) as [->|Hab]; [by rewrite swap_at_same|].
  unfold swap_at.
  destruct (array !! a) as [x|] eqn:Hx; [|done].
  destruct (array !! b) as [y|] eqn:Hy; [|done].
  apply (Permutation_cons_inv (a := y)).
  rewrite insert_cons_perm by (by rewrite list_lookup_insert_ne).
  by apply insert_cons_perm.
Qed.

Lemma apply_swaps_perm ijs array : apply_swaps array ijs ≡ₚ array.
Proof.
  revert array. unfold apply_swaps.
  induction ijs as [|ij ijs IH]; intros array; [done|].
  simpl. rewrite IH. apply swap_at_perm.
Qed.

Lemma apply_swaps_app array ijs1 ijs2 :
  apply_swaps array (ijs1 ++ ijs2)
  = apply_swaps (apply_swaps array ijs1) ijs2.
Proof. apply foldl_app. Qed.

(** *** Swaps beyond a prefix leave the prefix alone *)

Lemma take_swap_at array (m a b : nat) :
  (m ≤ a)%nat → (m ≤ b)%nat → take m (swap_at array a b) = take m array.
Proof.
  intros Ha Hb. unfold swap_at.
  destruct (array !! a), (array !! b); try done.
  by rewrite !take_insert_ge.
Qed.

Lemma take_apply_swaps (m : nat) ijs : ∀ array,
  Forall (λ ij, Z.of_nat m ≤ ij.1 ∧ Z.of_nat m ≤ ij.2) ijs →
  take m (apply_swaps array ijs) = take m array.
Proof.
  unfold apply_swaps.
  induction ijs as [|ij ijs IH]; intros array Hall; [done|].
  inversion Hall as [|? ? [Hi Hj] Hall']; subst.
  simpl. rewrite IH by done. apply take_swap_at; lia.
Qed.

(** *** The index sequence *)

Lemma swap_indices_add (a b : nat) : ∀ n i g,
  swap_indices (a + b) n i g
  = swap_indices a n i g
      ++ swap_indices b n (i + Z.of_nat a) (λ k, g (a + k)%nat).
Proof.
  induction a as [|a IH]; intros n i g.
  { simpl. rewrite Z.add_0_r. done. }
  simpl. f_equal. rewrite IH. f_equal.
  replace (i + 1 + Z.of_nat a) with (i + Z.of_nat (S a)) by lia. done.
Qed.

Lemma swap_indices_fst todo : ∀ n i g,
  (swap_indices todo n i g).*1 = seqZ i (Z.of_nat todo).
Proof.
  induction todo as [|todo IH]; intros n i g; [done|].
  rewrite seqZ_cons by lia. simpl. rewrite IH. do 2 f_equal. lia.
Qed.

Lemma swap_indices_lookup todo : ∀ n i g (k : nat),
  (k < todo)%nat →
  swap_indices todo n i g !! k
  = Some (i + Z.of_nat k,
          i + Z.of_nat k + Z.rem (g k) (n - (i + Z.of_nat k))).
Proof.
  induction todo as [|todo IH]; intros n i g k Hk; [lia|].
  destruct k as [|k]; simpl.
  { by replace (i + Z.of_nat 0) with i by lia. }
  rewrite IH by lia.
  by replace (i + 1 + Z.of_nat k) with (i + Z.of_nat (S k)) by lia.
Qed.

Lemma swap_indices_draw todo : ∀ n i g,
  Forall (λ ij, ∃ k : nat, ij.2 = ij.1 + Z.rem (g k) (n - ij.1))
    (swap_indices todo n i g).
Proof.
  induction todo as [|todo IH]; intros n i g; [done|].
  simpl. constructor; [by exists 0%nat|].
  eapply Forall_impl; [|apply IH]. simpl. intros ij [k ->]. by exists (S k).
Qed.

Lemma shuffle_defined array n g :
  0 ≤ n ≤ INT_MAX → n ≤ Z.of_nat (length array) → draws_within INT_MAX g →
  let ijs := swap_indices (Z.to_nat (n - 1)) n 0 g in
  shuffle array n g = Some (apply_swaps array ijs)
  ∧ Forall (λ ij, 0 ≤ ij.1 ∧ ij.1 ≤ ij.2 ∧ ij.2 ≤ n - 1) ijs.
Proof.
  intros Hn Hlen Hg ijs. unfold shuffle.
  rewrite (int_in_range (n - 1)) by int_range.
  simpl. apply shuffle_from_swaps; [done|lia|lia|done|done].
Qed.

Lemma shuffle_first_defined array n N g :
  0 ≤ N ≤ n → n ≤ INT_MAX → n ≤ Z.of_nat (length array) →
  draws_within INT_MAX g →
  shuffle_first array n N g
  = Some (apply_swaps array (swap_indices (Z.to_nat N) n 0 g)).
Proof.
  intros HN Hn Hlen Hg. unfold shuffle_first.
  apply shuffle_from_swaps; [done|lia|lia|done|done].
Qed.

End facts.

Section transport.
Context {A B : Type} (f : A → B).

Lemma swap_at_fmap (l : list A) (a b : nat) :
  swap_at (f <$> l) a b = f <$> swap_at l a b.
Proof.
  unfold swap_at. rewrite !list_lookup_fmap.
  destruct (l !! a), (l !! b); simpl; try done.
  by rewrite !list_fmap_insert.
Qed.

Lemma apply_swaps_fmap ijs : ∀ l : list A,
  apply_swaps (f <$> l) ijs = f <$> apply_swaps l ijs.
Proof.
  unfold apply_swaps. induction ijs as [|ij ijs IH]; intros l; [done|].
  simpl. rewrite swap_at_fmap. apply IH.
Qed.
End transport.

Lemma fmap_lookup_seq {A} (l : list A) :
  (l !!.) <$> seq 0 (length l) = Some <$> l.
Proof.
  apply list_eq. intros k. rewrite !list_lookup_fmap.
  destruct (decide (k < length l)%nat) as [Hk|Hk].
  - rewrite lookup_seq_lt by done. simpl.
    destruct (lookup_lt_is_Some_2 l k Hk) as [x Hx]. by rewrite Hx.
  - rewrite lookup_seq_ge, lookup_ge_None_2 by lia. done.
Qed.

(** Every cell of the shuffled array comes from a cell of the original
    one, and these cells of origin are a rearrangement of all positions. *)
Lemma apply_swaps_origin {A} (array : list A) ijs :
  let origin := apply_swaps (seq 0 (length array)) ijs in
  origin ≡ₚ seq 0 (length array)
  ∧ Forall2 (λ x p, array !! p = Some x) (apply_swaps array ijs) origin.
Proof.
  intros origin. split; [apply apply_swaps_perm|].
  apply (Forall2_fmap Some (array !!.) (λ x y, y = x)).
  apply Forall2_flip. apply list_eq_Forall2. unfold origin.
  by rewrite <-!apply_swaps_fmap, fmap_lookup_seq.
Qed.

(** *** The shuffle, one element at a time *)

Section arrangements.
Context {A : Type}.
Implicit Types (array l : list A) (g : rng).

Lemma shuffle_arrange array g :
  Z.of_nat (length array) ≤ INT_MAX → draws_within INT_MAX g →
  shuffle array (Z.of_nat (length array)) g = Some (arrange array g).
Proof.
  intros HL Hg.
  destruct (shuffle_defined array (Z.of_nat (length array)) g)
    as [-> _]; [lia|done|done|].
  unfold arrange. do 3 f_equal. lia.
Qed.

Lemma swap_at_cons_S y l (a b : nat) :
  swap_at (y :: l) (S a) (S b) = y :: swap_at l a b.
Proof. unfold swap_at. simpl. by destruct (l !! a), (l !! b). Qed.

Lemma swap_at_pick x l (k : nat) :
  swap_at (x :: l) 0 k = (pick x l k).1 :: (pick x l k).2.
Proof.
  destruct k as [|k]; [by rewrite swap_at_same|].
  unfold swap_at, pick. simpl. by destruct (l !! k).
Qed.

Lemma pick_spec x l (k : nat) :
  (k ≤ length l)%nat →
  (x :: l) !! k = Some (pick x l k).1
  ∧ (pick x l k).1 :: (pick x l k).2 ≡ₚ x :: l
  ∧ length (pick x l k).2 = length l.
Proof.
  intros Hk. split; [|split].
  - destruct k as [|k]; [done|]. simpl.
    destruct (lookup_lt_is_Some_2 l k) as [y Hy]; [lia|]. by rewrite Hy.
  - rewrite <-swap_at_pick. apply swap_at_perm.
  - destruct k as [|k]; [done|]. simpl.
    destruct (l !! k); [|done]. simpl. by rewrite length_insert.
Qed.

(** The iterations after the first one shuffle the tail. *)
Lemma apply_swaps_shift todo : ∀ y l n i g,
  0 ≤ i → (∀ k, 0 ≤ g k) →
  apply_swaps (y :: l) (swap_indices todo (n + 1) (i + 1) g)
  = y :: apply_swaps l (swap_indices todo n i g).
Proof.
  induction todo as [|todo IH]; intros y l n i g Hi Hg; [done|].
  cbn [swap_indices]. replace (n + 1 - (i + 1)) with (n - i) by lia.
  assert (0 ≤ Z.rem (g 0%nat) (n - i)) as Hrem.
  { destruct (decide (n - i = 0)) as [->|?].
    - rewrite Z.rem_0_r_ext by done. apply Hg.
    - apply Z.rem_nonneg; [done|apply Hg]. }
  unfold apply_swaps at 1 2. cbn [foldl fst snd].
  replace (Z.to_nat (i + 1)) with (S (Z.to_nat i)) by lia.
  replace (Z.to_nat (i + 1 + Z.rem (g 0%nat) (n - i)))
    with (S (Z.to_nat (i + Z.rem (g 0%nat) (n - i)))) by lia.
  rewrite swap_at_cons_S. apply IH; [lia|]. intros k. apply Hg.
Qed.

Lemma arrange_cons x l g :
  (∀ k, 0 ≤ g k) →
  let k := Z.to_nat (Z.rem (g 0%nat) (Z.of_nat (S (length l)))) in
  arrange (x :: l) g
  = (pick x l k).1 :: arrange (pick x l k).2 (λ i, g (S i)).
Proof.
  intros Hg k. destruct l as [|x' l].
  { unfold k. simpl. rewrite Z.rem_1_r. done. }
  assert (k ≤ length (x' :: l))%nat as Hk.
  { unfold k. pose proof (Hg 0%nat).
    pose proof (Z.rem_bound_pos (g 0%nat)
                  (Z.of_nat (S (length (x' :: l))))). lia. }
  destruct (pick_spec x (x' :: l) k Hk) as (_ & _ & Hlen).
  unfold arrange. rewrite Hlen.
  replace (length (x :: x' :: l) - 1)%nat
    with (S (length (x' :: l) - 1)) by (simpl; lia).
  cbn [swap_indices]. unfold apply_swaps at 1. cbn [foldl fst snd].
  rewrite Z.sub_0_r, Z.add_0_l.
  change (Z.to_nat 0) with 0%nat. rewrite swap_at_pick.
  change (Z.to_nat (Z.rem (g 0%nat) (Z.of_nat (length (x :: x' :: l)))))
    with k.
  replace (Z.of_nat (length (x :: x' :: l)))
    with (Z.of_nat (length (x' :: l)) + 1) by (simpl; lia).
  apply (apply_swaps_shift _ _ _ _ 0); [done|]. intros i. apply Hg.
Qed.

Lemma swap_indices_agree todo : ∀ n i g g',
  (∀ k : nat, (k < todo)%nat →
     Z.rem (g k) (n - (i + Z.of_nat k))
     = Z.rem (g' k) (n - (i + Z.of_nat k))) →
  swap_indices todo n i g = swap_indices todo n i g'.
Proof.
  induction todo as [|todo IH]; intros n i g g' Hgg'; [done|].
  cbn [swap_indices]. f_equal.
  - specialize (Hgg' 0%nat ltac:(lia)).
    replace (n - (i + Z.of_nat 0)) with (n - i) in Hgg' by lia.
    by rewrite Hgg'.
  - apply IH. intros k Hk. specialize (Hgg' (S k) ltac:(lia)).
    by replace (n - (i + 1 + Z.of_nat k))
      with (n - (i + Z.of_nat (S k))) by lia.
Qed.

Lemma arrange_ext array g g' :
  (∀ k : nat, (k < length array - 1)%nat →
     Z.rem (g k) (Z.of_nat (length array) - Z.of_nat k)
     = Z.rem (g' k) (Z.of_nat (length array) - Z.of_nat k)) →
  arrange array g = arrange array g'.
Proof.
  intros Hgg'. unfold arrange. f_equal. apply swap_indices_agree.
  intros k Hk. rewrite Z.add_0_l. by apply Hgg'.
Qed.

(** Every arrangement of the array is the outcome of some draws, when
    [rand()] can return every offset. *)
Lemma arrange_reaches RAND_MAX (n : nat) : ∀ array target,
  0 ≤ RAND_MAX →
  length array = n → target ≡ₚ array → Z.of_nat n ≤ RAND_MAX + 1 →
  ∃ g, draws_within RAND_MAX g ∧ arrange array g = target.
Proof.
  induction n as [|n IH]; intros array target Hpos Hlen Hperm Hsmall.
  { destruct array; [|done]. apply Permutation_nil_r in Hperm as ->.
    exists (λ _, 0). split; [|done]. intros k. lia. }
  destruct array as [|x l]; [done|]. injection Hlen as Hlen.
  destruct target as [|y t].
  { symmetry in Hperm. by apply Permutation_nil_r in Hperm. }
  assert (y ∈ x :: l) as Hy by (rewrite <-Hperm; apply list_elem_of_here).
  apply list_elem_of_lookup_1 in Hy as [k Hk].
  pose proof (lookup_lt_Some _ _ _ Hk) as Hklen. simpl in Hklen.
  destruct (pick_spec x l k) as (Hfirst & Hpick & Hlen'); [lia|].
  rewrite Hk in Hfirst. injection Hfirst as Hfirst.
  destruct (IH (pick x l k).2 t) as (g' & Hg' & Harr); [done|lia| |lia|].
  { apply (Permutation_cons_inv (a := y)).
    rewrite Hperm, <-Hpick. by rewrite <-Hfirst. }
  exists (draw_then (Z.of_nat k) g'). split.
  { intros [|i]; simpl; [lia|apply Hg']. }
  rewrite arrange_cons.
  2:{ intros [|i]; simpl; [lia|apply Hg']. }
  simpl draw_then. rewrite Z.rem_small by lia. rewrite Nat2Z.id.
  rewrite <-Hfirst. f_equal. exact Harr.
Qed.

(** On an array without duplicates, the outcome tells the offsets. *)
Lemma arrange_inj (n : nat) : ∀ array g g',
  length array = n → NoDup array →
  (∀ k, 0 ≤ g k) → (∀ k, 0 ≤ g' k) →
  arrange array g = arrange array g' →
  ∀ k : nat, (k < n - 1)%nat →
    Z.rem (g k) (Z.of_nat n - Z.of_nat k)
    = Z.rem (g' k) (Z.of_nat n - Z.of_nat k).
Proof.
  induction n as [|n IH]; intros array g g' Hlen Hdup Hg Hg' Heq k Hk;
    [lia|].
  destruct array as [|x l]; [done|]. injection Hlen as Hlen.
  rewrite !arrange_cons in Heq by done. rewrite Hlen in Heq.
  set (k1 := Z.to_nat (Z.rem (g 0%nat) (Z.of_nat (S n)))) in *.
  set (k2 := Z.to_nat (Z.rem (g' 0%nat) (Z.of_nat (S n)))) in *.
  injection Heq as Hfirst Hrest.
  pose proof (Z.rem_bound_pos (g 0%nat) (Z.of_nat (S n)) (Hg _)) as Hb1.
  pose proof (Z.rem_bound_pos (g' 0%nat) (Z.of_nat (S n)) (Hg' _)) as Hb2.
  destruct (pick_spec x l k1) as (Hk1 & Hperm1 & Hlen1); [lia|].
  destruct (pick_spec x l k2) as (Hk2 & _ & _); [lia|].
  rewrite <-Hfirst in Hk2.
  pose proof (NoDup_lookup _ _ _ _ Hdup Hk1 Hk2) as Hk12.
  destruct k as [|k].
  { rewrite Z.sub_0_r. lia. }
  rewrite <-Hk12 in Hrest.
  replace (Z.of_nat (S n) - Z.of_nat (S k))
    with (Z.of_nat n - Z.of_nat k) by lia.
  apply (IH (pick x l k1).2 (λ i, g (S i)) (λ i, g' (S i)));
    [lia| |by intros i|by intros i|done|lia].
  rewrite <-Hperm1 in Hdup. by apply NoDup_cons_1_2 in Hdup.
Qed.
End arrangements.

(** *** Counting the draws that lead to an outcome *)

Lemma elem_of_upto n : ∀ start r,
  r ∈ upto n start → start ≤ r < start + Z.of_nat n.
Proof.
  induction n as [|n IH]; intros start r; simpl.
  { by intros ?%elem_of_nil. }
  intros [->|Hr%IH]%elem_of_cons; lia.
Qed.

Lemma length_upto n : ∀ start, length (upto n start) = n.
Proof. induction n as [|n IH]; intros start; simpl; [done|]. by rewrite IH. Qed.

Lemma sumZ_ext f f' (l : list Z) :
  (∀ r, r ∈ l → f r = f' r) → sumZ f l = sumZ f' l.
Proof.
  induction l as [|r l IH]; intros Hff'; [done|]. simpl.
  rewrite Hff' by apply list_elem_of_here.
  rewrite IH; [done|]. intros r' Hr'. apply Hff'.
  by apply list_elem_of_further.
Qed.

Lemma sumZ_constant c (l : list Z) :
  sumZ (λ _, c) l = c * Z.of_nat (length l).
Proof. induction l as [|r l IH]; simpl; [lia|]. rewrite IH. lia. Qed.

Lemma draws_within_weaken RAND_MAX RAND_MAX' g :
  RAND_MAX ≤ RAND_MAX' → draws_within RAND_MAX g → draws_within RAND_MAX' g.
Proof. intros Hle Hg k. specialize (Hg k). lia. Qed.

(** The element that comes first depends on the first draw only. *)
Lemma shuffle_first_winner {A} (array : list A) g :
  let L := Z.of_nat (length array) in
  1 ≤ L ≤ INT_MAX → draws_within INT_MAX g →
  take 1 <$> shuffle array L g
  = Some (take 1 (swap_at array 0 (Z.to_nat (Z.rem (g 0%nat) L)))).
Proof.
  intros L HL Hg.
  destruct (shuffle_defined array L g) as [-> _]; [lia|done|done|].
  simpl. f_equal.
  destruct (decide (L = 1)) as [HL1|HL1].
  { rewrite HL1. simpl. rewrite Z.rem_1_r. simpl.
    by rewrite swap_at_same. }
  replace (Z.to_nat (L - 1)) with (1 + Z.to_nat (L - 2))%nat by lia.
  rewrite swap_indices_add, apply_swaps_app.
  rewrite (take_apply_swaps 1).
  - simpl. by rewrite Z.sub_0_r.
  - destruct (shuffle_from_swaps (Z.to_nat (L - 2)) array L
                (0 + Z.of_nat 1) (λ k, g (1 + k)%nat)) as [_ Hall];
      [lia|lia|lia|done|by intros k; apply Hg|].
    eapply Forall_impl; [|exact Hall]. simpl. intros ij ?. lia.
Qed.

Lemma residues_step d k x :
  0 < d → 0 ≤ k < d → 0 ≤ x →
  residues d k (x + 1)
  = residues d k x + (if x mod d =? k then 1 else 0).
Proof.
  intros Hd Hk Hx. unfold residues.
  pose proof (Z.div_mod x d ltac:(lia)) as Hdiv.
  pose proof (Z.mod_pos_bound x d Hd) as Hmod.
  destruct (decide (x mod d = d - 1)) as [Hlast|Hlast].
  - rewrite <-(Z.div_unique (x + 1) d (x / d + 1) 0) by lia.
    rewrite <-(Z.mod_unique (x + 1) d (x / d + 1) 0) by lia.
    rewrite Hlast.
    destruct (Z.ltb_spec k 0), (Z.ltb_spec k (d - 1)),
      (Z.eqb_spec (d - 1) k); lia.
  - rewrite <-(Z.div_unique (x + 1) d (x / d) (x mod d + 1)) by lia.
    rewrite <-(Z.mod_unique (x + 1) d (x / d) (x mod d + 1)) by lia.
    destruct (Z.ltb_spec k (x mod d + 1)), (Z.ltb_spec k (x mod d)),
      (Z.eqb_spec (x mod d) k); lia.
Qed.

Lemma sum_residues d k c (n : nat) : ∀ start,
  0 < d → 0 ≤ k < d → 0 ≤ start →
  sumZ (λ r, if r mod d =? k then c else 0) (upto n start)
  = c * (residues d k (start + Z.of_nat n) - residues d k start).
Proof.
  induction n as [|n IH]; intros start Hd Hk Hstart; simpl.
  { rewrite Z.add_0_r. lia. }
  rewrite IH by lia. rewrite (residues_step d k start) by done.
  replace (start + 1 + Z.of_nat n) with (start + Z.of_nat (S n)) by lia.
  destruct (start mod d =? k); lia.
Qed.

(** With three names, the winner is the name at the remainder of the
    first draw by three. *)
Lemma first_name_residue r (k : nat) name :
  0 ≤ r → Samples.names !! k = Some name →
  bool_decide (take 1 (swap_at Samples.names 0 (Z.to_nat (Z.rem r 3)))
               = [name])
  = (r mod 3 =? Z.of_nat k).
Proof.
  intros Hr Hname. rewrite Z.rem_mod_nonneg by lia.
  pose proof (Z.mod_pos_bound r 3 ltac:(lia)) as Hmod.
  assert (r mod 3 = 0 ∨ r mod 3 = 1 ∨ r mod 3 = 2) as [->|[->| ->]] by lia;
    destruct k as [|[|[|k]]]; simplify_eq/=; done.
Qed.

Section counting.
Variable RAND_MAX : Z.
Hypothesis RAND_MAX_pos : 0 ≤ RAND_MAX.
Hypothesis RAND_MAX_int : RAND_MAX ≤ INT_MAX.

Lemma elem_of_draw_values r : r ∈ draw_values RAND_MAX → 0 ≤ r ≤ RAND_MAX.
Proof. intros Hr%elem_of_upto. lia. Qed.

Lemma count_draws_ext m : ∀ P P',
  (∀ v, length v = m → Forall (λ r, 0 ≤ r ≤ RAND_MAX) v → P v = P' v) →
  count_draws RAND_MAX m P = count_draws RAND_MAX m P'.
Proof.
  induction m as [|m IH]; intros P P' HPP'; simpl.
  { by rewrite (HPP' []). }
  apply sumZ_ext. intros r Hr%elem_of_draw_values. apply IH.
  intros v Hlen Hv. apply HPP'; [by rewrite <-Hlen|]. by constructor.
Qed.

Lemma count_draws_constant m (b : bool) :
  count_draws RAND_MAX m (λ _, b)
  = if b then (RAND_MAX + 1) ^ Z.of_nat m else 0.
Proof.
  induction m as [|m IH]; [done|]. cbn [count_draws].
  rewrite (sumZ_ext _ (λ _, if b then (RAND_MAX + 1) ^ Z.of_nat m else 0))
    by (intros r _; apply IH).
  rewrite sumZ_constant. unfold draw_values. rewrite length_upto.
  destruct b; [|lia].
  rewrite Nat2Z.inj_succ, Z.pow_succ_r by lia. lia.
Qed.

Lemma replay_within (v : list Z) :
  Forall (λ r, 0 ≤ r ≤ RAND_MAX) v → draws_within RAND_MAX (replay v).
Proof.
  intros Hv k. unfold replay. destruct (v !! k) as [r|] eqn:Hk; simpl.
  - by apply (Forall_lookup_1 _ _ _ _ Hv Hk).
  - lia.
Qed.

Context `{EqDecision A}.

(** With one winner, the first draw decides. *)
Lemma winners_are_first (array w : list A) r v :
  1 ≤ Z.of_nat (length array) ≤ INT_MAX →
  0 ≤ r ≤ RAND_MAX → Forall (λ r, 0 ≤ r ≤ RAND_MAX) v →
  winners_are array 1 w (r :: v)
  = bool_decide
      (take 1 (swap_at array 0
                 (Z.to_nat (Z.rem r (Z.of_nat (length array))))) = w).
Proof.
  intros HL Hr Hv. unfold winners_are. rewrite shuffle_first_winner.
  - change (replay (r :: v) 0%nat) with r.
    apply bool_decide_ext. split; [by intros [= <-]|by intros <-].
  - done.
  - apply (draws_within_weaken RAND_MAX); [done|].
    apply replay_within. by constructor.
Qed.

Lemma count_first_winner (array w : list A) (m : nat) :
  1 ≤ Z.of_nat (length array) ≤ INT_MAX →
  count_draws RAND_MAX (S m) (winners_are array 1 w)
  = sumZ (λ r, if bool_decide
                    (take 1 (swap_at array 0
                       (Z.to_nat (Z.rem r (Z.of_nat (length array))))) = w)
               then (RAND_MAX + 1) ^ Z.of_nat m else 0)
      (draw_values RAND_MAX).
Proof.
  intros HL. cbn [count_draws]. apply sumZ_ext.
  intros r Hr%elem_of_draw_values.
  rewrite (count_draws_ext m _
    (λ _, bool_decide
            (take 1 (swap_at array 0
               (Z.to_nat (Z.rem r (Z.of_nat (length array))))) = w))).
  { by rewrite count_draws_constant. }
  intros v _ Hv. by apply winners_are_first.
Qed.
End counting.

(** The number of draws that make the name at position [k] the winner,
    among three names. *)
Lemma count_first_name RAND_MAX (k : nat) name (m : nat) :
  0 ≤ RAND_MAX ≤ INT_MAX → Samples.names !! k = Some name →
  count_draws RAND_MAX (S m) (winners_are Samples.names 1 [name])
  = (RAND_MAX + 1) ^ Z.of_nat m * residues 3 (Z.of_nat k) (RAND_MAX + 1).
Proof.
  intros HR Hname. pose proof (lookup_lt_Some _ _ _ Hname) as Hk.
  simpl in Hk.
  rewrite count_first_winner by (simpl; int_range).
  rewrite (sumZ_ext _ (λ r, if r mod 3 =? Z.of_nat k
                            then (RAND_MAX + 1) ^ Z.of_nat m else 0)).
  2:{ intros r Hr%elem_of_draw_values; [|lia].
      change (Z.of_nat (length Samples.names)) with 3.
      by rewrite (first_name_residue r k name) by (done || lia). }
  unfold draw_values. rewrite sum_residues by lia.
  rewrite Z.add_0_l, Z2Nat.id by lia.
  unfold residues at 2. rewrite Z.mod_0_l, Z.div_0_l by lia.
  destruct (Z.ltb_spec (Z.of_nat k) 0); lia.
Qed.

(** Whenever three does not divide the number of values of [rand()], the
    first of three names wins more often than the last. *)
Lemma first_name_favoured RAND_MAX :
  0 ≤ RAND_MAX ≤ INT_MAX → (RAND_MAX + 1) mod 3 ≠ 0 →
  ¬ equally_likely RAND_MAX Samples.names 1.
Proof.
  intros HR Hmod Heq.
  assert (NoDup [bytes "alice"]) as Ha by apply NoDup_singleton.
  assert (NoDup [bytes "carol"]) as Hc by apply NoDup_singleton.
  assert ([bytes "alice"] ⊆ Samples.names) as Hsa.
  { intros x ->%list_elem_of_singleton. by apply (bool_decide_unpack _). }
  assert ([bytes "carol"] ⊆ Samples.names) as Hsc.
  { intros x ->%list_elem_of_singleton. by apply (bool_decide_unpack _). }
  specialize (Heq [bytes "alice"] [bytes "carol"] eq_refl eq_refl
                Ha Hc Hsa Hsc).
  change (length Samples.names - 1)%nat with 2%nat in Heq.
  rewrite (count_first_name RAND_MAX 0 (bytes "alice") 1 HR eq_refl) in Heq.
  rewrite (count_first_name RAND_MAX 2 (bytes "carol") 1 HR eq_refl) in Heq.
  unfold residues in Heq.
  pose proof (Z.mod_pos_bound (RAND_MAX + 1) 3 ltac:(lia)) as Hbound.
  destruct (Z.ltb_spec (Z.of_nat 0) ((RAND_MAX + 1) mod 3)); [|lia].
  destruct (Z.ltb_spec (Z.of_nat 2) ((RAND_MAX + 1) mod 3)); [lia|].
  change (Z.of_nat 1) with 1 in Heq. rewrite Z.pow_1_r in Heq. nia.
Qed.

(** *** The statements of the specification about the sampler *)

Section statements.
Context {A : Type}.
Implicit Types (array : list A) (g : rng).

(** C9. [shuffle] stays inside the array: for [0 ≤ n], an array of at
    least [n] cells and non-negative values of [rand()], the call is
    defined, it visits [i = 0, ..., n - 2] in turn, the divisor [n - i]
    of each iteration is positive and the index
    [j = i + rand() % (n - i)] lies in [[i, n - 1]]; for [n ≤ 1] it
    makes no swap and returns the array as it was, whatever the array. *)
Theorem shuffle_in_bounds array (n : Z) g :
  0 ≤ n ≤ INT_MAX →
  let ijs := swap_indices (Z.to_nat (n - 1)) n 0 g in
  (n ≤ Z.of_nat (length array) → draws_within INT_MAX g →
   shuffle array n g = Some (apply_swaps array ijs)
   ∧ ijs.*1 = seqZ 0 (n - 1)
   ∧ Forall (λ ij, 0 < n - ij.1 ∧ ij.1 ≤ ij.2 ∧ ij.2 ≤ n - 1
                   ∧ ∃ k : nat, ij.2 = ij.1 + Z.rem (g k) (n - ij.1)) ijs)
  ∧ (n ≤ 1 → ijs = [] ∧ shuffle array n g = Some array).
Proof.
  intros Hn ijs. split.
  - intros Hlen Hg.
    destruct (shuffle_defined array n g Hn Hlen Hg) as [Heq Hall].
    fold ijs in Heq, Hall.
    split; [done|]. split.
    { unfold ijs. rewrite swap_indices_fst. unfold seqZ.
      by rewrite Nat2Z.id. }
    pose proof (swap_indices_draw (Z.to_nat (n - 1)) n 0 g) as Hdraw.
    fold ijs in Hdraw. rewrite Forall_forall in Hall, Hdraw.
    apply Forall_forall. intros ij Hij.
    specialize (Hall ij Hij). specialize (Hdraw ij Hij).
    repeat split; (lia || done).
  - intros Hn1. unfold ijs, shuffle.
    rewrite (int_in_range (n - 1)) by int_range.
    cbn [mbind option_bind].
    replace (Z.to_nat (n - 1)) with 0%nat by lia. done.
Qed.

(** C1. After [shuffle] on a list of length [L ≥ 1], whatever [rand()]
    returned, the array is a permutation of the array before; its cells
    come from pairwise distinct positions of the original list, so for
    [1 ≤ N ≤ L] the first [N] elements are [N] entries drawn from [N]
    distinct positions of origin. *)
Theorem shuffle_winners_distinct array (N : Z) g :
  let L := Z.of_nat (length array) in
  1 ≤ L ≤ INT_MAX → 1 ≤ N ≤ L → draws_within INT_MAX g →
  ∃ array' origin,
    shuffle array L g = Some array'
    ∧ array' ≡ₚ array
    ∧ origin ≡ₚ seq 0 (length array)
    ∧ Forall2 (λ x p, array !! p = Some x) array' origin
    ∧ length (take (Z.to_nat N) array') = Z.to_nat N
    ∧ NoDup (take (Z.to_nat N) origin)
    ∧ Forall2 (λ x p, array !! p = Some x)
        (take (Z.to_nat N) array') (take (Z.to_nat N) origin).
Proof.
  intros L HL HN Hg.
  destruct (shuffle_defined array L g) as [Heq _]; [lia|done|done|].
  set (ijs := swap_indices (Z.to_nat (L - 1)) L 0 g) in *.
  destruct (apply_swaps_origin array ijs) as [Hperm Hfrom].
  exists (apply_swaps array ijs), (apply_swaps (seq 0 (length array)) ijs).
  split; [done|]. split; [apply apply_swaps_perm|].
  split; [done|]. split; [done|]. split.
  { apply length_take_le. rewrite length_apply_swaps. lia. }
  split; [|by apply Forall2_take].
  eapply sublist_NoDup; [|apply sublist_take].
  rewrite Hperm. apply NoDup_seq.
Qed.

(** C6. Stopping the loop once the first [N] positions are final
    ([i] from [0] to [N - 1]) gives, for the same values of [rand()],
    the same first [N] elements as the whole loop of [shuffle]
    ([i] from [0] to [L - 2]). *)
Theorem shuffle_first_agrees array (N : Z) g :
  let L := Z.of_nat (length array) in
  1 ≤ N ≤ L → L ≤ INT_MAX → draws_within INT_MAX g →
  ∃ full part,
    shuffle array L g = Some full
    ∧ shuffle_first array L N g = Some part
    ∧ take (Z.to_nat N) part = take (Z.to_nat N) full.
Proof.
  intros L HN HL Hg.
  destruct (shuffle_defined array L g) as [Hfull _]; [lia|done|done|].
  pose proof (shuffle_first_defined array L N g) as Hpart.
  rewrite Hfull, Hpart by (done || lia).
  eexists _, _. split; [done|]. split; [done|].
  destruct (decide (N = L)) as [->|HNL].
  - (* one more iteration, which swaps the last cell with itself *)
    replace (Z.to_nat L) with (Z.to_nat (L - 1) + 1)%nat by lia.
    rewrite swap_indices_add, apply_swaps_app. f_equal.
    replace (0 + Z.of_nat (Z.to_nat (L - 1))) with (L - 1) by lia.
    simpl. replace (L - (L - 1)) with 1 by lia.
    rewrite Z.rem_1_r, Z.add_0_r.
    unfold apply_swaps at 1. simpl. apply swap_at_same.
  - (* the iterations left out only touch cells from [N] on *)
    replace (Z.to_nat (L - 1))
      with (Z.to_nat N + Z.to_nat (L - 1 - N))%nat by lia.
    rewrite swap_indices_add, apply_swaps_app.
    symmetry. apply take_apply_swaps.
    destruct (shuffle_from_swaps (Z.to_nat (L - 1 - N)) array L
                (0 + Z.of_nat (Z.to_nat N))
                (λ k, g (Z.to_nat N + k)%nat)) as [_ Hall];
      [lia|lia|done|done|by intros k; apply Hg|].
    eapply Forall_impl; [|exact Hall]. simpl. intros ij ?. lia.
Qed.

(** C2 (as the code has it). [shuffle] runs the loop of Fisher and
    Yates: for [i] from [0] to [L - 2] it swaps the elements [i] and
    [j = i + rand() % (L - i)], and [j] lies in [[i, L - 1]]; what it
    returns is a permutation of the list, whose first [N] elements
    are distinct when the list has no duplicates.  Every arrangement of
    the list comes out for some values of [rand()] (when
    [L ≤ RAND_MAX + 1]), and on a list without duplicates two runs
    return the same arrangement exactly when they made the same swaps:
    the arrangements correspond one to one to the sequences of swap
    indices.  Nothing is said of how likely each index is. *)
Theorem shuffle_fisher_yates array (N RAND_MAX : Z) :
  let L := Z.of_nat (length array) in
  1 ≤ L ≤ INT_MAX → 1 ≤ N ≤ L → 0 ≤ RAND_MAX ≤ INT_MAX →
  (∀ g, draws_within RAND_MAX g →
     let ijs := swap_indices (Z.to_nat (L - 1)) L 0 g in
     ∃ array',
       shuffle array L g = Some array'
       ∧ array' = apply_swaps array ijs
       ∧ (∀ i : nat, (i < length array - 1)%nat →
            let j := Z.of_nat i + Z.rem (g i) (L - Z.of_nat i) in
            ijs !! i = Some (Z.of_nat i, j) ∧ Z.of_nat i ≤ j ≤ L - 1)
       ∧ array' ≡ₚ array
       ∧ length (take (Z.to_nat N) array') = Z.to_nat N
       ∧ (NoDup array → NoDup (take (Z.to_nat N) array')))
  ∧ (L ≤ RAND_MAX + 1 → ∀ target, target ≡ₚ array →
     ∃ g, draws_within RAND_MAX g ∧ shuffle array L g = Some target)
  ∧ (NoDup array → ∀ g g',
     draws_within RAND_MAX g → draws_within RAND_MAX g' →
     (shuffle array L g = shuffle array L g'
      ↔ ∀ i : nat, (i < length array - 1)%nat →
          Z.rem (g i) (L - Z.of_nat i) = Z.rem (g' i) (L - Z.of_nat i))).
Proof.
  intros L HL HN HR. split; [|split].
  - intros g Hg ijs.
    apply (draws_within_weaken _ INT_MAX) in Hg; [|lia].
    destruct (shuffle_defined array L g) as [Heq _]; [lia|done|done|].
    fold ijs in Heq. exists (apply_swaps array ijs).
    split; [done|]. split; [done|]. split.
    { intros i Hi j. unfold ijs.
      rewrite swap_indices_lookup by lia. rewrite !Z.add_0_l.
      split; [done|]. unfold j.
      pose proof (Z.rem_bound_pos (g i) (L - Z.of_nat i)
                    ltac:(apply Hg)). lia. }
    split; [apply apply_swaps_perm|]. split.
    { apply length_take_le. rewrite length_apply_swaps. lia. }
    intros Hdup. eapply sublist_NoDup; [|apply sublist_take].
    by rewrite apply_swaps_perm.
  - intros Hsmall target Hperm.
    destruct (arrange_reaches RAND_MAX (length array) array target)
      as (g & Hg & Harr); [lia|done|done|done|].
    exists g. split; [done|]. unfold L.
    rewrite shuffle_arrange; [by rewrite Harr|lia|].
    by apply (draws_within_weaken RAND_MAX); [lia|].
  - intros Hdup g g' Hg Hg'.
    assert (∀ k, 0 ≤ g k) as Hpos by (intros k; apply Hg).
    assert (∀ k, 0 ≤ g' k) as Hpos' by (intros k; apply Hg').
    apply (draws_within_weaken _ INT_MAX) in Hg; [|lia].
    apply (draws_within_weaken _ INT_MAX) in Hg'; [|lia].
    unfold L. rewrite !shuffle_arrange by (done || lia). split.
    + intros [= Heq].
      by apply (arrange_inj (length array) array g g').
    + intros Hgg'. f_equal. by apply arrange_ext.
Qed.

End statements.

(** C2, as it is stated, fails: with [RAND_MAX = 32767] and three names,
    10923 of the 32768 values of the first draw make "alice" the winner
    and 10922 make "carol" the winner (the second draw plays no part), so
    the two outcomes are not equally likely. *)
Lemma modulo_bias :
  count_draws 32767 2 (winners_are Samples.names 1 [bytes "alice"])
  = 10923 * 32768
  ∧ count_draws 32767 2 (winners_are Samples.names 1 [bytes "carol"])
    = 10922 * 32768
  ∧ ¬ equally_likely 32767 Samples.names 1.
Proof.
  assert (0 ≤ 32767) as Hpos by lia.
  assert (32767 ≤ INT_MAX) as Hint by (unfold INT_MAX; lia).
  assert (1 ≤ Z.of_nat (length Samples.names) ≤ INT_MAX) as Hlen
    by (unfold INT_MAX; simpl; lia).
  assert (count_draws 32767 2 (winners_are Samples.names 1 [bytes "alice"])
          = 10923 * 32768) as Halice.
  { etrans; [exact (count_first_winner 32767 Hpos Hint Samples.names
                      [bytes "alice"] 1 Hlen)|].
    vm_compute. reflexivity. }
  assert (count_draws 32767 2 (winners_are Samples.names 1 [bytes "carol"])
          = 10922 * 32768) as Hcarol.
  { etrans; [exact (count_first_winner 32767 Hpos Hint Samples.names
                      [bytes "carol"] 1 Hlen)|].
    vm_compute. reflexivity. }
  split; [done|]. split; [done|]. intros Heq.
  assert (NoDup [bytes "alice"]) as Ha by apply NoDup_singleton.
  assert (NoDup [bytes "carol"]) as Hc by apply NoDup_singleton.
  assert ([bytes "alice"] ⊆ Samples.names) as Hsa.
  { intros x ->%list_elem_of_singleton. by apply (bool_decide_unpack _). }
  assert ([bytes "carol"] ⊆ Samples.names) as Hsc.
  { intros x ->%list_elem_of_singleton. by apply (bool_decide_unpack _). }
  specialize (Heq [bytes "alice"] [bytes "carol"] eq_refl eq_refl
                Ha Hc Hsa Hsc).
  pose proof (eq_trans (eq_sym Halice) (eq_trans Heq Hcarol)) as Hsum.
  discriminate Hsum.
Qed.

(** The same holds with [RAND_MAX = 2147483647], its value with the GNU C
    library: three does not divide [2 ^ 31]. *)
Lemma modulo_bias_gnu : ¬ equally_likely 2147483647 Samples.names 1.
Proof. apply first_name_favoured; [int_range|done]. Qed.

(** *** The statements on sample inputs *)

Lemma sample_draws_within : draws_within INT_MAX Samples.draws.
Proof.
  intros k. unfold Samples.draws, replay, INT_MAX.
  destruct k as [|[|[|k]]]; simpl; lia.
Qed.

Lemma sample_names_length :
  1 ≤ Z.of_nat (length Samples.names) ≤ INT_MAX.
Proof. unfold INT_MAX. simpl. lia. Qed.

Lemma shuffle_in_bounds_sample :
  (0 ≤ 3 ≤ INT_MAX ∧ 3 ≤ Z.of_nat (length Samples.names))
  ∧ shuffle Samples.names 3 Samples.draws
    = Some [bytes "carol"; bytes "alice"; bytes "bob"]
  ∧ swap_indices 2 3 0 Samples.draws = [(0, 2); (1, 2)].
Proof.
  assert (0 ≤ 3 ≤ INT_MAX) as Hn by (unfold INT_MAX; lia).
  assert (3 ≤ Z.of_nat (length Samples.names)) as Hlen by (simpl; lia).
  split; [done|].
  destruct (shuffle_in_bounds Samples.names 3 Samples.draws Hn)
    as [Hinside _].
  destruct (Hinside Hlen sample_draws_within) as (Hshuffle & _).
  split; [exact Hshuffle|reflexivity].
Defined.

Lemma shuffle_winners_distinct_sample :
  (1 ≤ 2 ≤ Z.of_nat (length Samples.names))
  ∧ ∃ array' origin,
      shuffle Samples.names 3 Samples.draws = Some array'
      ∧ array' ≡ₚ Samples.names
      ∧ origin ≡ₚ seq 0 3
      ∧ Forall2 (λ x p, Samples.names !! p = Some x) array' origin
      ∧ length (take 2 array') = 2%nat
      ∧ NoDup (take 2 origin).
Proof.
  assert (1 ≤ 2 ≤ Z.of_nat (length Samples.names)) as HN by (simpl; lia).
  split; [done|].
  destruct (shuffle_winners_distinct Samples.names 2 Samples.draws
              sample_names_length HN sample_draws_within)
    as (array' & origin & H1 & H2 & H3 & H4 & H5 & H6 & _).
  exists array', origin. repeat split; assumption.
Defined.

Lemma shuffle_first_agrees_sample :
  (1 ≤ 1 ≤ Z.of_nat (length Samples.names))
  ∧ (∃ full part,
       shuffle Samples.names 3 Samples.draws = Some full
       ∧ shuffle_first Samples.names 3 1 Samples.draws = Some part
       ∧ take 1 part = take 1 full)
  ∧ shuffle Samples.names 3 Samples.draws
    = Some [bytes "carol"; bytes "alice"; bytes "bob"]
  ∧ shuffle_first Samples.names 3 1 Samples.draws
    = Some [bytes "carol"; bytes "bob"; bytes "alice"].
Proof.
  assert (1 ≤ 1 ≤ Z.of_nat (length Samples.names)) as HN by (simpl; lia).
  split; [done|]. split; [|split; reflexivity].
  apply (shuffle_first_agrees Samples.names 1 Samples.draws HN);
    [apply sample_names_length|apply sample_draws_within].
Defined.

Lemma shuffle_fisher_yates_sample :
  (0 ≤ 32767 ≤ INT_MAX)
  ∧ ∃ g, draws_within 32767 g
         ∧ shuffle Samples.names 3 g
           = Some [bytes "bob"; bytes "carol"; bytes "alice"].
Proof.
  assert (0 ≤ 32767 ≤ INT_MAX) as HR by (unfold INT_MAX; lia).
  assert (1 ≤ 2 ≤ Z.of_nat (length Samples.names)) as HN by (simpl; lia).
  split; [done|].
  destruct (shuffle_fisher_yates Samples.names 2 32767
              sample_names_length HN HR) as (_ & Hreach & _).
  apply Hreach; [simpl; lia|].
  apply (Permutation_app_comm [bytes "bob"; bytes "carol"] [bytes "alice"]).
Defined.

End SamplerFacts.

(** * Properties of the loader *)

Module LoaderFacts.
Import Loader.

Lemma byte_eqb_spec (c d : byte) : reflect (c = d) (Byte.eqb c d).
Proof.
  destruct (Byte.eqb c d) eqn:Heq; constructor.
  - by apply Byte.byte_dec_bl.
  - intros ->. by rewrite Byte.byte_dec_lb in Heq.
Qed.

Lemma is_eol_false c : is_eol c = false ↔ c ≠ LF ∧ c ≠ CR.
Proof.
  unfold is_eol.
  destruct (byte_eqb_spec c LF) as [->|Hlf]; simpl; [by split; [|intros []]|].
  destruct (byte_eqb_spec c CR) as [->|Hcr]; simpl; [by split; [|intros []]|].
  done.
Qed.

(** *** [fgets] *)

Lemma fgets_read_app room : ∀ stream buffer rest,
  fgets_read room stream = (buffer, rest) → stream = buffer ++ rest.
Proof.
  induction room as [|room IH]; intros [|c s] buffer rest; simpl;
    try (by intros [= <- <-]).
  destruct (byte_eqb_spec c LF); [by intros [= <- <-]|].
  destruct (fgets_read room s) as [b r] eqn:Hrd. intros [= <- <-].
  by rewrite (IH _ _ _ Hrd).
Qed.

(** A newline ends the buffer; a buffer without newline is full, unless
    the file ended. *)
Lemma fgets_read_newline room : ∀ stream buffer rest,
  fgets_read room stream = (buffer, rest) →
  (∃ text, buffer = text ++ [LF] ∧ (LF ∉ text))
  ∨ ((LF ∉ buffer) ∧ (rest = [] ∨ length buffer = room)).
Proof.
  induction room as [|room IH]; intros [|c s] buffer rest; simpl.
  - intros [= <- <-]. right. split; [apply not_elem_of_nil|by left].
  - intros [= <- <-]. right. split; [apply not_elem_of_nil|by right].
  - intros [= <- <-]. right. split; [apply not_elem_of_nil|by left].
  - destruct (byte_eqb_spec c LF) as [->|Hc].
    { intros [= <- <-]. left. exists []. split; [done|apply not_elem_of_nil]. }
    destruct (fgets_read room s) as [b r] eqn:Hrd. intros [= <- <-].
    destruct (IH _ _ _ Hrd) as [(text & -> & Htext)|[Hb Hfull]].
    + left. exists (c :: text). split; [done|].
      apply not_elem_of_cons. split; [congruence|done].
    + right. split.
      { apply not_elem_of_cons. split; [congruence|done]. }
      destruct Hfull as [->| <-]; [by left|by right].
Qed.

Lemma fgets_Some size stream buffer rest :
  1 < size → fgets size stream = Some (buffer, rest) →
  fgets_read (Z.to_nat (size - 1)) stream = (buffer, rest)
  ∧ stream ≠ [] ∧ buffer ≠ [] ∧ (length rest < length stream)%nat.
Proof.
  intros Hsize. unfold fgets. destruct stream as [|c s]; [done|].
  intros Hread. apply (inj Some) in Hread. split; [done|]. split; [done|].
  pose proof (fgets_read_app _ _ _ _ Hread) as Happ.
  assert (buffer ≠ []) as Hne.
  { destruct (Z.to_nat (size - 1)) as [|room] eqn:Hroom; [lia|].
    revert Hread. clear. simpl.
    destruct (Byte.eqb c LF); [by intros [= <- <-]|].
    destruct (fgets_read room s). by intros [= <- <-]. }
  split; [done|]. rewrite Happ, length_app.
  destruct buffer; [done|]. simpl. lia.
Qed.

Lemma fgets_None size stream : fgets size stream = None → stream = [].
Proof. by destruct stream. Qed.

(** *** The string in the buffer *)

Lemma strlen_le buffer : (strlen buffer ≤ length buffer)%nat.
Proof.
  induction buffer as [|c b IH]; simpl; [lia|].
  destruct (Byte.eqb c NUL); simpl; lia.
Qed.

Lemma strlen_no_NUL buffer : NUL ∉ buffer → strlen buffer = length buffer.
Proof.
  induction buffer as [|c b IH]; [done|].
  intros [Hc Hb]%not_elem_of_cons. simpl.
  destruct (byte_eqb_spec c NUL); [congruence|]. by rewrite IH.
Qed.

Lemma strip_le buffer len : (strip buffer len ≤ len)%nat.
Proof.
  induction len as [|len IH]; simpl; [lia|].
  destruct (buffer !! len) as [c|]; [|lia].
  destruct (is_eol c); lia.
Qed.

(** Where the stripping loop stops: at [0], or after a byte that is
    neither newline nor carriage return. *)
Lemma strip_stops buffer len :
  (len ≤ length buffer)%nat →
  strip buffer len = 0%nat
  ∨ ∃ c, buffer !! pred (strip buffer len) = Some c ∧ is_eol c = false.
Proof.
  induction len as [|len IH]; intros Hlen; simpl; [by left|].
  destruct (lookup_lt_is_Some_2 buffer len) as [c Hc]; [lia|].
  rewrite Hc. destruct (is_eol c) eqn:Heol; [apply IH; lia|].
  right. exists c. done.
Qed.

Lemma strip_app buffer more len :
  (len ≤ length buffer)%nat → strip (buffer ++ more) len = strip buffer len.
Proof.
  induction len as [|len IH]; intros Hlen; simpl; [done|].
  rewrite lookup_app_l by lia.
  destruct (buffer !! len) as [c|]; [|done].
  destruct (is_eol c); [apply IH; lia|done].
Qed.

Lemma strip_trailing_eol line c :
  is_eol c = true → strip_trailing (line ++ [c]) = strip_trailing line.
Proof.
  intros Hc. induction line as [|d line IH]; simpl; [by rewrite Hc|].
  by rewrite IH.
Qed.

Lemma strip_trailing_other line c :
  is_eol c = false → strip_trailing (line ++ [c]) = line ++ [c].
Proof.
  intros Hc. induction line as [|d line IH]; simpl; [by rewrite Hc|].
  rewrite IH. by destruct line.
Qed.

(** The loop of the code and the stripping of the specification agree. *)
Lemma take_strip buffer :
  take (strip buffer (length buffer)) buffer = strip_trailing buffer.
Proof.
  induction buffer as [|c buffer IH] using rev_ind; [done|].
  rewrite length_app. simpl.
  replace (length buffer + 1)%nat with (S (length buffer)) by lia. simpl.
  rewrite lookup_app_r, Nat.sub_diag by lia. simpl.
  destruct (is_eol c) eqn:Hc.
  - rewrite strip_app by lia. rewrite take_app_le by apply strip_le.
    rewrite IH. by rewrite strip_trailing_eol.
  - rewrite strip_trailing_other by done.
    apply take_ge. rewrite length_app. simpl. lia.
Qed.

Lemma entry_no_NUL buffer : NUL ∉ buffer → entry buffer = strip_trailing buffer.
Proof.
  intros Hnul. unfold entry. rewrite strlen_no_NUL by done. apply take_strip.
Qed.

Lemma entry_nil_iff buffer :
  entry buffer = [] ↔ strip buffer (strlen buffer) = 0%nat.
Proof.
  unfold entry. pose proof (strip_le buffer (strlen buffer)).
  pose proof (strlen_le buffer).
  destruct (strip buffer (strlen buffer)) as [|m] eqn:Hm; [done|].
  split; [|done]. destruct buffer; simpl in *; [lia|done].
Qed.

Lemma length_entry buffer :
  length (entry buffer) = strip buffer (strlen buffer).
Proof.
  unfold entry. apply length_take_le.
  pose proof (strip_le buffer (strlen buffer)).
  pose proof (strlen_le buffer). lia.
Qed.

Lemma entry_clean room stream buffer rest :
  fgets_read room stream = (buffer, rest) →
  entry buffer ≠ [] → clean_entry (entry buffer).
Proof.
  intros Hread Hne. split; [done|].
  pose proof (strip_le buffer (strlen buffer)) as Hle.
  pose proof (strlen_le buffer) as Hlen.
  assert (∃ c, buffer !! pred (strip buffer (strlen buffer)) = Some c
               ∧ is_eol c = false) as (c & Hc & Heol).
  { destruct (strip_stops buffer (strlen buffer) Hlen) as [H0|?]; [|done].
    by apply entry_nil_iff in H0. }
  assert (strip buffer (strlen buffer) ≠ 0%nat) as Hpos
    by (by rewrite <-entry_nil_iff).
  split.
  - unfold entry. intros (k & Hk & Hkm)%elem_of_take.
    destruct (fgets_read_newline _ _ _ _ Hread)
      as [(text & -> & Htext)|[Hb _]].
    + destruct (decide (k < length text)%nat) as [Hlt|Hge].
      * rewrite lookup_app_l in Hk by done.
        by apply list_elem_of_lookup_2 in Hk.
      * rewrite length_app in Hlen. simpl in Hlen.
        replace (pred (strip (text ++ [LF]) (strlen (text ++ [LF]))))
          with (length text) in Hc by lia.
        rewrite lookup_app_r, Nat.sub_diag in Hc by lia.
        injection Hc as <-. done.
    + by apply list_elem_of_lookup_2 in Hk.
  - intros d Hd. rewrite last_lookup, length_entry in Hd.
    unfold entry in Hd. rewrite lookup_take_lt in Hd by lia.
    rewrite Hc in Hd. injection Hd as <-. by apply is_eol_false.
Qed.

(** *** One iteration *)

Lemma grow_inv alloc st fl :
  grow alloc st = Some fl →
  match fl with
  | Continue st' =>
      lines st' = lines st
      ∧ (capacity st' = capacity st ∨ capacity st' = capacity st * 2)
  | Return code st' => code = -2 ∧ st' = st
  end.
Proof.
  unfold grow. destruct (capacity st <=? count st).
  - destruct (int (capacity st * 2)) as [c|] eqn:Hc; [|done]. simpl.
    apply int_inv in Hc as [-> _].
    destruct (alloc (requests st)); intros [= <-]; simpl; by auto.
  - intros [= <-]. by auto.
Qed.

Lemma append_inv alloc text st fl :
  append alloc text st = Some fl →
  match fl with
  | Continue st' =>
      lines st' = lines st ++ [text] ∧ capacity st' = capacity st
  | Return code st' => code = -2 ∧ st' = st
  end.
Proof.
  unfold append. destruct (count st <? capacity st); [|done].
  destruct (alloc (requests st)); [|by intros [= <-]].
  destruct (int (count st + 1)); [|done]. simpl. by intros [= <-].
Qed.

Lemma grow_agree alloc1 alloc2 st st1 st2 :
  grow alloc1 st = Some (Continue st1) →
  grow alloc2 st = Some (Continue st2) → st1 = st2.
Proof.
  unfold grow. destruct (capacity st <=? count st); [|congruence].
  destruct (int (capacity st * 2)); [|done]. simpl.
  destruct (alloc1 (requests st)), (alloc2 (requests st)); congruence.
Qed.

Lemma append_agree alloc1 alloc2 text st st1 st2 :
  append alloc1 text st = Some (Continue st1) →
  append alloc2 text st = Some (Continue st2) → st1 = st2.
Proof.
  unfold append. destruct (count st <? capacity st); [|done].
  destruct (int (count st + 1)); simpl;
    destruct (alloc1 (requests st)), (alloc2 (requests st)); simpl;
    congruence.
Qed.

Lemma body_inv alloc buffer st fl :
  body alloc buffer st = Some fl →
  match fl with
  | Continue st' => lines st' = lines st ++ kept (entry buffer)
  | Return code st' => code = -2 ∧ lines st' = lines st
  end.
Proof.
  unfold body.
  destruct (Nat.eqb_spec (strip buffer (strlen buffer)) 0) as [H0|Hpos].
  { intros [= <-]. apply entry_nil_iff in H0. rewrite H0. simpl.
    by rewrite app_nil_r. }
  assert (kept (entry buffer) = [entry buffer]) as ->.
  { rewrite <-entry_nil_iff in Hpos. by destruct (entry buffer). }
  fold (entry buffer).
  destruct (grow alloc st) as [[st1|code1 st1]|] eqn:Hgrow; simpl; [| |done].
  - apply grow_inv in Hgrow as [Hlines _]. intros Happ.
    apply append_inv in Happ. destruct fl as [st2|code2 st2].
    + destruct Happ as [-> _]. by rewrite Hlines.
    + destruct Happ as [-> ->]. done.
  - apply grow_inv in Hgrow as [-> ->]. by intros [= <-].
Qed.

Lemma body_agree alloc1 alloc2 buffer st st1 st2 :
  body alloc1 buffer st = Some (Continue st1) →
  body alloc2 buffer st = Some (Continue st2) → st1 = st2.
Proof.
  unfold body.
  destruct (strip buffer (strlen buffer) =? 0)%nat; [congruence|].
  destruct (grow alloc1 st) as [[s1|c1 s1]|] eqn:Hg1; simpl; [|done|done].
  destruct (grow alloc2 st) as [[s2|c2 s2]|] eqn:Hg2; simpl; [|done|done].
  rewrite (grow_agree _ _ _ _ _ Hg1 Hg2). apply append_agree.
Qed.

(** With room for the cells in use and fewer than [2^30] of them, an
    iteration is defined: doubling the capacity cannot overflow. *)
Lemma body_defined alloc buffer st :
  sound st → count st < 2 ^ 30 →
  ∃ fl, body alloc buffer st = Some fl
        ∧ match fl with
          | Continue st' => sound st' ∧ count st' ≤ count st + 1
          | Return _ _ => True
          end.
Proof.
  intros [Hcap Hcount] Hsmall. unfold body.
  destruct (strip buffer (strlen buffer) =? 0)%nat.
  { eexists. split; [done|]. simpl. unfold sound. lia. }
  fold (entry buffer).
  assert (∃ fl, grow alloc st = Some fl
            ∧ match fl with
              | Continue st' =>
                  lines st' = lines st ∧ 0 < capacity st'
                  ∧ count st' < capacity st'
              | Return _ _ => True
              end) as (fl & -> & Hfl).
  { unfold grow. destruct (Z.leb_spec (capacity st) (count st)).
    - rewrite int_in_range by int_range. simpl.
      destruct (alloc (requests st)); eexists; (split; [done|]); [|done].
      simpl. split; [done|]. unfold count in *. simpl. lia.
    - eexists. split; [done|]. simpl. split; [done|]. lia. }
  simpl. destruct fl as [st1|code1 st1]; [|by eexists].
  destruct Hfl as (Hlines & Hcap1 & Hcount1).
  unfold append. destruct (Z.ltb_spec (count st1) (capacity st1)); [|lia].
  destruct (alloc (requests st1)); [|by eexists].
  assert (count st1 = count st) as Heq by (unfold count; by rewrite Hlines).
  assert (0 ≤ count st) as Hnonneg by (unfold count; lia).
  rewrite int_in_range by int_range. simpl.
  eexists. split; [done|]. unfold sound, count in *. simpl.
  rewrite length_app. simpl. lia.
Qed.

(** An iteration fails with [-2] only when a request is refused. *)
Lemma body_no_failure alloc buffer st code st' :
  (∀ k, alloc k = true) → body alloc buffer st ≠ Some (Return code st').
Proof.
  intros Halloc. unfold body.
  destruct (strip buffer (strlen buffer) =? 0)%nat; [done|].
  unfold grow. destruct (capacity st <=? count st).
  - destruct (int (capacity st * 2)); [|done]. simpl.
    rewrite Halloc. simpl. unfold append. simpl.
    destruct (_ <? _); [|done]. rewrite Halloc.
    by destruct (int _).
  - simpl. unfold append. destruct (_ <? _); [|done]. rewrite Halloc.
    by destruct (int _).
Qed.

(** Induction on the number of bytes left in the file. *)
Ltac by_bytes_left stream :=
  let n := fresh "n" in
  let Hn := fresh "Hn" in
  remember (length stream) as n eqn:Hn; revert stream Hn;
  induction n as [n IH] using lt_wf_ind; intros stream ->.

(** The loop, one iteration at a time. *)
Lemma read_loop_unfold alloc stream st :
  read_loop alloc stream st
  = match fgets MAX_LINE_LENGTH stream with
    | None => Some (0, st)
    | Some (buffer, rest) =>
        match body alloc buffer st with
        | None => None
        | Some (Return code st') => Some (code, st')
        | Some (Continue st') => read_loop alloc rest st'
        end
    end.
Proof.
  funelim (read_loop alloc stream st);
    try match goal with H : fgets _ _ = _ |- _ => rewrite H end;
    try match goal with H : body _ _ _ = _ |- _ => rewrite H end;
    done.
Qed.

(** *** The lines of a file *)

Lemma split_lines_app text rest :
  LF ∉ text → split_lines (text ++ rest) = join_first text (split_lines rest).
Proof.
  induction text as [|c text IH]; intros Htext.
  { simpl. by destruct (split_lines rest). }
  apply not_elem_of_cons in Htext as [Hc Htext]. simpl.
  destruct (byte_eqb_spec c LF); [congruence|].
  rewrite IH by done. unfold join_first.
  destruct (split_lines rest); [by destruct text|done].
Qed.

Lemma split_lines_LF rest : split_lines (LF :: rest) = [] :: split_lines rest.
Proof. reflexivity. Qed.

Lemma filter_nonempty_cons line ls :
  filter (λ l, nonempty l = true) (line :: ls)
  = kept line ++ filter (λ l, nonempty l = true) ls.
Proof.
  destruct line.
  - by rewrite filter_cons_False.
  - by rewrite filter_cons_True.
Qed.

Lemma spec_lines_newline text rest :
  LF ∉ text →
  spec_lines (text ++ LF :: rest)
  = kept (strip_trailing text) ++ spec_lines rest.
Proof.
  intros Htext. unfold spec_lines.
  rewrite split_lines_app, split_lines_LF by done.
  unfold join_first. rewrite app_nil_r, fmap_cons.
  apply filter_nonempty_cons.
Qed.

Lemma spec_lines_last text :
  LF ∉ text → spec_lines text = kept (strip_trailing text).
Proof.
  intros Htext. unfold spec_lines.
  rewrite <-(app_nil_r text) at 1. rewrite split_lines_app by done.
  simpl. destruct text; [done|].
  change (kept (b :: text)) with [b :: text]. rewrite fmap_cons.
  rewrite filter_nonempty_cons. by rewrite app_nil_r.
Qed.

Lemma spec_lines_blank rest : spec_lines (LF :: rest) = spec_lines rest.
Proof.
  unfold spec_lines. rewrite split_lines_LF, fmap_cons.
  by rewrite filter_nonempty_cons.
Qed.

(** One call of [fgets] on a file without NUL byte whose lines have at
    most 255 bytes: the loop body sees the next line of the file, or the
    newline left over from a line of exactly 255 bytes. *)
Lemma chunk_spec stream buffer rest :
  fgets MAX_LINE_LENGTH stream = Some (buffer, rest) →
  NUL ∉ stream →
  Forall (λ line, (length line ≤ 255)%nat) (split_lines stream) →
  spec_lines stream = kept (entry buffer) ++ spec_lines rest
  ∧ (NUL ∉ rest)
  ∧ Forall (λ line, (length line ≤ 255)%nat) (split_lines rest).
Proof.
  intros Hgets Hnul Hlines.
  apply fgets_Some in Hgets as (Hread & _ & Hbuf & _); [|done].
  pose proof (fgets_read_app _ _ _ _ Hread) as ->.
  apply not_elem_of_app in Hnul as [Hnulb Hnulr].
  rewrite entry_no_NUL by done. split; [|split; [done|]].
  - destruct (fgets_read_newline _ _ _ _ Hread)
      as [(text & -> & Htext)|[Hb Hfull]].
    + rewrite <-app_assoc. simpl. rewrite spec_lines_newline by done.
      by rewrite strip_trailing_eol.
    + destruct rest as [|c rest].
      { rewrite app_nil_r. rewrite spec_lines_last by done.
        by rewrite app_nil_r. }
      destruct Hfull as [?|Hfull]; [done|].
      destruct (byte_eqb_spec c LF) as [->|Hc].
      { by rewrite spec_lines_newline, spec_lines_blank. }
      exfalso. rewrite split_lines_app in Hlines by done.
      change (Z.to_nat (MAX_LINE_LENGTH - 1)) with 255%nat in Hfull.
      revert Hlines. cbn [split_lines].
      destruct (byte_eqb_spec c LF); [done|].
      destruct (split_lines rest); simpl;
        intros [Hlen _]%Forall_cons_1;
        rewrite length_app in Hlen; simpl in Hlen; lia.
  - destruct (fgets_read_newline _ _ _ _ Hread)
      as [(text & -> & Htext)|[Hb Hfull]].
    + rewrite <-app_assoc in Hlines. simpl in Hlines.
      rewrite split_lines_app, split_lines_LF in Hlines by done.
      simpl in Hlines. by apply Forall_cons_1 in Hlines as [_ ?].
    + rewrite split_lines_app in Hlines by done.
      destruct (split_lines rest) as [|line others]; [done|].
      simpl in Hlines. apply Forall_cons_1 in Hlines as [Hlen Hothers].
      constructor; [|done]. rewrite length_app in Hlen. lia.
Qed.

(** *** The whole loop *)

(** The loop is defined as long as fewer than [2^30] cells are in use: it
    returns [0], or [-2] after a refused request. *)
Lemma read_loop_defined alloc stream : ∀ st,
  sound st → count st + Z.of_nat (length stream) ≤ 2 ^ 30 →
  ∃ code st', read_loop alloc stream st = Some (code, st')
              ∧ (code = 0 ∨ code = -2)
              ∧ ((∀ k, alloc k = true) → code = 0).
Proof.
  by_bytes_left stream. intros st Hst Hsmall.
  rewrite read_loop_unfold.
  destruct (fgets MAX_LINE_LENGTH stream) as [[buffer rest]|] eqn:Hgets.
  2:{ exists 0, st. by auto. }
  apply fgets_Some in Hgets as (_ & _ & _ & Hlt); [|done].
  destruct (body_defined alloc buffer st Hst) as (fl & Hbody & Hfl); [lia|].
  rewrite Hbody. destruct fl as [st1|code st1].
  - destruct Hfl as [Hst1 Hcount1].
    apply (IH (length rest) Hlt rest eq_refl st1 Hst1). lia.
  - exists code, st1. split; [done|].
    pose proof (body_inv _ _ _ _ Hbody) as [-> _]. split; [by right|].
    intros Halloc. by destruct (body_no_failure alloc buffer st (-2) st1).
Qed.

(** What the loop adds to the array does not depend on the allocator. *)
Lemma read_loop_agree alloc1 alloc2 stream : ∀ st st1 st2,
  read_loop alloc1 stream st = Some (0, st1) →
  read_loop alloc2 stream st = Some (0, st2) → st1 = st2.
Proof.
  by_bytes_left stream. intros st st1 st2.
  rewrite !read_loop_unfold.
  destruct (fgets MAX_LINE_LENGTH stream) as [[buffer rest]|] eqn:Hgets;
    [|congruence].
  apply fgets_Some in Hgets as (_ & _ & _ & Hlt); [|done].
  destruct (body alloc1 buffer st) as [[s1|c1 s1]|] eqn:Hb1; [| |done].
  2:{ apply body_inv in Hb1 as [-> _]. done. }
  destruct (body alloc2 buffer st) as [[s2|c2 s2]|] eqn:Hb2; [| |done].
  2:{ apply body_inv in Hb2 as [-> _]. done. }
  rewrite (body_agree _ _ _ _ _ _ Hb1 Hb2).
  by apply (IH (length rest) Hlt rest eq_refl).
Qed.

(** Every string the loop adds is a clean entry. *)
Lemma read_loop_clean alloc stream : ∀ st code st',
  read_loop alloc stream st = Some (code, st') →
  Forall clean_entry (lines st) → Forall clean_entry (lines st').
Proof.
  by_bytes_left stream. intros st code st'.
  rewrite read_loop_unfold.
  destruct (fgets MAX_LINE_LENGTH stream) as [[buffer rest]|] eqn:Hgets;
    [|by intros [= <- <-]].
  apply fgets_Some in Hgets as (Hread & _ & _ & Hlt); [|done].
  destruct (body alloc buffer st) as [[s1|c1 s1]|] eqn:Hb; [| |done].
  - intros Hloop Hclean.
    apply (IH (length rest) Hlt rest eq_refl _ _ _ Hloop).
    apply body_inv in Hb. rewrite Hb. apply Forall_app. split; [done|].
    destruct (entry buffer) as [|c e] eqn:He; simpl; [done|].
    constructor; [|done]. rewrite <-He.
    apply (entry_clean _ _ _ _ Hread). by rewrite He.
  - intros [= <- <-]. apply body_inv in Hb as [_ ->]. done.
Qed.

(** On a file without NUL byte whose lines have at most 255 bytes, the
    loop adds the lines of the specification. *)
Lemma read_loop_spec alloc stream : ∀ st st',
  NUL ∉ stream →
  Forall (λ line, (length line ≤ 255)%nat) (split_lines stream) →
  read_loop alloc stream st = Some (0, st') →
  lines st' = lines st ++ spec_lines stream.
Proof.
  by_bytes_left stream. intros st st' Hnul Hlen.
  rewrite read_loop_unfold.
  destruct (fgets MAX_LINE_LENGTH stream) as [[buffer rest]|] eqn:Hgets.
  2:{ apply fgets_None in Hgets as ->. intros [= <-]. by rewrite app_nil_r. }
  destruct (chunk_spec _ _ _ Hgets Hnul Hlen) as (-> & Hnul' & Hlen').
  apply fgets_Some in Hgets as (_ & _ & _ & Hlt); [|done].
  destruct (body alloc buffer st) as [[s1|c1 s1]|] eqn:Hb; [| |done].
  - intros Hloop.
    rewrite (IH (length rest) Hlt rest eq_refl _ _ Hnul' Hlen' Hloop).
    apply body_inv in Hb. by rewrite Hb, app_assoc.
  - apply body_inv in Hb as [-> _]. done.
Qed.

Lemma body_count alloc buffer st fl :
  body alloc buffer st = Some fl → count st ≤ INT_MAX →
  match fl with
  | Continue st' => count st' ≤ INT_MAX
  | Return _ st' => count st' ≤ INT_MAX
  end.
Proof.
  unfold body. intros Hbody Hcount.
  destruct (strip buffer (strlen buffer) =? 0)%nat; [by simplify_eq|].
  destruct (grow alloc st) as [[st1|code1 st1]|] eqn:Hgrow; simpl in *;
    [| |done].
  - apply grow_inv in Hgrow as [Hlines _]. revert Hbody. unfold append.
    destruct (count st1 <? capacity st1); [|done].
    assert (count st1 = count st) as Heq by (unfold count; by rewrite Hlines).
    destruct (alloc (requests st1)); [|intros [= <-]; lia].
    destruct (int (count st1 + 1)) as [c|] eqn:Hc; [|done].
    apply int_inv in Hc as [_ Hc]. simpl. intros [= <-].
    unfold count in *. simpl. rewrite length_app. simpl. lia.
  - apply grow_inv in Hgrow as [_ ->]. by simplify_eq.
Qed.

Lemma read_loop_count alloc stream : ∀ st code st',
  read_loop alloc stream st = Some (code, st') →
  count st ≤ INT_MAX → count st' ≤ INT_MAX ∧ (code = 0 ∨ code = -2).
Proof.
  by_bytes_left stream. intros st code st'.
  rewrite read_loop_unfold.
  destruct (fgets MAX_LINE_LENGTH stream) as [[buffer rest]|] eqn:Hgets;
    [|intros [= <- <-]; by auto].
  apply fgets_Some in Hgets as (_ & _ & _ & Hlt); [|done].
  destruct (body alloc buffer st) as [[s1|c1 s1]|] eqn:Hb; [| |done].
  - intros Hloop Hcount.
    apply (IH (length rest) Hlt rest eq_refl _ _ _ Hloop).
    by apply (body_count _ _ _ _ Hb).
  - intros [= <- <-] Hcount. split; [by apply (body_count _ _ _ _ Hb)|].
    apply body_inv in Hb as [-> _]. by right.
Qed.

(** The three return values of [read_lines], and the number of entries,
    which fits an [int]. *)
Lemma read_lines_codes alloc file code ls :
  read_lines alloc file = Some (code, ls) →
  Z.of_nat (length ls) ≤ INT_MAX
  ∧ ((code = -1 ∧ file = None ∧ ls = [])
     ∨ (code = -2 ∧ file ≠ None)
     ∨ (code = 0 ∧ file ≠ None)).
Proof.
  unfold read_lines. destruct file as [contents|].
  2:{ intros [= <- <-]. split; [done|]. by left. }
  destruct (alloc 0%nat).
  2:{ intros [= <- <-]. split; [done|]. right. by left. }
  destruct (read_loop alloc contents (State [] INITIAL_CAPACITY 1))
    as [[c st]|] eqn:Hloop; [|done].
  simpl. intros [= <- <-].
  apply read_loop_count in Hloop as [Hcount Hcode]; [|done].
  split; [done|]. destruct Hcode as [->| ->]; [right; by right|right; by left].
Qed.

Lemma read_lines_defined alloc contents :
  Z.of_nat (length contents) ≤ 2 ^ 30 →
  ∃ code ls, read_lines alloc (Some contents) = Some (code, ls)
             ∧ ((∀ k, alloc k = true) → code = 0).
Proof.
  intros Hsmall. unfold read_lines. destruct (alloc 0%nat) eqn:H0.
  2:{ exists (-2), []. split; [done|]. intros Halloc.
      by rewrite Halloc in H0. }
  destruct (read_loop_defined alloc contents (State [] INITIAL_CAPACITY 1))
    as (code & st' & -> & _ & Hcode); [by unfold sound|done|].
  by exists code, (lines st').
Qed.

(** *** The statements of the specification about the loader *)

(** C3 (as the code has it). For a file without NUL byte whose lines have
    at most 255 bytes before their newline, a successful load returns
    exactly the lines of the file, in order and with duplicates, each
    without its trailing newline and carriage-return characters, the
    lines that are empty then left out; and the load succeeds when no
    allocation is refused (the file being under [2^30] bytes). *)
Theorem read_lines_short_lines alloc contents :
  NUL ∉ contents →
  Forall (λ line, (length line ≤ 255)%nat) (split_lines contents) →
  (∀ ls, read_lines alloc (Some contents) = Some (0, ls) →
         ls = spec_lines contents)
  ∧ ((∀ k, alloc k = true) → Z.of_nat (length contents) ≤ 2 ^ 30 →
     read_lines alloc (Some contents) = Some (0, spec_lines contents)).
Proof.
  intros Hnul Hlen.
  assert (∀ ls, read_lines alloc (Some contents) = Some (0, ls) →
                ls = spec_lines contents) as Hspec.
  { intros ls. unfold read_lines. destruct (alloc 0%nat); [|done].
    destruct (read_loop alloc contents (State [] INITIAL_CAPACITY 1))
      as [[code st]|] eqn:Hloop; [|done].
    simpl. intros [= -> <-].
    by rewrite (read_loop_spec _ _ _ _ Hnul Hlen Hloop). }
  split; [done|]. intros Halloc Hsmall.
  destruct (read_lines_defined alloc contents Hsmall)
    as (code & ls & Hread & Hcode).
  rewrite (Hcode Halloc) in Hread. by rewrite <-(Hspec ls Hread).
Qed.

(** C5 (as the code has it). Every entry the loader produces, whatever it
    returns, is non-empty, holds no newline, and does not end with a
    carriage return. *)
Theorem entries_clean alloc file code ls :
  read_lines alloc file = Some (code, ls) → Forall clean_entry ls.
Proof.
  unfold read_lines. destruct file as [contents|]; [|by intros [= <- <-]].
  destruct (alloc 0%nat); [|by intros [= <- <-]].
  destruct (read_loop alloc contents (State [] INITIAL_CAPACITY 1))
    as [[c st]|] eqn:Hloop; [|done].
  simpl. intros [= <- <-]. by apply (read_loop_clean _ _ _ _ _ Hloop).
Qed.

(** C8. Two successful runs of the loader on the same file contents give
    the same participants in the same order, whatever the allocator did
    in each run. *)
Theorem loading_deterministic alloc1 alloc2 contents ls1 ls2 :
  read_lines alloc1 (Some contents) = Some (0, ls1) →
  read_lines alloc2 (Some contents) = Some (0, ls2) →
  ls1 = ls2.
Proof.
  unfold read_lines.
  destruct (alloc1 0%nat); [|done]. destruct (alloc2 0%nat); [|done].
  destruct (read_loop alloc1 contents (State [] INITIAL_CAPACITY 1))
    as [[c1 st1]|] eqn:Hloop1; [|done].
  destruct (read_loop alloc2 contents (State [] INITIAL_CAPACITY 1))
    as [[c2 st2]|] eqn:Hloop2; [|done].
  simpl. intros [= -> <-] [= -> <-].
  by rewrite (read_loop_agree _ _ _ _ _ _ Hloop1 Hloop2).
Qed.

(** C3, as it is stated, fails: a line of 256 letters comes back as two
    entries, of 255 letters and of one, where the specification has one
    entry for the line. *)
Lemma long_line_split :
  read_lines Samples.generous (Some Samples.long_line_file)
  = Some (0, [repeat "a"%byte 255; ["a"%byte]])
  ∧ spec_lines Samples.long_line_file = [repeat "a"%byte 256]
  ∧ read_lines Samples.generous (Some Samples.long_line_file)
    ≠ Some (0, spec_lines Samples.long_line_file).
Proof.
  split; [vm_compute; reflexivity|]. split; [vm_compute; reflexivity|].
  vm_compute. discriminate.
Qed.

(** C5, as it is stated, fails: the carriage return inside the line
    [ann\rbob] stays in its entry. *)
Lemma carriage_return_kept :
  read_lines Samples.generous (Some Samples.inner_cr_file)
  = Some (0, [bytes "ann" ++ [CR] ++ bytes "bob"])
  ∧ ¬ Forall no_line_terminator [bytes "ann" ++ [CR] ++ bytes "bob"].
Proof.
  split; [vm_compute; reflexivity|].
  intros [(_ & _ & Hcr) _]%Forall_cons_1. apply Hcr.
  by apply (bool_decide_unpack _).
Qed.

(** *** The statements on sample inputs *)

Lemma read_lines_short_lines_sample :
  (NUL ∉ Samples.blank_line_file)
  ∧ Forall (λ line, (length line ≤ 255)%nat)
      (split_lines Samples.blank_line_file)
  ∧ read_lines Samples.generous (Some Samples.blank_line_file)
    = Some (0, [bytes "alice"; bytes "bob"]).
Proof.
  assert (NUL ∉ Samples.blank_line_file) as Hnul
    by (by apply (bool_decide_unpack _)).
  assert (Forall (λ line, (length line ≤ 255)%nat)
            (split_lines Samples.blank_line_file)) as Hlen
    by (by apply (bool_decide_unpack _)).
  split; [done|]. split; [done|].
  destruct (read_lines_short_lines Samples.generous
              Samples.blank_line_file Hnul Hlen) as [_ Hload].
  apply Hload; [done|]. vm_compute. discriminate.
Defined.

Lemma entries_clean_sample :
  read_lines Samples.generous (Some Samples.inner_cr_file)
  = Some (0, [bytes "ann" ++ [CR] ++ bytes "bob"])
  ∧ Forall clean_entry [bytes "ann" ++ [CR] ++ bytes "bob"].
Proof.
  assert (read_lines Samples.generous (Some Samples.inner_cr_file)
          = Some (0, [bytes "ann" ++ [CR] ++ bytes "bob"])) as Hload
    by (vm_compute; reflexivity).
  split; [done|].
  exact (entries_clean Samples.generous (Some Samples.inner_cr_file) 0
           [bytes "ann" ++ [CR] ++ bytes "bob"] Hload).
Defined.

Lemma loading_deterministic_sample :
  read_lines Samples.generous (Some Samples.blank_line_file)
  = Some (0, [bytes "alice"; bytes "bob"])
  ∧ read_lines Samples.thrifty (Some Samples.blank_line_file)
    = Some (0, spec_lines Samples.blank_line_file)
  ∧ [bytes "alice"; bytes "bob"] = spec_lines Samples.blank_line_file.
Proof.
  assert (read_lines Samples.generous (Some Samples.blank_line_file)
          = Some (0, [bytes "alice"; bytes "bob"])) as Hgenerous
    by (vm_compute; reflexivity).
  assert (read_lines Samples.thrifty (Some Samples.blank_line_file)
          = Some (0, spec_lines Samples.blank_line_file)) as Hthrifty
    by (vm_compute; reflexivity).
  split; [done|]. split; [done|].
  exact (loading_deterministic Samples.generous Samples.thrifty
           Samples.blank_line_file _ _ Hgenerous Hthrifty).
Defined.

End LoaderFacts.

(** * Properties of the command line *)

Module CliFacts.
Import Sampler Loader Cli SamplerFacts LoaderFacts.

Lemma print_winners_defined todo : ∀ (lines : list (list byte)) i,
  0 ≤ i → i + Z.of_nat todo ≤ Z.of_nat (length lines) →
  Z.of_nat (length lines) ≤ INT_MAX →
  print_winners todo lines i
  = Some (imap (λ k name, winner_line (i + Z.of_nat k + 1) name)
            (take todo (drop (Z.to_nat i) lines))).
Proof.
  induction todo as [|todo IH]; intros lines i Hi Hlen Hmax; [done|].
  cbn [print_winners]. rewrite load_in_range by done.
  destruct (lookup_lt_is_Some_2 lines (Z.to_nat i)) as [name Hname]; [lia|].
  rewrite Hname. simpl.
  rewrite int_in_range by int_range. simpl.
  rewrite IH by lia. simpl. rewrite (drop_S _ _ _ Hname). simpl.
  rewrite Z.add_0_r. do 2 f_equal.
  replace (Z.to_nat (i + 1)) with (S (Z.to_nat i)) by lia.
  apply imap_ext. intros k x _. simpl. f_equal. lia.
Qed.

(** *** [atoi] *)

Lemma digit_not_space_nor_sign c :
  is_Some (digit_value c) →
  isspace c = false ∧ Byte.eqb c "-"%byte = false
  ∧ Byte.eqb c "+"%byte = false.
Proof.
  unfold digit_value, isspace. intros [d Hd].
  destruct (Z.leb_spec 48 (Z.of_N (Byte.to_N c))) as [Hlo|]; [|done].
  destruct (Z.leb_spec (Z.of_N (Byte.to_N c)) 57) as [Hhi|]; [|done].
  split; [|split].
  - destruct (Z.eqb_spec (Z.of_N (Byte.to_N c)) 32); [lia|].
    destruct (Z.leb_spec (Z.of_N (Byte.to_N c)) 13); [lia|].
    by rewrite andb_false_r.
  - destruct (LoaderFacts.byte_eqb_spec c "-"%byte) as [->|]; [|done].
    vm_compute in Hlo. done.
  - destruct (LoaderFacts.byte_eqb_spec c "+"%byte) as [->|]; [|done].
    vm_compute in Hlo. done.
Qed.

Lemma digits_prefix ds junk : ∀ acc,
  all_digits ds → no_digit_first junk →
  digits acc (ds ++ junk) = digits acc ds.
Proof.
  induction ds as [|d ds IH]; intros acc Hds Hjunk.
  { destruct junk as [|c junk]; [done|]. simpl in *. by rewrite Hjunk. }
  apply Forall_cons_1 in Hds as [[v Hv] Hds]. simpl. rewrite Hv.
  by apply IH.
Qed.

Lemma atoi_plain_start s : plain_start s → atoi s = Some 0.
Proof.
  destruct s as [|c s]; [done|]. intros (Hsp & Hminus & Hplus & Hdigit).
  unfold atoi. simpl. rewrite Hsp.
  destruct (LoaderFacts.byte_eqb_spec c "-"%byte); [done|].
  destruct (LoaderFacts.byte_eqb_spec c "+"%byte); [done|].
  simpl. by rewrite Hdigit.
Qed.

Lemma atoi_digits ds junk :
  ds ≠ [] → all_digits ds → no_digit_first junk →
  atoi (ds ++ junk) = int (digits 0 ds).
Proof.
  intros Hne Hds Hjunk. destruct ds as [|d ds]; [done|].
  pose proof Hds as [Hd _]%Forall_cons_1.
  apply digit_not_space_nor_sign in Hd as (Hsp & Hminus & Hplus).
  unfold atoi. cbn [app skip_spaces]. rewrite Hsp, Hminus, Hplus.
  f_equal. by apply (digits_prefix (d :: ds) junk 0).
Qed.

Lemma skip_spaces_app ws s :
  Forall (λ c, isspace c = true) ws → skip_spaces (ws ++ s) = skip_spaces s.
Proof.
  induction ws as [|c ws IH]; intros Hws; [done|].
  apply Forall_cons_1 in Hws as [Hc Hws]. simpl. rewrite Hc. by apply IH.
Qed.

Lemma atoi_skip_spaces ws s :
  Forall (λ c, isspace c = true) ws → atoi (ws ++ s) = atoi s.
Proof.
  intros Hws. unfold atoi. rewrite skip_spaces_app by done.
  destruct s as [|c s]; [done|]. simpl.
  destruct (isspace c) eqn:Hc; [|done].
  by rewrite <-(skip_spaces_app [c] s) by (by constructor).
Qed.

Lemma digits_nonneg s : ∀ acc, 0 ≤ acc → 0 ≤ digits acc s.
Proof.
  induction s as [|c s IH]; intros acc Hacc; [done|]. simpl.
  destruct (digit_value c) as [d|] eqn:Hd; [|done]. apply IH.
  revert Hd. unfold digit_value.
  destruct (Z.leb_spec 48 (Z.of_N (Byte.to_N c))); [|done].
  destruct (_ <=? 57); [|done]. intros [= <-]. lia.
Qed.

Lemma atoi_signed ds :
  atoi ("+"%byte :: ds) = int (digits 0 ds)
  ∧ atoi ("-"%byte :: ds) = int (- digits 0 ds).
Proof. done. Qed.

(** *** [%d] and [atoi] *)

Lemma digits_of_uint_acc u : ∀ p,
  digits (Z.pos p) (bytes (NilEmpty.string_of_uint u))
  = Z.pos (Pos.of_uint_acc u p).
Proof.
  induction u as [|u IH|u IH|u IH|u IH|u IH|u IH|u IH|u IH|u IH|u IH];
    intros p; [done|..]; cbn; rewrite <-IH; f_equal; lia.
Qed.

Lemma digits_of_uint u :
  digits 0 (bytes (NilEmpty.string_of_uint u)) = Z.of_N (Pos.of_uint u).
Proof.
  induction u as [|u IH|u IH|u IH|u IH|u IH|u IH|u IH|u IH|u IH|u IH];
    [done|exact IH|..]; cbn; apply digits_of_uint_acc.
Qed.

Lemma all_digits_of_uint u : all_digits (bytes (NilEmpty.string_of_uint u)).
Proof.
  induction u as [|u IH|u IH|u IH|u IH|u IH|u IH|u IH|u IH|u IH|u IH];
    [constructor|..]; (constructor; [by eexists|exact IH]).
Qed.

Lemma digits_to_uint p :
  digits 0 (bytes (NilZero.string_of_uint (Pos.to_uint p))) = Z.pos p
  ∧ all_digits (bytes (NilZero.string_of_uint (Pos.to_uint p)))
  ∧ bytes (NilZero.string_of_uint (Pos.to_uint p)) ≠ [].
Proof.
  pose proof (Unsigned.to_uint_nonnil p) as Hnil.
  pose proof (Unsigned.of_to p) as Hof.
  assert (NilZero.string_of_uint (Pos.to_uint p)
          = NilEmpty.string_of_uint (Pos.to_uint p)) as ->
    by (by destruct (Pos.to_uint p)).
  split; [by rewrite digits_of_uint, Hof|].
  split; [apply all_digits_of_uint|]. by destruct (Pos.to_uint p).
Qed.

(** *** The parts of an argument *)

Lemma digits_no_digit junk acc : no_digit_first junk → digits acc junk = acc.
Proof. intros Hjunk. exact (digits_prefix [] junk acc (Forall_nil_2 _) Hjunk). Qed.

Lemma digits_split s :
  ∃ ds junk, s = ds ++ junk ∧ all_digits ds ∧ no_digit_first junk.
Proof.
  induction s as [|c s (ds & junk & -> & Hds & Hjunk)].
  { exists [], []. split; [done|]. split; [constructor|done]. }
  destruct (digit_value c) as [d|] eqn:Hc.
  - exists (c :: ds), junk. split; [done|]. split; [|done].
    constructor; [by exists d|done].
  - exists [], (c :: ds ++ junk). split; [done|]. split; [constructor|done].
Qed.

Lemma spaces_split s :
  ∃ ws rest, s = ws ++ rest ∧ Forall (λ c, isspace c = true) ws
             ∧ match rest with [] => True | c :: _ => isspace c = false end.
Proof.
  induction s as [|c s (ws & rest & -> & Hws & Hrest)].
  { exists [], []. split; [done|]. split; [constructor|done]. }
  destruct (isspace c) eqn:Hc.
  - exists (c :: ws), rest. split; [done|]. split; [by constructor|done].
  - exists [], (c :: ws ++ rest). split; [done|]. split; [constructor|done].
Qed.

(** *** The branches of [main] *)

Lemma main_two_arguments env prog file arg :
  main env prog [file; arg]
  = num_winners ← atoi arg;
    if num_winners <=? 0 then Some (1, [error_winner_count])
    else
      '(result, lines) ← read_lines (heap env) (files env file);
      let line_count := Z.of_nat (length lines) in
      if result =? -1 then Some (1, [error_open file])
      else if result =? -2 then Some (1, [error_memory])
      else if line_count =? 0 then Some (1, [error_empty file])
      else if line_count <? num_winners
      then Some (1, error_too_many num_winners line_count)
      else
        shuffled ← shuffle lines line_count
                     (generator env (clock env mod 2 ^ 32));
        winners ← print_winners (Z.to_nat num_winners) shuffled 0;
        Some (0, (if DEBUG env
                  then debug_dump lines line_count
                         ++ debug_dump lines line_count
                  else [])
                 ++ [header num_winners line_count] ++ winners
                 ++ [(stdout, [LF])]).
Proof. reflexivity. Qed.

Lemma main_other_arguments env prog args :
  length args ≠ 2%nat → main env prog args = Some (1, print_usage prog).
Proof. by destruct args as [|file [|arg [|more args]]]. Qed.

(** The last branch: the shuffle and the printing loop are defined. *)
Lemma main_draw env prog file arg N ls :
  atoi arg = Some N → 0 < N →
  read_lines (heap env) (files env file) = Some (0, ls) →
  N ≤ Z.of_nat (length ls) →
  draws_within INT_MAX (generator env (clock env mod 2 ^ 32)) →
  ∃ shuffled,
    shuffle ls (Z.of_nat (length ls)) (generator env (clock env mod 2 ^ 32))
      = Some shuffled
    ∧ main env prog [file; arg] = Some (0, success_output env N ls shuffled).
Proof.
  intros Hatoi HN Hread HNL Hg.
  apply LoaderFacts.read_lines_codes in Hread as Hcodes.
  destruct Hcodes as [Hmax _].
  destruct (shuffle_defined ls (Z.of_nat (length ls)) _ ltac:(lia)
              ltac:(lia) Hg) as [Hshuffle _].
  eexists. split; [exact Hshuffle|].
  rewrite main_two_arguments, Hatoi. cbn [mbind option_bind].
  destruct (Z.leb_spec N 0); [lia|]. rewrite Hread. cbn [mbind option_bind].
  change (0 =? -1) with false. change (0 =? -2) with false. cbv iota.
  destruct (Z.eqb_spec (Z.of_nat (length ls)) 0); [lia|].
  destruct (Z.ltb_spec (Z.of_nat (length ls)) N); [lia|].
  rewrite Hshuffle. cbn [mbind option_bind].
  rewrite print_winners_defined
    by (rewrite ?length_apply_swaps; lia).
  cbn [mbind option_bind]. unfold success_output. by rewrite drop_0.
Qed.

(** Every way [main] can end. *)
Lemma main_inv env prog args code out :
  main env prog args = Some (code, out) →
  (length args ≠ 2%nat ∧ code = 1 ∧ out = print_usage prog)
  ∨ ∃ file arg N,
      args = [file; arg] ∧ atoi arg = Some N
      ∧ ((N ≤ 0 ∧ code = 1 ∧ out = [error_winner_count])
         ∨ (0 < N ∧ ∃ result ls,
              read_lines (heap env) (files env file) = Some (result, ls)
              ∧ ((result = -1 ∧ files env file = None
                  ∧ code = 1 ∧ out = [error_open file])
                 ∨ (result = -2 ∧ code = 1 ∧ out = [error_memory])
                 ∨ (result = 0 ∧ ls = []
                    ∧ code = 1 ∧ out = [error_empty file])
                 ∨ (result = 0 ∧ ls ≠ [] ∧ Z.of_nat (length ls) < N
                    ∧ code = 1
                    ∧ out = error_too_many N (Z.of_nat (length ls)))
                 ∨ (result = 0 ∧ ls ≠ [] ∧ N ≤ Z.of_nat (length ls)
                    ∧ code = 0
                    ∧ ∃ shuffled,
                        shuffle ls (Z.of_nat (length ls))
                          (generator env (clock env mod 2 ^ 32))
                          = Some shuffled
                        ∧ length shuffled = length ls
                        ∧ out = success_output env N ls shuffled)))).
Proof.
  destruct (decide (length args = 2%nat)) as [Hlen|Hlen].
  2:{ rewrite main_other_arguments by done. intros [= <- <-]. by left. }
  destruct args as [|file [|arg [|more args]]]; try done. clear Hlen.
  rewrite main_two_arguments. intros Hmain. right. exists file, arg.
  destruct (atoi arg) as [N|] eqn:Hatoi; [|done]. simpl in Hmain.
  exists N. split; [done|]. split; [done|].
  destruct (Z.leb_spec N 0) as [HN|HN].
  { injection Hmain as <- <-. left. done. }
  right. split; [done|].
  destruct (read_lines (heap env) (files env file)) as [[result ls]|]
    eqn:Hread; [|done].
  simpl in Hmain. exists result, ls. split; [done|].
  apply LoaderFacts.read_lines_codes in Hread as Hcodes.
  destruct Hcodes as [Hmax [(-> & Hfile & ->)|[(-> & Hfile)|(-> & Hfile)]]].
  - injection Hmain as <- <-. left. done.
  - injection Hmain as <- <-. right. left. done.
  - simpl in Hmain. do 2 right.
    destruct (Z.eqb_spec (Z.of_nat (length ls)) 0) as [H0|H0].
    { injection Hmain as <- <-. left. by destruct ls. }
    assert (ls ≠ []) as Hne by (by intros ->).
    destruct (Z.ltb_spec (Z.of_nat (length ls)) N) as [Hlt|Hge].
    { injection Hmain as <- <-. right. left. done. }
    do 2 right.
    destruct (shuffle ls _ _) as [shuffled|] eqn:Hshuffle; [|done].
    simpl in Hmain.
    pose proof (shuffle_length _ _ _ _ Hshuffle) as Hlen.
    rewrite print_winners_defined in Hmain by lia.
    cbn [mbind option_bind] in Hmain. injection Hmain as <- <-.
    split; [done|]. split; [done|]. split; [done|]. split; [done|].
    exists shuffled. split; [done|]. split; [done|].
    unfold success_output. by rewrite drop_0.
Qed.


(** *** The statements of the specification about the command line *)

(** C4 (as the code has it). For a winner count that [atoi] reads, one
    that fits an [int]: the exit status is [1] in each of the six error
    cases (wrong number of arguments, with the usage text; winner count
    not positive; file that cannot be opened; allocation failure; no
    usable line; more winners asked than participants), it is [0] when
    none of them holds, and then the winners are printed on the standard
    output; a run ends with status [0] or [1], and with [0] only in that
    last case. *)
Theorem exit_codes env prog args :
  let g := generator env (clock env mod 2 ^ 32) in
  let loaded file := read_lines (heap env) (files env file) in
  (length args ≠ 2%nat → main env prog args = Some (1, print_usage prog))
  ∧ (∀ file arg N, args = [file; arg] → atoi arg = Some N →
      (N ≤ 0 → main env prog args = Some (1, [error_winner_count]))
      ∧ (0 < N → files env file = None →
         main env prog args = Some (1, [error_open file]))
      ∧ (0 < N → ∀ ls, loaded file = Some (-2, ls) →
         main env prog args = Some (1, [error_memory]))
      ∧ (0 < N → loaded file = Some (0, []) →
         main env prog args = Some (1, [error_empty file]))
      ∧ (0 < N → ∀ ls, loaded file = Some (0, ls) → ls ≠ [] →
         Z.of_nat (length ls) < N →
         main env prog args
         = Some (1, error_too_many N (Z.of_nat (length ls))))
      ∧ (0 < N → ∀ ls, loaded file = Some (0, ls) → ls ≠ [] →
         N ≤ Z.of_nat (length ls) → draws_within INT_MAX g →
         ∃ shuffled,
           shuffle ls (Z.of_nat (length ls)) g = Some shuffled
           ∧ main env prog args
             = Some (0, success_output env N ls shuffled)))
  ∧ (∀ code out, main env prog args = Some (code, out) →
      (code = 0 ∨ code = 1)
      ∧ (code = 0 →
         ∃ file arg N ls shuffled,
           args = [file; arg] ∧ atoi arg = Some N ∧ 0 < N
           ∧ loaded file = Some (0, ls) ∧ ls ≠ []
           ∧ N ≤ Z.of_nat (length ls)
           ∧ shuffle ls (Z.of_nat (length ls)) g = Some shuffled
           ∧ out = success_output env N ls shuffled))
  ∧ (∀ file arg N, args = [file; arg] → atoi arg = Some N →
      (∀ contents, files env file = Some contents →
                   Z.of_nat (length contents) ≤ 2 ^ 30) →
      draws_within INT_MAX g →
      is_Some (main env prog args)).
Proof.
  intros g loaded. split; [apply main_other_arguments|]. split; [|split].
  - intros file arg N -> Hatoi. rewrite main_two_arguments, Hatoi.
    cbn [mbind option_bind]. unfold loaded.
    split; [|split; [|split; [|split; [|split]]]].
    + intros HN. by destruct (Z.leb_spec N 0); [|lia].
    + intros HN Hfile. destruct (Z.leb_spec N 0); [lia|]. by rewrite Hfile.
    + intros HN ls Hread. destruct (Z.leb_spec N 0); [lia|]. by rewrite Hread.
    + intros HN Hread. destruct (Z.leb_spec N 0); [lia|]. by rewrite Hread.
    + intros HN ls Hread Hne Hlt. destruct (Z.leb_spec N 0); [lia|].
      rewrite Hread. cbn [mbind option_bind].
      change (0 =? -1) with false. change (0 =? -2) with false. cbv iota.
      destruct (Z.eqb_spec (Z.of_nat (length ls)) 0) as [H0|_].
      { by destruct ls. }
      by destruct (Z.ltb_spec (Z.of_nat (length ls)) N); [|lia].
    + intros HN ls Hread Hne Hge Hg.
      destruct (main_draw env prog file arg N ls Hatoi HN Hread Hge Hg)
        as (shuffled & Hshuffle & Hmain).
      exists shuffled. split; [done|].
      rewrite main_two_arguments, Hatoi in Hmain. done.
  - intros code out Hmain. apply main_inv in Hmain.
    destruct Hmain as [(_ & -> & _)|(file & arg & N & -> & Hatoi & Hmain)].
    { split; [by right|done]. }
    destruct Hmain as [(_ & -> & _)|(HN & result & ls & Hread & Hmain)].
    { split; [by right|done]. }
    destruct Hmain as [(_ & _ & -> & _)|[(_ & -> & _)|[(_ & _ & -> & _)|
      [(_ & _ & _ & -> & _)|(-> & Hne & Hge & -> & shuffled & Hsh & _ & ->)]]]];
      try (split; [by right|done]).
    split; [by left|]. intros _.
    by exists file, arg, N, ls, shuffled.
  - intros file arg N -> Hatoi Hsize Hg.
    destruct (Z.le_gt_cases N 0) as [HN|HN].
    { rewrite main_two_arguments, Hatoi. cbn [mbind option_bind].
      by destruct (Z.leb_spec N 0); [|lia]. }
    assert (∃ code ls, read_lines (heap env) (files env file)
                       = Some (code, ls)) as (code & ls & Hread).
    { destruct (files env file) as [contents|] eqn:Hfile; [|by eexists _, _].
      destruct (LoaderFacts.read_lines_defined (heap env) contents)
        as (code & ls & Hread & _); [by apply Hsize|]. by eexists _, _. }
    apply LoaderFacts.read_lines_codes in Hread as Hcodes.
    destruct Hcodes as [_ [(-> & _ & ->)|[(-> & _)|(-> & _)]]].
    + rewrite main_two_arguments, Hatoi. cbn [mbind option_bind].
      destruct (Z.leb_spec N 0); [lia|]. by rewrite Hread.
    + rewrite main_two_arguments, Hatoi. cbn [mbind option_bind].
      destruct (Z.leb_spec N 0); [lia|]. by rewrite Hread.
    + destruct (Z.le_gt_cases N (Z.of_nat (length ls))) as [Hge|Hlt].
      { destruct (main_draw env prog file arg N ls Hatoi) as (? & _ & ->);
          done. }
      rewrite main_two_arguments, Hatoi. cbn [mbind option_bind].
      destruct (Z.leb_spec N 0); [lia|]. rewrite Hread.
      cbn [mbind option_bind].
      change (0 =? -1) with false. change (0 =? -2) with false. cbv iota.
      destruct (Z.of_nat (length ls) =? 0); [done|].
      by destruct (Z.ltb_spec (Z.of_nat (length ls)) N); [|lia].
Qed.


(** C10 (as the code has it). The winner count goes through [atoi].  An
    argument with no number to read (after white space and a sign, if
    any, comes no digit: [abc], [-abc], [ abc]) reads as [0] and is
    refused as a non-positive count.  An argument with a number followed
    by something else ([3abc], [ 3abc], [+3abc]) reads as the number its
    digits spell, with its sign, when that number fits an [int], and the
    run is the one for the number alone.  Every argument is of one of
    these two kinds.  In particular an [int] written in decimal, as [%d]
    writes it, and followed by something that is no digit reads as that
    [int]. *)
Theorem atoi_winner_count env prog file :
  (∀ ws junk,
     Forall (λ c, isspace c = true) ws →
     plain_start junk
     ∨ (∃ rest, (junk = "-"%byte :: rest ∨ junk = "+"%byte :: rest)
                ∧ no_digit_first rest) →
     atoi (ws ++ junk) = Some 0
     ∧ main env prog [file; ws ++ junk] = Some (1, [error_winner_count]))
  ∧ (∀ ws sign ds junk,
     Forall (λ c, isspace c = true) ws →
     sign = [] ∨ sign = ["+"%byte] ∨ sign = ["-"%byte] →
     ds ≠ [] → all_digits ds → no_digit_first junk →
     let value := if decide (sign = ["-"%byte])
                  then - digits 0 ds else digits 0 ds in
     atoi (ws ++ sign ++ ds ++ junk) = int value
     ∧ (INT_MIN ≤ value ≤ INT_MAX →
        atoi (ws ++ sign ++ ds ++ junk) = Some value)
     ∧ atoi (ws ++ sign ++ ds ++ junk) = atoi (sign ++ ds)
     ∧ main env prog [file; ws ++ sign ++ ds ++ junk]
       = main env prog [file; sign ++ ds])
  ∧ (∀ s,
     (∃ ws junk,
        s = ws ++ junk ∧ Forall (λ c, isspace c = true) ws
        ∧ (plain_start junk
           ∨ (∃ rest, (junk = "-"%byte :: rest ∨ junk = "+"%byte :: rest)
                      ∧ no_digit_first rest)))
     ∨ (∃ ws sign ds junk,
        s = ws ++ sign ++ ds ++ junk ∧ Forall (λ c, isspace c = true) ws
        ∧ (sign = [] ∨ sign = ["+"%byte] ∨ sign = ["-"%byte])
        ∧ ds ≠ [] ∧ all_digits ds ∧ no_digit_first junk))
  ∧ (∀ ws z junk,
     Forall (λ c, isspace c = true) ws → INT_MIN ≤ z ≤ INT_MAX →
     no_digit_first junk →
     atoi (ws ++ decimal z ++ junk) = Some z
     ∧ main env prog [file; ws ++ decimal z ++ junk]
       = main env prog [file; decimal z])
  ∧ atoi (bytes "abc") = Some 0
  ∧ atoi (bytes "3abc") = Some 3.
Proof.
  assert (∀ ws sign ds junk,
     Forall (λ c, isspace c = true) ws →
     sign = [] ∨ sign = ["+"%byte] ∨ sign = ["-"%byte] →
     ds ≠ [] → all_digits ds → no_digit_first junk →
     let value := if decide (sign = ["-"%byte])
                  then - digits 0 ds else digits 0 ds in
     atoi (ws ++ sign ++ ds ++ junk) = int value
     ∧ (INT_MIN ≤ value ≤ INT_MAX →
        atoi (ws ++ sign ++ ds ++ junk) = Some value)
     ∧ atoi (ws ++ sign ++ ds ++ junk) = atoi (sign ++ ds)
     ∧ main env prog [file; ws ++ sign ++ ds ++ junk]
       = main env prog [file; sign ++ ds]) as Hnumber.
  { intros ws sign ds junk Hws Hsign Hne Hds Hjunk value.
    assert (atoi (sign ++ ds ++ junk) = int value
            ∧ atoi (sign ++ ds) = int value) as [Hlong Hshort].
    { unfold value.
      pose proof (digits_prefix ds junk 0 Hds Hjunk) as Hprefix.
      destruct Hsign as [->|[->| ->]].
      - rewrite decide_False by done. cbn [app].
        split; [by apply atoi_digits|].
        rewrite <-(app_nil_r ds) at 1. by apply atoi_digits.
      - rewrite decide_False by done. cbn [app].
        destruct (atoi_signed (ds ++ junk)) as [-> _].
        destruct (atoi_signed ds) as [-> _]. by rewrite Hprefix.
      - rewrite decide_True by done. cbn [app].
        destruct (atoi_signed (ds ++ junk)) as [_ ->].
        destruct (atoi_signed ds) as [_ ->]. by rewrite Hprefix. }
    assert (atoi (ws ++ sign ++ ds ++ junk) = int value) as Hatoi
      by (by rewrite atoi_skip_spaces).
    split; [done|]. split; [|split].
    + intros Hrange. rewrite Hatoi. by apply int_in_range.
    + congruence.
    + rewrite !main_two_arguments. by rewrite Hatoi, Hshort. }
  split; [|split; [exact Hnumber|split; [|split; [|done]]]].
  - intros ws junk Hws Hjunk.
    assert (atoi (ws ++ junk) = Some 0) as Hatoi.
    { rewrite atoi_skip_spaces by done.
      destruct Hjunk as [Hplain|(rest & Hsign & Hrest)].
      { by apply atoi_plain_start. }
      destruct (atoi_signed rest) as [Hplus Hminus].
      rewrite (digits_no_digit rest 0 Hrest) in Hplus, Hminus.
      by destruct Hsign as [->| ->]. }
    split; [done|]. by rewrite main_two_arguments, Hatoi.
  - intros s. destruct (spaces_split s) as (ws & rest & -> & Hws & Hrest).
    destruct rest as [|c rest].
    { left. exists ws, []. split; [done|]. split; [done|]. by left. }
    destruct (decide (c = "-"%byte ∨ c = "+"%byte)) as [Hc|Hc].
    { destruct (digits_split rest) as (ds & junk & -> & Hds & Hjunk).
      destruct ds as [|d ds].
      - left. exists ws, (c :: junk). split; [done|]. split; [done|].
        right. exists junk. split; [|done].
        by destruct Hc as [->| ->]; [left|right].
      - right. exists ws, [c], (d :: ds), junk.
        split; [done|]. split; [done|].
        split; [by destruct Hc as [->| ->]; [right; right|right; left]|].
        done. }
    destruct (digit_value c) as [v|] eqn:Hv.
    + destruct (digits_split (c :: rest)) as (ds & junk & Heq & Hds & Hjunk).
      destruct ds as [|d ds].
      { simpl in Heq. subst junk. simpl in Hjunk. congruence. }
      right. exists ws, [], (d :: ds), junk. rewrite Heq.
      split; [done|]. split; [done|]. split; [by left|done].
    + left. exists ws, (c :: rest). split; [done|]. split; [done|].
      left. simpl. split; [done|]. split; [tauto|]. split; [tauto|done].
  - intros ws z junk Hws Hz Hjunk.
    assert (∃ sign ds,
              decimal z = sign ++ ds
              ∧ (sign = [] ∨ sign = ["+"%byte] ∨ sign = ["-"%byte])
              ∧ ds ≠ [] ∧ all_digits ds
              ∧ (if decide (sign = ["-"%byte])
                 then - digits 0 ds else digits 0 ds) = z)
      as (sign & ds & Hdec & Hsign & Hne & Hds & Hval).
    { unfold decimal.
      destruct z as [|p|p]; cbn [Z.to_int NilZero.string_of_int].
      - exists [], (bytes "0"). split; [done|]. split; [by left|].
        split; [done|]. split; [|done].
        constructor; [by eexists|constructor].
      - destruct (digits_to_uint p) as (Hd & Hall & Hne).
        exists [], (bytes (NilZero.string_of_uint (Pos.to_uint p))).
        split; [done|]. split; [by left|]. split; [done|]. split; [done|].
        by rewrite decide_False.
      - destruct (digits_to_uint p) as (Hd & Hall & Hne).
        exists ["-"%byte], (bytes (NilZero.string_of_uint (Pos.to_uint p))).
        split; [done|]. split; [by right; right|]. split; [done|].
        split; [done|]. rewrite decide_True by done. by rewrite Hd. }
    destruct (Hnumber ws sign ds junk Hws Hsign Hne Hds Hjunk)
      as (_ & Hvalue & _ & Hrun).
    rewrite Hval in Hvalue. rewrite Hdec, <-app_assoc.
    split; [by apply Hvalue|exact Hrun].
Qed.

(** C4, as it is stated, fails on a winner count that is no [int]:
    [-4294967294] is not positive and [4294967298] is more than the three
    participants of the file, and neither run ends with status [1]:
    [atoi] is undefined on both, and so is the run. *)
Lemma count_beyond_int :
  - digits 0 (bytes "4294967294") ≤ 0
  ∧ Z.of_nat (length Samples.names) < digits 0 (bytes "4294967298")
  ∧ atoi (bytes "-4294967294") = None
  ∧ atoi (bytes "4294967298") = None
  ∧ main Samples.machine (bytes "random-winners")
      [bytes "draw.txt"; bytes "-4294967294"] = None
  ∧ main Samples.machine (bytes "random-winners")
      [bytes "draw.txt"; bytes "4294967298"] = None
  ∧ ¬ (∃ out, main Samples.machine (bytes "random-winners")
                [bytes "draw.txt"; bytes "-4294967294"] = Some (1, out)).
Proof.
  split; [by vm_compute|]. split; [by vm_compute|].
  split; [reflexivity|]. split; [reflexivity|].
  split; [reflexivity|]. split; [reflexivity|].
  intros [out Hout]. discriminate Hout.
Qed.


(** C10, as it is stated, fails when the digits spell a number that is no
    [int]: [4294967298abc] is not read as [4294967298], the number its
    digits spell; [atoi] is undefined on it, and so is the run. *)
Lemma prefix_beyond_int :
  all_digits (bytes "4294967298") ∧ no_digit_first (bytes "abc")
  ∧ digits 0 (bytes "4294967298") = 4294967298
  ∧ atoi (bytes "4294967298abc") = None
  ∧ atoi (bytes "4294967298abc") ≠ Some 4294967298
  ∧ main Samples.machine (bytes "random-winners")
      [bytes "draw.txt"; bytes "4294967298abc"] = None.
Proof.
  split; [repeat (constructor; [by eexists|]); constructor|].
  split; [reflexivity|]. split; [reflexivity|]. split; [reflexivity|].
  split; [discriminate|reflexivity].
Qed.

(** *** The statements on sample inputs *)

Lemma sample_generator_within :
  draws_within INT_MAX
    (generator Samples.machine (clock Samples.machine mod 2 ^ 32)).
Proof.
  intros k. simpl.
  pose proof (Z.mod_pos_bound (1700000000 mod 2 ^ 32 + Z.of_nat k) 32768).
  unfold INT_MAX. lia.
Qed.

Lemma exit_codes_sample :
  atoi (bytes "2") = Some 2
  ∧ read_lines (heap Samples.machine)
      (files Samples.machine (bytes "draw.txt"))
    = Some (0, Samples.names)
  ∧ ∃ shuffled,
      shuffle Samples.names 3
        (generator Samples.machine (clock Samples.machine mod 2 ^ 32))
      = Some shuffled
      ∧ main Samples.machine (bytes "random-winners")
          [bytes "draw.txt"; bytes "2"]
        = Some (0, success_output Samples.machine 2 Samples.names shuffled).
Proof.
  assert (atoi (bytes "2") = Some 2) as Hatoi by reflexivity.
  assert (read_lines (heap Samples.machine)
            (files Samples.machine (bytes "draw.txt"))
          = Some (0, Samples.names)) as Hread by (vm_compute; reflexivity).
  split; [done|]. split; [done|].
  destruct (exit_codes Samples.machine (bytes "random-winners")
              [bytes "draw.txt"; bytes "2"]) as (_ & Hcases & _).
  destruct (Hcases (bytes "draw.txt") (bytes "2") 2 eq_refl Hatoi)
    as (_ & _ & _ & _ & _ & Hsuccess).
  apply (Hsuccess ltac:(lia) Samples.names Hread);
    [done|simpl; lia|apply sample_generator_within].
Defined.

Lemma atoi_winner_count_sample :
  Forall (λ c, isspace c = true) [" "%byte]
  ∧ no_digit_first (bytes "abc")
  ∧ all_digits (bytes "3")
  ∧ main Samples.machine (bytes "random-winners")
      [bytes "draw.txt"; bytes " -abc"]
    = Some (1, [error_winner_count])
  ∧ atoi (bytes " 3abc") = Some 3
  ∧ main Samples.machine (bytes "random-winners")
      [bytes "draw.txt"; bytes " 3abc"]
    = main Samples.machine (bytes "random-winners")
        [bytes "draw.txt"; bytes "3"].
Proof.
  assert (Forall (λ c, isspace c = true) [" "%byte]) as Hws
    by (by repeat constructor).
  assert (no_digit_first (bytes "abc")) as Hjunk by reflexivity.
  assert (all_digits (bytes "3")) as Hds
    by (constructor; [by eexists|constructor]).
  assert (bytes "3" ≠ []) as Hne by done.
  split; [done|]. split; [done|]. split; [done|].
  destruct (atoi_winner_count Samples.machine (bytes "random-winners")
              (bytes "draw.txt")) as (Hnone & Hnumber & _).
  split.
  { apply (Hnone [" "%byte] (bytes "-abc") Hws). right.
    exists (bytes "abc"). split; [by left|done]. }
  destruct (Hnumber [" "%byte] [] (bytes "3") (bytes "abc") Hws
              (or_introl eq_refl) Hne Hds Hjunk)
    as (_ & Hvalue & _ & Hrun).
  split; [|exact Hrun].
  apply Hvalue. unfold INT_MIN, INT_MAX. simpl. lia.
Defined.


End CliFacts.

(** * The buffers of the loader *)

Module LoaderBuffers.
Import Loader LoaderFacts.

Lemma chunks_from_fuel fuel : ∀ fuel' stream,
  (length stream ≤ fuel)%nat → (length stream ≤ fuel')%nat →
  chunks_from fuel stream = chunks_from fuel' stream.
Proof.
  induction fuel as [|fuel IH]; intros fuel' stream Hfuel Hfuel'.
  { destruct stream; [|simpl in Hfuel; lia]. by destruct fuel'. }
  destruct fuel' as [|fuel'].
  { destruct stream; [done|simpl in Hfuel'; lia]. }
  simpl.
  destruct (fgets MAX_LINE_LENGTH stream) as [[buffer rest]|] eqn:Hgets;
    [|done].
  apply fgets_Some in Hgets as (_ & _ & _ & Hlt); [|done].
  f_equal. apply IH; lia.
Qed.

Lemma chunks_unfold stream :
  chunks stream
  = match fgets MAX_LINE_LENGTH stream with
    | None => []
    | Some (buffer, rest) => buffer :: chunks rest
    end.
Proof.
  unfold chunks. destruct stream as [|c stream]; [done|].
  cbn [length chunks_from].
  destruct (fgets MAX_LINE_LENGTH (c :: stream)) as [[buffer rest]|] eqn:Hgets;
    [|done].
  apply fgets_Some in Hgets as (_ & _ & _ & Hlt); [|done].
  f_equal. apply chunks_from_fuel; simpl in *; lia.
Qed.

Lemma entries_unfold stream :
  entries stream
  = match fgets MAX_LINE_LENGTH stream with
    | None => []
    | Some (buffer, rest) => kept (entry buffer) ++ entries rest
    end.
Proof.
  unfold entries. rewrite chunks_unfold.
  destruct (fgets MAX_LINE_LENGTH stream) as [[buffer rest]|]; [|done].
  rewrite fmap_cons. apply filter_nonempty_cons.
Qed.

(** The buffers are the file, cut. *)
Lemma concat_chunks stream : concat (chunks stream) = stream.
Proof.
  by_bytes_left stream. rewrite chunks_unfold.
  destruct (fgets MAX_LINE_LENGTH stream) as [[buffer rest]|] eqn:Hgets.
  2:{ by apply fgets_None in Hgets as ->. }
  apply fgets_Some in Hgets as (Hread & _ & _ & Hlt); [|done].
  simpl. rewrite (IH (length rest) Hlt rest eq_refl).
  by rewrite (fgets_read_app _ _ _ _ Hread).
Qed.

Lemma fgets_read_length room : ∀ stream buffer rest,
  fgets_read room stream = (buffer, rest) → (length buffer ≤ room)%nat.
Proof.
  induction room as [|room IH]; intros [|c s] buffer rest; simpl;
    try (intros [= <- <-]; simpl; lia).
  destruct (Byte.eqb c LF); [intros [= <- <-]; simpl; lia|].
  destruct (fgets_read room s) as [b r] eqn:Hrd. intros [= <- <-].
  apply IH in Hrd. simpl. lia.
Qed.

Lemma chunks_length stream :
  Forall (λ buffer, (1 ≤ length buffer ≤ 255)%nat) (chunks stream).
Proof.
  by_bytes_left stream. rewrite chunks_unfold.
  destruct (fgets MAX_LINE_LENGTH stream) as [[buffer rest]|] eqn:Hgets;
    [|done].
  apply fgets_Some in Hgets as (Hread & _ & Hne & Hlt); [|done].
  constructor; [|by apply (IH (length rest) Hlt)].
  apply fgets_read_length in Hread.
  change (Z.to_nat (MAX_LINE_LENGTH - 1)) with 255%nat in Hread.
  destruct buffer; [done|]. simpl in *. lia.
Qed.

(** *** What [entry] keeps of a buffer *)

Lemma entry_prefix buffer : entry buffer `prefix_of` buffer.
Proof. apply prefix_take. Qed.

Lemma strlen_NUL_free buffer : NUL ∉ take (strlen buffer) buffer.
Proof.
  induction buffer as [|c b IH]; simpl; [apply not_elem_of_nil|].
  destruct (byte_eqb_spec c NUL) as [->|Hc]; simpl; [apply not_elem_of_nil|].
  apply not_elem_of_cons. by split.
Qed.

Lemma entry_NUL_free buffer : NUL ∉ entry buffer.
Proof.
  unfold entry. intros (i & Hi & Hlt)%elem_of_take.
  apply (strlen_NUL_free buffer). apply elem_of_take. exists i.
  split; [done|]. pose proof (strip_le buffer (strlen buffer)). lia.
Qed.

(** *** The loop and the buffers *)

(** The loop adds the entries of the buffers in turn, all of them when it
    returns [0] and the first ones when a request is refused. *)
Lemma read_loop_entries alloc stream : ∀ st code st',
  read_loop alloc stream st = Some (code, st') →
  ∃ added, lines st' = lines st ++ added
           ∧ added `prefix_of` entries stream
           ∧ (code = 0 → added = entries stream).
Proof.
  by_bytes_left stream. intros st code st'.
  rewrite read_loop_unfold, entries_unfold.
  destruct (fgets MAX_LINE_LENGTH stream) as [[buffer rest]|] eqn:Hgets.
  2:{ intros [= <- <-]. exists []. by rewrite app_nil_r. }
  apply fgets_Some in Hgets as (_ & _ & _ & Hlt); [|done].
  destruct (body alloc buffer st) as [[s1|c1 s1]|] eqn:Hb; [| |done].
  - intros Hloop.
    apply (IH (length rest) Hlt rest eq_refl) in Hloop
      as (added & -> & Hpre & Hall).
    apply body_inv in Hb. exists (kept (entry buffer) ++ added).
    split; [by rewrite Hb, app_assoc|].
    split; [by apply prefix_app|]. intros Hcode. by rewrite Hall.
  - intros [= <- <-]. apply body_inv in Hb as [-> Hlines].
    exists []. split; [by rewrite app_nil_r|].
    split; [apply prefix_nil|done].
Qed.

Lemma read_lines_entries alloc contents code ls :
  read_lines alloc (Some contents) = Some (code, ls) →
  ls `prefix_of` entries contents ∧ (code = 0 → ls = entries contents).
Proof.
  unfold read_lines. destruct (alloc 0%nat).
  2:{ intros [= <- <-]. split; [apply prefix_nil|done]. }
  destruct (read_loop alloc contents (State [] INITIAL_CAPACITY 1))
    as [[c st]|] eqn:Hloop; [|done].
  simpl. intros [= <- <-].
  apply read_loop_entries in Hloop as (added & -> & Hpre & Hall). done.
Qed.

Lemma entries_bounded stream :
  Forall (λ e, (1 ≤ length e ≤ 255)%nat ∧ NUL ∉ e) (entries stream).
Proof.
  unfold entries. apply list.Forall_forall. intros e [He Hin]%list_elem_of_filter.
  apply list_elem_of_fmap in Hin as (buffer & -> & Hbuffer).
  pose proof (chunks_length stream) as Hlen.
  rewrite list.Forall_forall in Hlen. specialize (Hlen _ Hbuffer).
  pose proof (prefix_length _ _ (entry_prefix buffer)) as Hle.
  split; [|apply entry_NUL_free].
  destruct (entry buffer); [done|]. simpl in *. lia.
Qed.

Lemma concat_entries_sublist stream : concat (entries stream) `sublist_of` stream.
Proof.
  by_bytes_left stream. rewrite entries_unfold.
  destruct (fgets MAX_LINE_LENGTH stream) as [[buffer rest]|] eqn:Hgets.
  2:{ apply sublist_nil_l. }
  apply fgets_Some in Hgets as (Hread & _ & _ & Hlt); [|done].
  rewrite (fgets_read_app _ _ _ _ Hread), concat_app.
  apply sublist_app; [|by apply (IH (length rest) Hlt)].
  destruct (entry buffer) as [|c e] eqn:He; [apply sublist_nil_l|].
  simpl. rewrite app_nil_r, <-He. apply sublist_take.
Qed.

Lemma entries_segments stream :
  Forall (λ e, segment_of e stream) (entries stream).
Proof.
  by_bytes_left stream. rewrite entries_unfold.
  destruct (fgets MAX_LINE_LENGTH stream) as [[buffer rest]|] eqn:Hgets;
    [|done].
  apply fgets_Some in Hgets as (Hread & _ & _ & Hlt); [|done].
  rewrite (fgets_read_app _ _ _ _ Hread). apply Forall_app. split.
  - destruct (entry buffer) as [|c e] eqn:He; [done|].
    constructor; [|done]. rewrite <-He. exists [].
    exists (drop (strip buffer (strlen buffer)) buffer ++ rest).
    unfold entry. simpl. by rewrite app_assoc, take_drop.
  - eapply Forall_impl; [|apply (IH (length rest) Hlt rest eq_refl)].
    intros e (before & after & ->). exists (buffer ++ before), after.
    by rewrite <-app_assoc.
Qed.

Lemma strip_trailing_nil line :
  strip_trailing line = [] ↔ Forall (λ c, c = LF ∨ c = CR) line.
Proof.
  induction line as [|c line IH]; [done|]. simpl.
  destruct (strip_trailing line) as [|d tail].
  - destruct (is_eol c) eqn:Hc.
    + split; [|done]. intros _. constructor; [|by apply IH].
      unfold is_eol in Hc.
      destruct (byte_eqb_spec c LF); [by left|].
      destruct (byte_eqb_spec c CR); [by right|done].
    + split; [done|]. intros [Hc' _]%Forall_cons_1.
      apply is_eol_false in Hc as [? ?]. by destruct Hc'.
  - split; [done|]. intros [_ Hline]%Forall_cons_1. by apply IH in Hline.
Qed.

Lemma entries_nil_iff stream :
  NUL ∉ stream →
  entries stream = [] ↔ Forall (λ c, c = LF ∨ c = CR) stream.
Proof.
  by_bytes_left stream. intros Hnul. rewrite entries_unfold.
  destruct (fgets MAX_LINE_LENGTH stream) as [[buffer rest]|] eqn:Hgets.
  2:{ by apply fgets_None in Hgets as ->. }
  apply fgets_Some in Hgets as (Hread & _ & _ & Hlt); [|done].
  rewrite (fgets_read_app _ _ _ _ Hread) in Hnul |- *.
  apply not_elem_of_app in Hnul as [Hnulb Hnulr].
  rewrite Forall_app, <-(IH (length rest) Hlt rest eq_refl Hnulr).
  rewrite <-strip_trailing_nil, <-entry_no_NUL by done.
  destruct (entry buffer); simpl; [tauto|].
  split; [done|]. by intros [? _].
Qed.

(** *** Lines longer than the buffer *)

Lemma pieces_from_fuel size fuel : ∀ fuel' text,
  (0 < size)%nat → (length text ≤ fuel)%nat → (length text ≤ fuel')%nat →
  pieces_from fuel size text = pieces_from fuel' size text.
Proof.
  induction fuel as [|fuel IH]; intros fuel' text Hsize Hfuel Hfuel'.
  { destruct text; [|simpl in Hfuel; lia]. by destruct fuel'. }
  destruct fuel' as [|fuel'].
  { destruct text; [done|simpl in Hfuel'; lia]. }
  destruct text as [|c text]; [done|]. cbn [pieces_from]. f_equal.
  apply IH; [done| |]; rewrite length_drop; simpl in *; lia.
Qed.

Lemma pieces_unfold size text :
  (0 < size)%nat →
  pieces size text
  = match text with
    | [] => []
    | _ :: _ => take size text :: pieces size (drop size text)
    end.
Proof.
  intros Hsize. unfold pieces. destruct text as [|c text]; [done|].
  cbn [length pieces_from]. f_equal.
  apply pieces_from_fuel; [done| |done].
  rewrite length_drop. simpl. lia.
Qed.

Lemma pieces_short size text :
  (0 < size)%nat → text ≠ [] → (length text ≤ size)%nat →
  pieces size text = [text].
Proof.
  intros Hsize Hne Hlen. rewrite pieces_unfold by done.
  destruct text as [|c text]; [done|].
  rewrite take_ge, drop_ge by done. by rewrite pieces_unfold.
Qed.

(** [fgets] stops after a newline, at the end of the file, or when the
    buffer is full. *)
Lemma fgets_read_line room : ∀ text rest,
  LF ∉ text → (length text < room)%nat →
  fgets_read room (text ++ LF :: rest) = (text ++ [LF], rest).
Proof.
  induction room as [|room IH]; intros text rest Htext Hroom; [lia|].
  destruct text as [|c text]; [done|].
  apply not_elem_of_cons in Htext as [Hc Htext]. simpl.
  destruct (byte_eqb_spec c LF); [congruence|].
  rewrite IH; [done|done|simpl in Hroom; lia].
Qed.

Lemma fgets_read_end room : ∀ text,
  LF ∉ text → (length text ≤ room)%nat → fgets_read room text = (text, []).
Proof.
  induction room as [|room IH]; intros text Htext Hroom.
  { destruct text; [done|simpl in Hroom; lia]. }
  destruct text as [|c text]; [done|].
  apply not_elem_of_cons in Htext as [Hc Htext]. simpl.
  destruct (byte_eqb_spec c LF); [congruence|].
  rewrite IH; [done|done|simpl in Hroom; lia].
Qed.

Lemma fgets_read_full room : ∀ text rest,
  LF ∉ text → (room ≤ length text)%nat →
  fgets_read room (text ++ rest) = (take room text, drop room text ++ rest).
Proof.
  induction room as [|room IH]; intros text rest Htext Hroom.
  { by rewrite take_0, drop_0. }
  destruct text as [|c text]; [simpl in Hroom; lia|].
  apply not_elem_of_cons in Htext as [Hc Htext]. simpl.
  destruct (byte_eqb_spec c LF); [congruence|].
  rewrite IH; [done|done|simpl in Hroom; lia].
Qed.

Lemma fgets_nonempty size c stream :
  fgets size (c :: stream)
  = Some (fgets_read (Z.to_nat (size - 1)) (c :: stream)).
Proof. reflexivity. Qed.

Lemma not_elem_of_take_drop (text : list byte) (k : nat) c :
  c ∉ text → (c ∉ take k text) ∧ (c ∉ drop k text).
Proof.
  intros Hc. rewrite <-(take_drop k text) in Hc.
  by apply not_elem_of_app in Hc.
Qed.

(** The buffers of a line with its newline, and of a last line without
    one, are its pieces of 255 bytes. *)
Lemma chunks_line text : ∀ rest,
  LF ∉ text →
  chunks (text ++ LF :: rest) = pieces 255 (text ++ [LF]) ++ chunks rest.
Proof.
  by_bytes_left text. intros rest Htext. rewrite chunks_unfold.
  assert (∃ c s, text ++ LF :: rest = c :: s) as (c & s & Hcs)
    by (destruct text; by eexists _, _).
  rewrite Hcs, fgets_nonempty, <-Hcs.
  change (Z.to_nat (MAX_LINE_LENGTH - 1)) with 255%nat.
  destruct (decide (length text < 255)%nat) as [Hshort|Hlong].
  - rewrite fgets_read_line by done.
    rewrite pieces_short; [done|lia|by destruct text|].
    rewrite length_app. simpl. lia.
  - rewrite fgets_read_full by (done || lia).
    destruct (not_elem_of_take_drop text 255 LF Htext) as [_ Hdrop].
    rewrite (IH (length (drop 255 text))); [|rewrite length_drop; lia|done|done].
    rewrite (pieces_unfold 255 (text ++ [LF])) by lia.
    destruct (text ++ [LF]) as [|d l] eqn:Hdl; [by destruct text|].
    rewrite <-Hdl. rewrite take_app_le, drop_app_le by lia. done.
Qed.

Lemma chunks_last text : LF ∉ text → chunks text = pieces 255 text.
Proof.
  by_bytes_left text. intros Htext. rewrite chunks_unfold.
  destruct text as [|c s] eqn:Hcs; [done|].
  rewrite fgets_nonempty, <-Hcs in *.
  change (Z.to_nat (MAX_LINE_LENGTH - 1)) with 255%nat.
  assert (text ≠ []) as Hne by (by rewrite Hcs).
  assert (length text ≠ 0%nat) as Hlen by (by rewrite Hcs).
  clear Hcs.
  destruct (decide (length text ≤ 255)%nat) as [Hshort|Hlong].
  - rewrite fgets_read_end by done. by rewrite pieces_short by (done || lia).
  - rewrite <-(app_nil_r text) at 1.
    rewrite fgets_read_full by (done || lia). rewrite app_nil_r.
    destruct (not_elem_of_take_drop text 255 LF Htext) as [_ Hdrop].
    rewrite (IH (length (drop 255 text))); [|rewrite length_drop; lia|done|done].
    rewrite (pieces_unfold 255 text) by lia. by destruct text.
Qed.

Lemma raw_lines_line text : ∀ rest,
  LF ∉ text → raw_lines (text ++ LF :: rest) = (text ++ [LF]) :: raw_lines rest.
Proof.
  induction text as [|c text IH]; intros rest Htext; [done|].
  apply not_elem_of_cons in Htext as [Hc Htext]. simpl.
  destruct (byte_eqb_spec c LF); [congruence|]. by rewrite IH.
Qed.

Lemma raw_lines_last text : LF ∉ text → text ≠ [] → raw_lines text = [text].
Proof.
  induction text as [|c text IH]; intros Htext Hne; [done|].
  apply not_elem_of_cons in Htext as [Hc Htext]. simpl.
  destruct (byte_eqb_spec c LF); [congruence|].
  destruct text as [|d text]; [done|]. by rewrite IH.
Qed.

Lemma first_newline (stream : list byte) :
  (LF ∉ stream) ∨ ∃ text rest, (LF ∉ text) ∧ stream = text ++ LF :: rest.
Proof.
  induction stream as [|c stream IH]; [left; apply not_elem_of_nil|].
  destruct (decide (c = LF)) as [->|Hc].
  { right. exists [], stream. split; [apply not_elem_of_nil|done]. }
  destruct IH as [Hno|(text & rest & Htext & ->)].
  - left. by apply not_elem_of_cons.
  - right. exists (c :: text), rest. split; [by apply not_elem_of_cons|done].
Qed.

Lemma chunks_pieces stream :
  chunks stream = concat (pieces 255 <$> raw_lines stream).
Proof.
  by_bytes_left stream.
  destruct (first_newline stream) as [Hno|(text & rest & Htext & ->)].
  - rewrite chunks_last by done. destruct stream as [|c s] eqn:Hcs; [done|].
    rewrite <-Hcs in *. rewrite raw_lines_last by (done || by rewrite Hcs).
    simpl. by rewrite app_nil_r.
  - rewrite chunks_line, raw_lines_line by done. rewrite fmap_cons. simpl.
    f_equal. apply (IH (length rest)); [|done].
    rewrite length_app. simpl. lia.
Qed.

Lemma elem_of_concat {X} (x : X) (l : list X) (ls : list (list X)) :
  l ∈ ls → x ∈ l → x ∈ concat ls.
Proof.
  induction ls as [|l' ls IH]; [by intros ?%elem_of_nil|].
  intros [->|Hin]%elem_of_cons Hx; simpl; apply elem_of_app; by auto.
Qed.

Lemma chunks_NUL_free stream :
  NUL ∉ stream → Forall (λ buffer, NUL ∉ buffer) (chunks stream).
Proof.
  intros Hnul. apply list.Forall_forall. intros buffer Hin Hbuf.
  apply Hnul. rewrite <-(concat_chunks stream).
  by apply (elem_of_concat _ buffer).
Qed.

(** *** The capacity *)

Lemma doubled_S k : doubled (S k) = doubled k * 2.
Proof. unfold doubled. rewrite Nat2Z.inj_succ, Z.pow_succ_r by lia. lia. Qed.

Lemma doubled_pos k : 0 < doubled k.
Proof. unfold doubled, INITIAL_CAPACITY. pose proof (Z.pow_pos_nonneg 2 (Z.of_nat k)). lia. Qed.

Lemma body_tidy alloc buffer st st' :
  body alloc buffer st = Some (Continue st') → tidy st → tidy st'.
Proof.
  unfold body. intros Hbody (k & Hcap & Hcount & Hk & Hreq).
  pose proof (doubled_pos k) as Hpos.
  destruct (strip buffer (strlen buffer) =? 0)%nat; [by simplify_eq; exists k|].
  revert Hbody. unfold grow.
  destruct (Z.leb_spec (capacity st) (count st)) as [Hfull|Hroom].
  - destruct (int (capacity st * 2)) as [c|] eqn:Hc; [|done].
    apply int_inv in Hc as [-> _]. cbn [mbind option_bind].
    destruct (alloc (requests st)); [|done]. unfold append, count. simpl.
    destruct (_ <? _); [|done]. destruct (alloc _); [|done].
    destruct (int _); [|done]. simpl. intros [= <-].
    exists (S k). unfold count in *. simpl. rewrite length_app, doubled_S.
    simpl. split; [lia|]. split; [lia|]. split; [right; lia|lia].
  - cbn [mbind option_bind]. unfold append.
    destruct (_ <? _); [|done]. destruct (alloc _); [|done].
    destruct (int _); [|done]. simpl. intros [= <-].
    exists k. unfold count in *. simpl. rewrite length_app. simpl.
    split; [lia|]. split; [lia|]. split; [|lia].
    destruct Hk as [->|Hk]; [by left|right; lia].
Qed.

Lemma read_loop_tidy alloc stream : ∀ st st',
  read_loop alloc stream st = Some (0, st') → tidy st → tidy st'.
Proof.
  by_bytes_left stream. intros st st'. rewrite read_loop_unfold.
  destruct (fgets MAX_LINE_LENGTH stream) as [[buffer rest]|] eqn:Hgets;
    [|by intros [= <-]].
  apply fgets_Some in Hgets as (_ & _ & _ & Hlt); [|done].
  destruct (body alloc buffer st) as [[s1|c1 s1]|] eqn:Hb; [| |done].
  - intros Hloop Hst. apply (IH (length rest) Hlt rest eq_refl _ _ Hloop).
    by apply (body_tidy _ _ _ _ Hb).
  - apply body_inv in Hb as [-> _]. done.
Qed.

Lemma body_failure alloc buffer st code st' :
  body alloc buffer st = Some (Return code st') → ∃ k, alloc k = false.
Proof.
  unfold body. destruct (strip buffer (strlen buffer) =? 0)%nat; [done|].
  unfold grow. destruct (capacity st <=? count st).
  - destruct (int (capacity st * 2)); [|done]. cbn [mbind option_bind].
    destruct (alloc (requests st)) eqn:Hreq; [|by eexists].
    unfold append. simpl. destruct (_ <? _); [|done].
    destruct (alloc (S (requests st))) eqn:Hreq'; [|by eexists].
    by destruct (int _).
  - cbn [mbind option_bind]. unfold append. destruct (_ <? _); [|done].
    destruct (alloc (requests st)) eqn:Hreq; [|by eexists].
    by destruct (int _).
Qed.

Lemma read_loop_failure alloc stream : ∀ st code st',
  read_loop alloc stream st = Some (code, st') → code ≠ 0 →
  ∃ k, alloc k = false.
Proof.
  by_bytes_left stream. intros st code st'. rewrite read_loop_unfold.
  destruct (fgets MAX_LINE_LENGTH stream) as [[buffer rest]|] eqn:Hgets;
    [|by intros [= <- <-]].
  apply fgets_Some in Hgets as (_ & _ & _ & Hlt); [|done].
  destruct (body alloc buffer st) as [[s1|c1 s1]|] eqn:Hb; [| |done].
  - apply (IH (length rest) Hlt rest eq_refl).
  - intros _ _. by apply body_failure in Hb.
Qed.

(** *** Further properties of the loader *)

(** X1. Every entry the loader produces, whatever it returns, has between one
    and 255 bytes and holds no NUL byte: it is a string that fits the line
    buffer. *)
Theorem entries_fit_buffer alloc file code ls :
  read_lines alloc file = Some (code, ls) →
  Forall (λ e, (1 ≤ length e ≤ 255)%nat ∧ NUL ∉ e) ls.
Proof.
  destruct file as [contents|]; [|by intros [= <- <-]].
  intros [[rest Hrest] _]%read_lines_entries.
  pose proof (entries_bounded contents) as Hall.
  rewrite Hrest in Hall. by apply Forall_app in Hall as [? _].
Qed.

(** X2. The loader only leaves bytes out: every entry is a contiguous part of
    the file, and the entries one after the other are what is left of the
    file when some of its bytes are deleted, so they come in the order of
    the file. *)
Theorem entries_come_from_file alloc contents code ls :
  read_lines alloc (Some contents) = Some (code, ls) →
  concat ls `sublist_of` contents
  ∧ Forall (λ e, segment_of e contents) ls.
Proof.
  intros [[rest Hrest] _]%read_lines_entries.
  pose proof (concat_entries_sublist contents) as Hsub.
  pose proof (entries_segments contents) as Hseg.
  rewrite Hrest in Hsub, Hseg. split.
  - rewrite concat_app in Hsub. etrans; [|exact Hsub].
    apply sublist_inserts_r. done.
  - by apply Forall_app in Hseg as [? _].
Qed.

(** X3. On a file without NUL byte, a load that succeeds gives no entry
    exactly when the file holds nothing but newlines and carriage
    returns (the empty file included). *)
Theorem no_entry_iff_blank alloc contents ls :
  NUL ∉ contents →
  read_lines alloc (Some contents) = Some (0, ls) →
  ls = [] ↔ Forall (λ c, c = LF ∨ c = CR) contents.
Proof.
  intros Hnul [_ Hls]%read_lines_entries. rewrite Hls by done.
  by apply entries_nil_iff.
Qed.

(** X4. What a load that succeeds returns, for every file: each line, taken
    with its newline, is cut into pieces of 255 bytes (the size of the
    buffer less one), and every piece gives an entry, which is the piece
    up to its first NUL byte and without its trailing newline and
    carriage returns; the empty entries are left out.  Without NUL byte in
    the file, an entry is the piece without its trailing newline and
    carriage returns. *)
Theorem long_lines_in_pieces alloc contents ls :
  read_lines alloc (Some contents) = Some (0, ls) →
  ls = filter (λ e, nonempty e = true)
         (entry <$> concat (pieces 255 <$> raw_lines contents))
  ∧ (NUL ∉ contents →
     ls = filter (λ e, nonempty e = true)
            (strip_trailing <$> concat (pieces 255 <$> raw_lines contents))).
Proof.
  intros [_ Hls]%read_lines_entries. rewrite Hls by done.
  unfold entries. rewrite chunks_pieces. split; [done|]. intros Hnul.
  f_equal. apply Forall_fmap_ext_1.
  rewrite <-chunks_pieces. eapply Forall_impl; [|by apply chunks_NUL_free].
  intros buffer Hbuffer. by apply entry_no_NUL.
Qed.

(** X5. The array grows by doubling: after a load that succeeds the capacity
    is the initial one doubled [k] times, it holds the entries, it was
    doubled only when the array was full (so [k] is the least number of
    doublings that makes room), and the loader made one request for the
    array, one for each entry and one for each doubling. *)
Theorem capacity_doubles alloc contents st :
  read_loop alloc contents (State [] INITIAL_CAPACITY 1) = Some (0, st) →
  ∃ k : nat,
    capacity st = doubled k ∧ count st ≤ doubled k
    ∧ (k = 0%nat ∨ doubled k < 2 * count st)
    ∧ requests st = (1 + length (lines st) + k)%nat.
Proof.
  intros Hloop. apply (read_loop_tidy _ _ _ _ Hloop).
  exists 0%nat. unfold count. simpl. split; [done|]. split; [done|].
  split; [by left|done].
Qed.

(** X6. A load stopped by a refused request has kept the first entries of the
    file: what it leaves in the array is the beginning of what a load that
    succeeds returns; and a load fails with [-2] only when a request was
    refused. *)
Theorem partial_load_is_prefix alloc alloc' contents code ls ls' :
  read_lines alloc (Some contents) = Some (code, ls) →
  read_lines alloc' (Some contents) = Some (0, ls') →
  ls `prefix_of` ls' ∧ (code ≠ 0 → ∃ k, alloc k = false).
Proof.
  intros Hread [_ Hls']%read_lines_entries. rewrite Hls' by done.
  split; [by apply read_lines_entries in Hread as [? _]|].
  revert Hread. unfold read_lines.
  destruct (alloc 0%nat) eqn:H0; [|by eexists].
  destruct (read_loop alloc contents (State [] INITIAL_CAPACITY 1))
    as [[c st]|] eqn:Hloop; [|done].
  simpl. intros [= <- <-]. by apply (read_loop_failure _ _ _ _ _ Hloop).
Qed.

(** *** These properties on sample files *)

Lemma entries_fit_buffer_sample :
  read_lines Samples.generous (Some Samples.long_line_file)
  = Some (0, [repeat "a"%byte 255; ["a"%byte]])
  ∧ Forall (λ e, (1 ≤ length e ≤ 255)%nat ∧ NUL ∉ e)
      [repeat "a"%byte 255; ["a"%byte]].
Proof.
  assert (read_lines Samples.generous (Some Samples.long_line_file)
          = Some (0, [repeat "a"%byte 255; ["a"%byte]])) as Hload
    by (vm_compute; reflexivity).
  split; [done|].
  exact (entries_fit_buffer Samples.generous (Some Samples.long_line_file)
           0 _ Hload).
Defined.

Lemma entries_come_from_file_sample :
  read_lines Samples.generous (Some Samples.inner_cr_file)
  = Some (0, [bytes "ann" ++ [CR] ++ bytes "bob"])
  ∧ concat [bytes "ann" ++ [CR] ++ bytes "bob"]
      `sublist_of` Samples.inner_cr_file
  ∧ Forall (λ e, segment_of e Samples.inner_cr_file)
      [bytes "ann" ++ [CR] ++ bytes "bob"].
Proof.
  assert (read_lines Samples.generous (Some Samples.inner_cr_file)
          = Some (0, [bytes "ann" ++ [CR] ++ bytes "bob"])) as Hload
    by (vm_compute; reflexivity).
  split; [done|].
  exact (entries_come_from_file Samples.generous Samples.inner_cr_file
           0 _ Hload).
Defined.

Lemma no_entry_iff_blank_sample :
  (NUL ∉ Samples.blank_only_file)
  ∧ read_lines Samples.generous (Some Samples.blank_only_file)
    = Some (0, [])
  ∧ (([] : list (list byte)) = []
     ↔ Forall (λ c, c = LF ∨ c = CR) Samples.blank_only_file).
Proof.
  assert (NUL ∉ Samples.blank_only_file) as Hnul
    by (by apply (bool_decide_unpack _)).
  assert (read_lines Samples.generous (Some Samples.blank_only_file)
          = Some (0, [])) as Hload by (vm_compute; reflexivity).
  split; [done|]. split; [done|].
  exact (no_entry_iff_blank Samples.generous Samples.blank_only_file
           [] Hnul Hload).
Defined.

Lemma long_lines_in_pieces_sample :
  read_lines Samples.generous (Some Samples.long_line_file)
  = Some (0, [repeat "a"%byte 255; ["a"%byte]])
  ∧ [repeat "a"%byte 255; ["a"%byte]]
    = filter (λ e, nonempty e = true)
        (entry <$> concat (pieces 255 <$> raw_lines Samples.long_line_file)).
Proof.
  assert (read_lines Samples.generous (Some Samples.long_line_file)
          = Some (0, [repeat "a"%byte 255; ["a"%byte]])) as Hload
    by (vm_compute; reflexivity).
  split; [done|].
  exact (proj1 (long_lines_in_pieces Samples.generous
                  Samples.long_line_file _ Hload)).
Defined.

Lemma capacity_doubles_sample :
  read_loop Samples.generous Samples.crowd_file
    (State [] INITIAL_CAPACITY 1)
  = Some (0, State (repeat (bytes "ann") 101) 200 103)
  ∧ doubled 1 = 200
  ∧ ∃ k : nat,
      200 = doubled k ∧ 101 ≤ doubled k
      ∧ (k = 0%nat ∨ doubled k < 2 * 101)
      ∧ 103%nat = (1 + 101 + k)%nat.
Proof.
  assert (read_loop Samples.generous Samples.crowd_file
            (State [] INITIAL_CAPACITY 1)
          = Some (0, State (repeat (bytes "ann") 101) 200 103)) as Hloop
    by (vm_compute; reflexivity).
  split; [done|]. split; [reflexivity|].
  exact (capacity_doubles Samples.generous Samples.crowd_file
           _ Hloop).
Defined.

Lemma partial_load_is_prefix_sample :
  read_lines Samples.stingy (Some Samples.three_names_file)
  = Some (-2, [bytes "alice"])
  ∧ read_lines Samples.generous (Some Samples.three_names_file)
    = Some (0, Samples.names)
  ∧ [bytes "alice"] `prefix_of` Samples.names
  ∧ (-2 ≠ 0 → ∃ k, Samples.stingy k = false).
Proof.
  assert (read_lines Samples.stingy (Some Samples.three_names_file)
          = Some (-2, [bytes "alice"])) as Hstingy
    by (vm_compute; reflexivity).
  assert (read_lines Samples.generous (Some Samples.three_names_file)
          = Some (0, Samples.names)) as Hgenerous
    by (vm_compute; reflexivity).
  split; [done|]. split; [done|].
  exact (partial_load_is_prefix Samples.stingy Samples.generous
           Samples.three_names_file _ _ _ Hstingy Hgenerous).
Defined.

End LoaderBuffers.

(** * Names written and read back *)

Module LoaderRoundTrip.
Import Loader LoaderFacts LoaderBuffers.

Lemma strip_trailing_clean e : clean_entry e → strip_trailing e = e.
Proof.
  intros (Hne & _ & Hlast).
  destruct e as [|c e] using rev_ind; [done|].
  apply strip_trailing_other. apply is_eol_false.
  apply Hlast. by rewrite last_snoc.
Qed.

(** A line: a name, perhaps a carriage return, and the newline. *)
Lemma spec_lines_written cr e rest :
  cr = [] ∨ cr = [CR] → writable e →
  spec_lines ((e ++ cr ++ [LF]) ++ rest) = e :: spec_lines rest
  ∧ split_lines ((e ++ cr ++ [LF]) ++ rest) = (e ++ cr) :: split_lines rest.
Proof.
  intros Hcr [Hclean Hnul]. pose proof Hclean as (Hne & Hlf & _).
  assert (LF ∉ e ++ cr) as Htext.
  { apply not_elem_of_app. split; [done|].
    destruct Hcr as [->| ->]; [apply not_elem_of_nil|].
    intros Heq%list_elem_of_singleton. discriminate Heq. }
  replace ((e ++ cr ++ [LF]) ++ rest) with ((e ++ cr) ++ LF :: rest)
    by (by rewrite <-!app_assoc).
  split.
  - rewrite spec_lines_newline by done.
    assert (strip_trailing (e ++ cr) = e) as ->.
    { destruct Hcr as [->| ->].
      - rewrite app_nil_r. by apply strip_trailing_clean.
      - rewrite strip_trailing_eol by done. by apply strip_trailing_clean. }
    by destruct e.
  - rewrite split_lines_app, split_lines_LF by done. simpl.
    by rewrite app_nil_r.
Qed.

Lemma written_lines cr ls :
  cr = [] ∨ cr = [CR] →
  Forall (λ e, writable e ∧ (length e + length cr ≤ 255)%nat) ls →
  spec_lines (written (cr ++ [LF]) ls) = ls
  ∧ Forall (λ line, (length line ≤ 255)%nat)
      (split_lines (written (cr ++ [LF]) ls))
  ∧ (NUL ∉ written (cr ++ [LF]) ls).
Proof.
  intros Hcr. induction 1 as [|e ls [Hname Hlen] Hall (IH1 & IH2 & IH3)].
  { split; [done|]. split; [constructor|apply not_elem_of_nil]. }
  unfold written in *. cbn [fmap list_fmap concat].
  destruct (spec_lines_written cr e
              (concat ((λ name, name ++ cr ++ [LF]) <$> ls)) Hcr Hname)
    as [-> ->].
  split; [by rewrite IH1|]. split.
  - constructor; [by rewrite length_app|done].
  - rewrite !not_elem_of_app. destruct Hname as [_ Hnul].
    split; [|done]. split; [done|]. split.
    + destruct Hcr as [->| ->]; [apply not_elem_of_nil|].
      intros Heq%list_elem_of_singleton. discriminate Heq.
    + intros Heq%list_elem_of_singleton. discriminate Heq.
Qed.

Lemma written_entries alloc cr ls ls' :
  cr = [] ∨ cr = [CR] →
  Forall (λ e, writable e ∧ (length e + length cr ≤ 255)%nat) ls →
  read_lines alloc (Some (written (cr ++ [LF]) ls)) = Some (0, ls') →
  ls' = ls.
Proof.
  intros Hcr Hls.
  destruct (written_lines cr ls Hcr Hls) as (Hspec & Hlen & Hnul).
  unfold read_lines. destruct (alloc 0%nat); [|done].
  destruct (read_loop alloc _ (State [] INITIAL_CAPACITY 1))
    as [[code st]|] eqn:Hloop; [|done].
  simpl. intros [= -> <-].
  by rewrite (read_loop_spec _ _ _ _ Hnul Hlen Hloop), Hspec.
Qed.

(** X7. Names written one per line, with a newline or with a carriage return
    and a newline after each, are what the loader returns for the file:
    no name lost, none changed, none added.  A name is a string of at
    most 255 bytes (254 before a carriage return), not empty, without
    NUL byte and newline, that does not end with a carriage return. *)
Theorem written_names_load_back alloc cr ls :
  cr = [] ∨ cr = [CR] →
  Forall (λ e, writable e ∧ (length e + length cr ≤ 255)%nat) ls →
  (∀ ls', read_lines alloc (Some (written (cr ++ [LF]) ls)) = Some (0, ls')
          → ls' = ls)
  ∧ ((∀ k, alloc k = true) →
     Z.of_nat (length (written (cr ++ [LF]) ls)) ≤ 2 ^ 30 →
     read_lines alloc (Some (written (cr ++ [LF]) ls)) = Some (0, ls)).
Proof.
  intros Hcr Hls. split.
  { intros ls'. by apply written_entries. }
  intros Halloc Hsmall.
  destruct (read_lines_defined alloc _ Hsmall) as (code & ls' & Hread & Hcode).
  rewrite (Hcode Halloc) in Hread. rewrite Hread. do 2 f_equal.
  by apply (written_entries alloc cr).
Qed.

(** X8. What the loader returns can be written back and loaded again: the
    entries of a load, written one per line, load as the same entries. *)
Theorem load_is_idempotent alloc alloc' file code ls ls' :
  read_lines alloc file = Some (code, ls) →
  read_lines alloc' (Some (written [LF] ls)) = Some (0, ls') →
  ls' = ls.
Proof.
  intros Hread.
  apply (written_entries alloc' [] ls); [by left|].
  assert (Forall clean_entry ls) as Hclean.
  { revert Hread. unfold read_lines.
    destruct file as [contents|]; [|by intros [= <- <-]].
    destruct (alloc 0%nat); [|by intros [= <- <-]].
    destruct (read_loop alloc contents (State [] INITIAL_CAPACITY 1))
      as [[c st]|] eqn:Hloop; [|done].
    simpl. intros [= <- <-]. by apply (read_loop_clean _ _ _ _ _ Hloop). }
  assert (Forall (λ e, (1 ≤ length e ≤ 255)%nat ∧ NUL ∉ e) ls) as Hfit.
  { destruct file as [contents|]; [|by injection Hread as <- <-].
    apply read_lines_entries in Hread as [[rest Hrest] _].
    pose proof (entries_bounded contents) as Hall.
    rewrite Hrest in Hall. by apply Forall_app in Hall as [? _]. }
  rewrite list.Forall_forall in Hclean, Hfit. apply list.Forall_forall.
  intros e He. destruct (Hfit e He) as [Hlen Hnul].
  split; [split; [by apply Hclean|done]|]. simpl. lia.
Qed.

(** On a file of nothing but newlines and carriage returns the loop adds
    nothing and makes no request. *)
Lemma read_loop_blank alloc stream : ∀ st,
  Forall (λ c, c = LF ∨ c = CR) stream →
  read_loop alloc stream st = Some (0, st).
Proof.
  by_bytes_left stream. intros st Hblank. rewrite read_loop_unfold.
  destruct (fgets MAX_LINE_LENGTH stream) as [[buffer rest]|] eqn:Hgets;
    [|done].
  apply fgets_Some in Hgets as (Hread & _ & _ & Hlt); [|done].
  rewrite (fgets_read_app _ _ _ _ Hread) in Hblank.
  apply Forall_app in Hblank as [Hbuffer Hrest].
  assert (NUL ∉ buffer) as Hnul.
  { intros Hin. rewrite list.Forall_forall in Hbuffer.
    by destruct (Hbuffer _ Hin). }
  assert (entry buffer = []) as Hentry.
  { rewrite entry_no_NUL by done. by apply strip_trailing_nil. }
  unfold body. apply entry_nil_iff in Hentry. rewrite Hentry. simpl.
  by apply (IH (length rest) Hlt).
Qed.

(** *** These properties on sample files *)

Lemma sample_names_writable :
  Forall (λ e, writable e ∧ (length e + length [CR] ≤ 255)%nat)
    Samples.names.
Proof.
  unfold Samples.names.
  apply List.Forall_cons;
    [|apply List.Forall_cons; [|apply List.Forall_cons; [|constructor]]];
    (split; [split; [split; [done|split]|]|simpl; lia]);
    try (by apply (bool_decide_unpack _));
    intros c [= <-]; by split.
Qed.

Lemma written_names_load_back_sample :
  Forall (λ e, writable e ∧ (length e + length [CR] ≤ 255)%nat)
    Samples.names
  ∧ read_lines Samples.generous (Some (written [CR; LF] Samples.names))
    = Some (0, Samples.names).
Proof.
  split; [exact sample_names_writable|].
  destruct (written_names_load_back Samples.generous [CR] Samples.names
              (or_intror eq_refl) sample_names_writable) as [_ Hload].
  apply Hload; [done|]. vm_compute. discriminate.
Defined.

Lemma load_is_idempotent_sample :
  read_lines Samples.generous (Some Samples.blank_line_file)
  = Some (0, [bytes "alice"; bytes "bob"])
  ∧ read_lines Samples.thrifty
      (Some (written [LF] [bytes "alice"; bytes "bob"]))
    = Some (0, [bytes "alice"; bytes "bob"]).
Proof.
  assert (read_lines Samples.generous (Some Samples.blank_line_file)
          = Some (0, [bytes "alice"; bytes "bob"])) as Hload
    by (vm_compute; reflexivity).
  split; [done|].
  destruct (read_lines Samples.thrifty
              (Some (written [LF] [bytes "alice"; bytes "bob"])))
    as [[code ls']|] eqn:Hagain; [|by vm_compute in Hagain].
  assert (code = 0) as -> by (vm_compute in Hagain; congruence).
  by rewrite (load_is_idempotent Samples.generous Samples.thrifty
                (Some Samples.blank_line_file) 0
                [bytes "alice"; bytes "bob"] ls' Hload Hagain).
Defined.

End LoaderRoundTrip.

(** * The draws of the sampler *)

Module SamplerDraws.
Import Sampler SamplerFacts.

Section moves.
Context {A B : Type} (f : A → B).
Implicit Types (array : list A) (g : rng).

Lemma load_fmap array i : load (f <$> array) i = f <$> load array i.
Proof. unfold load. destruct (0 <=? i); [|done]. apply list_lookup_fmap. Qed.

Lemma store_fmap array i x :
  store (f <$> array) i (f x) = fmap (M := list) f <$> store array i x.
Proof.
  unfold store. rewrite length_fmap. destruct (_ && _); [|done].
  simpl. by rewrite list_fmap_insert.
Qed.

Lemma swap_fmap array i j :
  swap (f <$> array) i j = fmap (M := list) f <$> swap array i j.
Proof.
  unfold swap. rewrite !load_fmap.
  destruct (load array i) as [x|]; [|done].
  destruct (load array j) as [y|]; [|done]. simpl.
  rewrite store_fmap. destruct (store array i y) as [array1|]; [|done].
  simpl. apply store_fmap.
Qed.

Lemma shuffle_from_fmap todo : ∀ array n i g,
  shuffle_from todo (f <$> array) n i g
  = fmap (M := list) f <$> shuffle_from todo array n i g.
Proof.
  induction todo as [|todo IH]; intros array n i g; [done|].
  cbn [shuffle_from]. unfold shuffle_step, rand.
  destruct (int (n - i)) as [d|]; [|done]. cbn [mbind option_bind].
  destruct (d =? 0); [done|].
  destruct (int (i + Z.rem (g 0%nat) d)) as [j|]; [|done].
  cbn [mbind option_bind]. rewrite swap_fmap.
  destruct (swap array i j) as [array'|]; [|done]. simpl.
  destruct (int (i + 1)) as [i'|]; [|done]. simpl. apply IH.
Qed.
End moves.

Section draws.
Context {A : Type}.
Implicit Types (array : list A) (g : rng).

Lemma apply_swaps_fixed array ijs :
  Forall (λ ij : Z * Z, ij.1 = ij.2) ijs → apply_swaps array ijs = array.
Proof.
  unfold apply_swaps. revert array.
  induction ijs as [|ij ijs IH]; intros array Hall; [done|].
  apply Forall_cons_1 in Hall as [Hij Hall]. simpl.
  rewrite Hij, swap_at_same. by apply IH.
Qed.

(** Swaps below [m] leave the cells from [m] on alone, and rearrange the
    cells below [m]. *)
Lemma drop_swap_at array (m a b : nat) :
  (a < m)%nat → (b < m)%nat → drop m (swap_at array a b) = drop m array.
Proof.
  intros Ha Hb. unfold swap_at.
  destruct (array !! a), (array !! b); try done.
  by rewrite !drop_insert_lt by lia.
Qed.

Lemma take_swap_at_below array (m a b : nat) :
  (a < m)%nat → (b < m)%nat →
  take m (swap_at array a b) = swap_at (take m array) a b.
Proof.
  intros Ha Hb. unfold swap_at. rewrite !lookup_take_lt by done.
  destruct (array !! a), (array !! b); try done.
  by rewrite !take_insert_lt by done.
Qed.

Lemma apply_swaps_below (m : nat) ijs : ∀ array,
  Forall (λ ij : Z * Z, 0 ≤ ij.1 < Z.of_nat m ∧ 0 ≤ ij.2 < Z.of_nat m) ijs →
  drop m (apply_swaps array ijs) = drop m array
  ∧ take m (apply_swaps array ijs) ≡ₚ take m array.
Proof.
  unfold apply_swaps.
  induction ijs as [|ij ijs IH]; intros array Hall; [done|].
  apply Forall_cons_1 in Hall as [[Hi Hj] Hall]. simpl.
  destruct (IH (swap_at array (Z.to_nat ij.1) (Z.to_nat ij.2)) Hall)
    as [-> ->].
  split; [apply drop_swap_at; lia|].
  rewrite take_swap_at_below by lia. apply swap_at_perm.
Qed.

(** The first [m] cells after the whole loop are those after its first
    [m] iterations. *)
Lemma take_shuffle_prefix array n (m : nat) g :
  0 ≤ n ≤ INT_MAX → n ≤ Z.of_nat (length array) → draws_within INT_MAX g →
  (m ≤ Z.to_nat (n - 1))%nat →
  take m (apply_swaps array (swap_indices (Z.to_nat (n - 1)) n 0 g))
  = take m (apply_swaps array (swap_indices m n 0 g)).
Proof.
  intros Hn Hlen Hg Hm.
  replace (Z.to_nat (n - 1)) with (m + (Z.to_nat (n - 1) - m))%nat by lia.
  rewrite swap_indices_add, apply_swaps_app. apply take_apply_swaps.
  destruct (shuffle_from_swaps (Z.to_nat (n - 1) - m) array n
              (0 + Z.of_nat m) (λ k, g (m + k)%nat)) as [_ Hall];
    [lia|lia|lia|done|by intros k; apply Hg|].
  eapply Forall_impl; [|exact Hall]. simpl. intros ij ?. lia.
Qed.

End draws.

(** *** Further properties of the sampler *)

Section more_statements.
Context {A : Type}.
Implicit Types (array : list A) (g : rng).

(** X9. The first [N] elements after [shuffle] depend on the first [N]
    values of [rand()] only: two generators that agree on them give the
    same winners in the same order. *)
Theorem winners_need_first_draws array (N : Z) g g' :
  let L := Z.of_nat (length array) in
  0 ≤ N ≤ L → L ≤ INT_MAX →
  draws_within INT_MAX g → draws_within INT_MAX g' →
  (∀ k : nat, Z.of_nat k < N → g k = g' k) →
  take (Z.to_nat N) <$> shuffle array L g
  = take (Z.to_nat N) <$> shuffle array L g'.
Proof.
  intros L HN HL Hg Hg' Hsame.
  destruct (shuffle_defined array L g) as [-> _]; [lia|done|done|].
  destruct (shuffle_defined array L g') as [-> _]; [lia|done|done|].
  simpl. f_equal.
  set (m := Nat.min (Z.to_nat N) (Z.to_nat (L - 1))).
  assert (swap_indices m L 0 g = swap_indices m L 0 g') as Hfirst.
  { apply swap_indices_agree. intros k Hk. rewrite Hsame; [done|lia]. }
  destruct (decide (Z.to_nat N ≤ Z.to_nat (L - 1))%nat) as [Hle|Hgt].
  - replace m with (Z.to_nat N) in Hfirst by lia.
    rewrite !take_shuffle_prefix by (done || lia). by rewrite Hfirst.
  - replace m with (Z.to_nat (L - 1)) in Hfirst by lia. by rewrite Hfirst.
Qed.

(** X10. When every value of [rand()] is a multiple of the number of cells
    still to draw from (a generator that returns [0] every time, for
    one), [shuffle] leaves the array as it is: the winners are the first
    lines of the file. *)
Theorem multiples_keep_order array (n : Z) g :
  0 ≤ n ≤ INT_MAX → n ≤ Z.of_nat (length array) → draws_within INT_MAX g →
  (∀ k : nat, Z.of_nat k < n - 1 → Z.rem (g k) (n - Z.of_nat k) = 0) →
  shuffle array n g = Some array.
Proof.
  intros Hn Hlen Hg Hzero.
  destruct (shuffle_defined array n g) as [-> _]; [done|done|done|].
  f_equal. apply apply_swaps_fixed. apply Forall_lookup_2.
  intros k ij Hk. pose proof (lookup_lt_Some _ _ _ Hk) as Hlt.
  assert (length (swap_indices (Z.to_nat (n - 1)) n 0 g)
          = Z.to_nat (n - 1)) as Hlength.
  { rewrite <-(length_fmap fst), swap_indices_fst, length_seqZ. lia. }
  rewrite Hlength in Hlt. rewrite swap_indices_lookup in Hk by done.
  injection Hk as <-. simpl. rewrite Z.add_0_l, Hzero; lia.
Qed.

(** X11. [shuffle(array, n)] on an array of more than [n] cells rearranges the
    first [n] cells and leaves the others where they are. *)
Theorem shuffle_leaves_the_rest array (n : Z) g array' :
  0 ≤ n ≤ INT_MAX → n ≤ Z.of_nat (length array) → draws_within INT_MAX g →
  shuffle array n g = Some array' →
  take (Z.to_nat n) array' ≡ₚ take (Z.to_nat n) array
  ∧ drop (Z.to_nat n) array' = drop (Z.to_nat n) array.
Proof.
  intros Hn Hlen Hg.
  destruct (shuffle_defined array n g) as [-> Hall]; [done|done|done|].
  intros [= <-].
  destruct (apply_swaps_below (Z.to_nat n)
              (swap_indices (Z.to_nat (n - 1)) n 0 g) array) as [? ?];
    [|done].
  eapply Forall_impl; [|exact Hall]. simpl. intros ij ?. lia.
Qed.

End more_statements.

Section fairness.
Context `{EqDecision A}.
Implicit Types (array : list A).

Lemma take_1_swap_at array (j : nat) y :
  array !! j = Some y → take 1 (swap_at array 0 j) = [y].
Proof.
  destruct array as [|x l]; [done|]. intros Hj. rewrite swap_at_pick.
  destruct (pick_spec x l j) as [Hfirst _].
  { apply lookup_lt_Some in Hj. simpl in Hj. lia. }
  rewrite Hj in Hfirst. by injection Hfirst as <-.
Qed.

(** On an array without duplicates, the element at position [k] comes
    first exactly when the first draw leaves the remainder [k]. *)
Lemma first_winner_residue array r (k : nat) x :
  NoDup array → array !! k = Some x → 0 ≤ r →
  bool_decide
    (take 1 (swap_at array 0
               (Z.to_nat (Z.rem r (Z.of_nat (length array))))) = [x])
  = (r mod Z.of_nat (length array) =? Z.of_nat k).
Proof.
  intros Hdup Hk Hr. pose proof (lookup_lt_Some _ _ _ Hk) as Hlt.
  rewrite Z.rem_mod_nonneg by lia.
  pose proof (Z.mod_pos_bound r (Z.of_nat (length array)) ltac:(lia)) as Hmod.
  destruct (lookup_lt_is_Some_2 array
              (Z.to_nat (r mod Z.of_nat (length array)))) as [y Hy]; [lia|].
  rewrite (take_1_swap_at _ _ _ Hy).
  destruct (Z.eqb_spec (r mod Z.of_nat (length array)) (Z.of_nat k))
    as [Heq|Hne].
  - rewrite Heq, Nat2Z.id in Hy. apply bool_decide_eq_true. congruence.
  - apply bool_decide_eq_false. intros [= ->].
    pose proof (NoDup_lookup _ _ _ _ Hdup Hk Hy). lia.
Qed.

Lemma count_first RAND_MAX array (k m : nat) x :
  0 ≤ RAND_MAX ≤ INT_MAX → NoDup array →
  Z.of_nat (length array) ≤ INT_MAX → array !! k = Some x →
  count_draws RAND_MAX (S m) (winners_are array 1 [x])
  = (RAND_MAX + 1) ^ Z.of_nat m
    * residues (Z.of_nat (length array)) (Z.of_nat k) (RAND_MAX + 1).
Proof.
  intros HR Hdup HL Hk. pose proof (lookup_lt_Some _ _ _ Hk) as Hlt.
  rewrite count_first_winner by int_range.
  rewrite (sumZ_ext _ (λ r, if r mod Z.of_nat (length array) =? Z.of_nat k
                            then (RAND_MAX + 1) ^ Z.of_nat m else 0)).
  2:{ intros r Hr%elem_of_draw_values; [|lia].
      by rewrite (first_winner_residue array r k x) by (done || lia). }
  unfold draw_values. rewrite sum_residues by lia.
  rewrite Z.add_0_l, Z2Nat.id by lia.
  unfold residues at 2. rewrite Z.mod_0_l, Z.div_0_l by lia.
  destruct (Z.ltb_spec (Z.of_nat k) 0); lia.
Qed.

(** X13. The first winner is drawn fairly exactly when the number of
    participants divides the number of values of [rand()]: on a list
    without duplicates, each participant comes first for the same number
    of sequences of draws if and only if [RAND_MAX + 1] is a multiple of
    the length of the list. *)
Theorem first_winner_fair_iff RAND_MAX array :
  0 ≤ RAND_MAX ≤ INT_MAX → NoDup array →
  1 ≤ Z.of_nat (length array) ≤ INT_MAX →
  equally_likely RAND_MAX array 1
  ↔ (RAND_MAX + 1) mod Z.of_nat (length array) = 0.
Proof.
  intros HR Hdup HL. destruct array as [|a0 [|a1 l]]; [simpl in HL; lia| |].
  { split; [intros _; apply Z.mod_1_r|].
    intros _ w1 w2 Hl1 Hl2 _ _ Hs1 Hs2.
    destruct w1 as [|x1 [|? ?]]; try done.
    destruct w2 as [|x2 [|? ?]]; try done.
    assert (x1 = a0) as ->.
    { apply list_elem_of_singleton, Hs1, list_elem_of_here. }
    assert (x2 = a0) as ->.
    { apply list_elem_of_singleton, Hs2, list_elem_of_here. }
    done. }
  set (array := a0 :: a1 :: l) in *.
  assert (length array - 1 = S (length l))%nat as Hdraws by (simpl; lia).
  pose proof (Z.mod_pos_bound (RAND_MAX + 1) (Z.of_nat (length array))
                ltac:(lia)) as Hbound.
  assert (0 < (RAND_MAX + 1) ^ Z.of_nat (length l)) as Hpow
    by (apply Z.pow_pos_nonneg; lia).
  split.
  - intros Hfair.
    destruct (lookup_lt_is_Some_2 array (length array - 1)) as [z Hz];
      [simpl; lia|].
    assert (array !! 0%nat = Some a0) as H0 by done.
    assert ([a0] ⊆ array) as Hs0.
    { intros x ->%list_elem_of_singleton. by eapply list_elem_of_lookup_2. }
    assert ([z] ⊆ array) as Hsz.
    { intros x ->%list_elem_of_singleton. by eapply list_elem_of_lookup_2. }
    specialize (Hfair [a0] [z] eq_refl eq_refl (NoDup_singleton _)
                  (NoDup_singleton _) Hs0 Hsz).
    rewrite Hdraws in Hfair.
    rewrite (count_first RAND_MAX array 0 _ a0) in Hfair by (done || lia).
    rewrite (count_first RAND_MAX array (length array - 1) _ z) in Hfair
      by (done || lia).
    apply Z.mul_reg_l in Hfair; [|lia]. unfold residues in Hfair.
    destruct (Z.ltb_spec (Z.of_nat 0)
                ((RAND_MAX + 1) mod Z.of_nat (length array)));
      destruct (Z.ltb_spec (Z.of_nat (length array - 1))
                  ((RAND_MAX + 1) mod Z.of_nat (length array))); lia.
  - intros Hmod w1 w2 Hl1 Hl2 _ _ Hs1 Hs2.
    destruct w1 as [|x1 [|? ?]]; try done.
    destruct w2 as [|x2 [|? ?]]; try done.
    assert (x1 ∈ array) as [k1 Hk1]%list_elem_of_lookup_1
      by apply Hs1, list_elem_of_here.
    assert (x2 ∈ array) as [k2 Hk2]%list_elem_of_lookup_1
      by apply Hs2, list_elem_of_here.
    rewrite Hdraws.
    rewrite (count_first RAND_MAX array k1 _ x1) by (done || lia).
    rewrite (count_first RAND_MAX array k2 _ x2) by (done || lia).
    unfold residues. rewrite Hmod.
    destruct (Z.ltb_spec (Z.of_nat k1) 0), (Z.ltb_spec (Z.of_nat k2) 0); lia.
Qed.

End fairness.

(** *** These properties on sample draws *)

Lemma winners_need_first_draws_sample :
  take 1 <$> shuffle Samples.names 3 (replay [5; 7])
  = take 1 <$> shuffle Samples.names 3 (replay [5; 8])
  ∧ shuffle Samples.names 3 (replay [5; 7])
    = Some [bytes "carol"; bytes "alice"; bytes "bob"]
  ∧ shuffle Samples.names 3 (replay [5; 8])
    = Some [bytes "carol"; bytes "bob"; bytes "alice"].
Proof.
  split; [|split; reflexivity].
  apply (winners_need_first_draws Samples.names 1 (replay [5; 7])
           (replay [5; 8])).
  - simpl. lia.
  - simpl. unfold INT_MAX. lia.
  - intros [|[|[|k]]]; vm_compute; by split.
  - intros [|[|[|k]]]; vm_compute; by split.
  - intros [|k] Hk; [done|lia].
Defined.

Lemma multiples_keep_order_sample :
  shuffle Samples.names 3 (replay [6; 4]) = Some Samples.names.
Proof.
  apply (multiples_keep_order Samples.names 3 (replay [6; 4])).
  - unfold INT_MAX. lia.
  - simpl. lia.
  - intros [|[|[|k]]]; vm_compute; by split.
  - intros [|[|k]] Hk; [done|done|lia].
Defined.

Lemma shuffle_leaves_the_rest_sample :
  shuffle Samples.names 2 Samples.draws
  = Some [bytes "bob"; bytes "alice"; bytes "carol"]
  ∧ take 2 [bytes "bob"; bytes "alice"; bytes "carol"]
    ≡ₚ take 2 Samples.names
  ∧ drop 2 [bytes "bob"; bytes "alice"; bytes "carol"]
    = drop 2 Samples.names.
Proof.
  assert (shuffle Samples.names 2 Samples.draws
          = Some [bytes "bob"; bytes "alice"; bytes "carol"]) as Hshuffle
    by (vm_compute; reflexivity).
  split; [done|].
  apply (shuffle_leaves_the_rest Samples.names 2 Samples.draws).
  - unfold INT_MAX. lia.
  - simpl. lia.
  - apply sample_draws_within.
  - exact Hshuffle.
Defined.

Lemma first_winner_fair_iff_sample :
  NoDup Samples.pair_of_names
  ∧ (equally_likely 32767 Samples.pair_of_names 1 ↔ 32768 mod 2 = 0).
Proof.
  assert (NoDup Samples.pair_of_names) as Hdup
    by (by apply (bool_decide_unpack _)).
  split; [done|].
  apply (first_winner_fair_iff 32767 Samples.pair_of_names).
  - unfold INT_MAX. lia.
  - exact Hdup.
  - simpl. unfold INT_MAX. lia.
Defined.

End SamplerDraws.

(** * The runs of the command line *)

Module CliRuns.
Import Sampler Loader Cli SamplerFacts LoaderFacts CliFacts.

(** *** The moves of [shuffle], whatever [rand()] returns *)

Section moves.
Context {A : Type}.
Implicit Types (array : list A) (g : rng).

Lemma swap_Some array i j array' :
  swap array i j = Some array' →
  array' = swap_at array (Z.to_nat i) (Z.to_nat j).
Proof.
  unfold swap, load, store, swap_at.
  destruct (0 <=? i); [|done].
  destruct (array !! Z.to_nat i) as [x|]; [|done]. simpl.
  destruct (0 <=? j); [|done].
  destruct (array !! Z.to_nat j) as [y|]; [|done]. simpl.
  destruct (i <? _); [|done]. simpl. destruct (j <? _); [|done].
  by intros [= <-].
Qed.

Lemma shuffle_from_Some todo : ∀ array n i g array',
  shuffle_from todo array n i g = Some array' →
  ∃ ijs, array' = apply_swaps array ijs.
Proof.
  induction todo as [|todo IH]; intros array n i g array'.
  { intros [= <-]. by exists []. }
  cbn [shuffle_from]. unfold shuffle_step, rand.
  destruct (int (n - i)) as [d|]; [|done]. cbn [mbind option_bind].
  destruct (d =? 0); [done|].
  destruct (int (i + Z.rem (g 0%nat) d)) as [j|]; [|done].
  cbn [mbind option_bind].
  destruct (swap array i j) as [array1|] eqn:Hswap; [|done]. simpl.
  destruct (int (i + 1)) as [i'|]; [|done]. simpl.
  intros [ijs ->]%IH. apply swap_Some in Hswap as ->.
  by exists ((i, j) :: ijs).
Qed.

(** Whenever [shuffle] is defined, each cell of what it returns comes
    from a cell of the array, and these cells of origin are all the
    positions, each once. *)
Lemma shuffle_Some_origin array n g array' :
  shuffle array n g = Some array' →
  ∃ origin, origin ≡ₚ seq 0 (length array)
            ∧ Forall2 (λ x p, array !! p = Some x) array' origin.
Proof.
  unfold shuffle. destruct (int (n - 1)) as [bound|]; [|done]. simpl.
  intros [ijs ->]%shuffle_from_Some. eexists.
  apply (apply_swaps_origin array ijs).
Qed.
End moves.

(** *** What the run prints *)

Lemma debug_dump_stdout ls n :
  Forall (λ line : fd * list byte, line.1 = stdout) (debug_dump ls n).
Proof.
  unfold debug_dump. constructor; [done|]. apply Forall_app. split.
  - apply Forall_lookup_2. intros k line Hk.
    apply list_lookup_imap_Some in Hk as (name & _ & ->). done.
  - by constructor.
Qed.

Lemma winner_lines_stdout (names : list (list byte)) :
  Forall (λ line : fd * list byte, line.1 = stdout)
    (imap (λ k name, winner_line (Z.of_nat k + 1) name) names).
Proof.
  apply Forall_lookup_2. intros k line Hk.
  apply list_lookup_imap_Some in Hk as (name & _ & ->). done.
Qed.

(** *** Further properties of the command line *)

(** X14. What [printf] writes for [%d] is read back by [atoi] as the same
    number, for every [int]. *)
Theorem atoi_decimal z : INT_MIN ≤ z ≤ INT_MAX → atoi (decimal z) = Some z.
Proof.
  intros Hz. unfold decimal.
  destruct z as [|p|p]; cbn [Z.to_int NilZero.string_of_int]; [done| |].
  - destruct (digits_to_uint p) as (Hd & Hall & Hne).
    pose proof (atoi_digits _ [] Hne Hall I) as Hatoi.
    rewrite app_nil_r in Hatoi. rewrite Hatoi, Hd. by apply int_in_range.
  - destruct (digits_to_uint p) as (Hd & _ & _).
    change (bytes (String "-" ?s)) with ("-"%byte :: bytes s).
    destruct (atoi_signed
                (bytes (NilZero.string_of_uint (Pos.to_uint p))))
      as [_ ->].
    rewrite Hd. by apply int_in_range.
Qed.

(** X15. White space before the number and a plus sign are read over: the run
    is the one for the bare number.  After a minus sign the count, when
    it fits an [int], is read as the negated number: it is not positive,
    and the run ends with the error about the count. *)
Theorem atoi_space_and_sign env prog file ws ds :
  Forall (λ c, isspace c = true) ws → ds ≠ [] → all_digits ds →
  atoi (ws ++ ds) = atoi ds
  ∧ atoi (ws ++ "+"%byte :: ds) = atoi ds
  ∧ main env prog [file; ws ++ ds] = main env prog [file; ds]
  ∧ main env prog [file; ws ++ "+"%byte :: ds] = main env prog [file; ds]
  ∧ (INT_MIN ≤ - digits 0 ds →
     atoi (ws ++ "-"%byte :: ds) = Some (- digits 0 ds)
     ∧ main env prog [file; ws ++ "-"%byte :: ds]
       = Some (1, [error_winner_count])).
Proof.
  intros Hws Hne Hds.
  pose proof (atoi_digits ds [] Hne Hds I) as Hatoi.
  rewrite app_nil_r in Hatoi.
  destruct (atoi_signed ds) as [Hplus Hminus].
  assert (atoi (ws ++ ds) = atoi ds) as H1 by (by apply atoi_skip_spaces).
  assert (atoi (ws ++ "+"%byte :: ds) = atoi ds) as H2.
  { rewrite atoi_skip_spaces by done. congruence. }
  split; [done|]. split; [done|].
  rewrite !main_two_arguments, H1, H2. split; [done|]. split; [done|].
  rewrite atoi_skip_spaces, Hminus by done. intros Hrange.
  pose proof (digits_nonneg ds 0 ltac:(lia)).
  rewrite int_in_range by int_range. split; [done|].
  cbn [mbind option_bind].
  by destruct (Z.leb_spec (- digits 0 ds) 0); [|lia].
Qed.

(** X16. A run that succeeds has printed, on the standard output and nothing
    on the standard error, the header and then one line for each of the
    [N] winners, ranked from [1] to [N], and a blank line; the winners
    are entries of the file taken from [N] different positions of the
    loaded list. *)
Theorem winners_printed env prog args out :
  main env prog args = Some (0, out) →
  ∃ file arg N ls names positions,
    args = [file; arg] ∧ atoi arg = Some N
    ∧ read_lines (heap env) (files env file) = Some (0, ls)
    ∧ 1 ≤ N ≤ Z.of_nat (length ls)
    ∧ length names = Z.to_nat N
    ∧ Forall2 (λ name p, ls !! p = Some name) names positions
    ∧ NoDup positions
    ∧ out = (if DEBUG env
             then debug_dump ls (Z.of_nat (length ls))
                    ++ debug_dump ls (Z.of_nat (length ls))
             else [])
            ++ [header N (Z.of_nat (length ls))]
            ++ imap (λ k name, winner_line (Z.of_nat k + 1) name) names
            ++ [(stdout, [LF])]
    ∧ Forall (λ line, line.1 = stdout) out.
Proof.
  intros Hmain. apply main_inv in Hmain.
  destruct Hmain as [(_ & ? & _)|(file & arg & N & -> & Hatoi & Hmain)];
    [done|].
  destruct Hmain as [(_ & ? & _)|(HN & result & ls & Hread & Hmain)]; [done|].
  destruct Hmain as [(_ & _ & ? & _)|[(_ & ? & _)|[(_ & _ & ? & _)|
    [(_ & _ & _ & ? & _)|(-> & Hne & Hge & _ & shuffled & Hsh & Hlen & ->)]]]];
    try done.
  destruct (shuffle_Some_origin _ _ _ _ Hsh) as (origin & Hperm & Hall).
  exists file, arg, N, ls, (take (Z.to_nat N) shuffled),
    (take (Z.to_nat N) origin).
  split; [done|]. split; [done|]. split; [done|]. split; [lia|].
  split; [rewrite length_take; lia|]. split; [by apply Forall2_take|].
  split.
  { eapply sublist_NoDup; [|apply sublist_take].
    rewrite Hperm. apply NoDup_seq. }
  split; [done|]. unfold success_output.
  apply Forall_app. split.
  { destruct (DEBUG env); [|done].
    apply Forall_app. split; apply debug_dump_stdout. }
  constructor; [done|]. apply Forall_app. split; [|by constructor].
  apply winner_lines_stdout.
Qed.

(** X17. Compiling with [DEBUG] changes neither the exit status nor the draw:
    a run that ends with an error prints the same, and a run that
    succeeds prints, before what it prints without [DEBUG], the list of
    the participants as loaded, twice (the source holds the block
    twice); both on the standard output. *)
Theorem debug_only_adds_a_dump env prog args :
  let quiet :=
    Environment (files env) (heap env) (clock env) (generator env) false in
  let loud :=
    Environment (files env) (heap env) (clock env) (generator env) true in
  match main quiet prog args with
  | None => main loud prog args = None
  | Some (code, out) =>
      ∃ dump,
        main loud prog args = Some (code, dump ++ out)
        ∧ Forall (λ line, line.1 = stdout) dump
        ∧ (code ≠ 0 → dump = [])
        ∧ (code = 0 →
           ∃ file arg ls,
             args = [file; arg]
             ∧ read_lines (heap env) (files env file) = Some (0, ls)
             ∧ dump = debug_dump ls (Z.of_nat (length ls))
                      ++ debug_dump ls (Z.of_nat (length ls)))
  end.
Proof.
  intros quiet loud.
  destruct (decide (length args = 2%nat)) as [Hlen|Hlen].
  2:{ rewrite !main_other_arguments by done. by exists []. }
  destruct args as [|file [|arg [|more args]]]; try done. clear Hlen.
  rewrite !main_two_arguments. cbn [files heap clock generator DEBUG quiet loud].
  destruct (atoi arg) as [N|]; [|done]. cbn [mbind option_bind].
  destruct (N <=? 0); [by exists []|].
  destruct (read_lines (heap env) (files env file)) as [[result ls]|]
    eqn:Hread; [|done].
  cbn [mbind option_bind].
  destruct (Z.eqb_spec result (-1)); [by exists []|].
  destruct (Z.eqb_spec result (-2)); [by exists []|].
  destruct (Z.of_nat (length ls) =? 0); [by exists []|].
  destruct (Z.of_nat (length ls) <? N); [by exists []|].
  destruct (shuffle ls _ _) as [shuffled|]; [|done].
  cbn [mbind option_bind].
  destruct (print_winners _ _ _) as [winners|]; [|done].
  cbn [mbind option_bind]. eexists. split; [done|].
  split; [apply Forall_app; split; apply debug_dump_stdout|].
  split; [done|]. intros _. exists file, arg, ls. split; [done|].
  split; [|done].
  by destruct (read_lines_codes _ _ _ _ Hread)
    as [_ [(? & _)|[(? & _)|(-> & _)]]].
Qed.

(** X18. A file of nothing but newlines and carriage returns, of any size,
    is refused: the loop of the loader ends with no entry and without a
    request of its own (the array is all the loader asked for), and the
    run ends with the error about the file, or with the error about
    memory when the array is refused. *)
Theorem blank_file_is_refused env prog file arg N contents :
  atoi arg = Some N → 0 < N → files env file = Some contents →
  Forall (λ c, c = LF ∨ c = CR) contents →
  main env prog [file; arg]
  = Some (1, [if heap env 0%nat then error_empty file else error_memory])
  ∧ read_loop (heap env) contents (State [] INITIAL_CAPACITY 1)
    = Some (0, State [] INITIAL_CAPACITY 1).
Proof.
  intros Hatoi HN Hfile Hblank.
  pose proof (LoaderRoundTrip.read_loop_blank (heap env) contents
                (State [] INITIAL_CAPACITY 1) Hblank) as Hloop.
  split; [|exact Hloop].
  rewrite main_two_arguments, Hatoi. cbn [mbind option_bind].
  destruct (Z.leb_spec N 0); [lia|]. rewrite Hfile. unfold read_lines.
  destruct (heap env 0%nat); [|done].
  by rewrite Hloop.
Qed.

(** X19. The ranking does not depend on the number of winners asked for: two
    runs that succeed on the same file at the same time print the first
    names of the same shuffled list, so the run for fewer winners prints
    the first winners of the run for more. *)
Theorem fewer_winners_same_ranking env prog file arg arg' out out' :
  main env prog [file; arg] = Some (0, out) →
  main env prog [file; arg'] = Some (0, out') →
  ∃ N N' ls shuffled,
    atoi arg = Some N ∧ atoi arg' = Some N'
    ∧ out = success_output env N ls shuffled
    ∧ out' = success_output env N' ls shuffled
    ∧ (N ≤ N' →
       take (Z.to_nat N) shuffled
       = take (Z.to_nat N) (take (Z.to_nat N') shuffled)).
Proof.
  intros Hmain Hmain'. apply main_inv in Hmain, Hmain'.
  destruct Hmain as [(? & _)|(f & a & N & [= <- <-] & Hatoi & Hmain)];
    [done|].
  destruct Hmain' as [(? & _)|(f' & a' & N' & [= <- <-] & Hatoi' & Hmain')];
    [done|].
  destruct Hmain as [(_ & ? & _)|(HN & result & ls & Hread & Hmain)]; [done|].
  destruct Hmain' as [(_ & ? & _)|(HN' & result' & ls' & Hread' & Hmain')];
    [done|].
  rewrite Hread in Hread'. injection Hread' as <- <-.
  destruct Hmain as [(_ & _ & ? & _)|[(_ & ? & _)|[(_ & _ & ? & _)|
    [(_ & _ & _ & ? & _)|(-> & _ & _ & _ & shuffled & Hsh & _ & ->)]]]];
    try done.
  destruct Hmain' as [(_ & _ & ? & _)|[(_ & ? & _)|[(_ & _ & ? & _)|
    [(_ & _ & _ & ? & _)|(_ & _ & _ & _ & shuffled' & Hsh' & _ & ->)]]]];
    try done.
  rewrite Hsh in Hsh'. injection Hsh' as <-.
  exists N, N', ls, shuffled. split; [done|]. split; [done|].
  split; [done|]. split; [done|]. intros Hle.
  by rewrite take_take, Nat.min_l by lia.
Qed.

(** *** These properties on sample runs *)

Lemma atoi_decimal_sample :
  INT_MIN ≤ -42 ≤ INT_MAX ∧ atoi (decimal (-42)) = Some (-42).
Proof.
  assert (INT_MIN ≤ -42 ≤ INT_MAX) as Hrange by (by vm_compute).
  split; [done|]. exact (atoi_decimal (-42) Hrange).
Defined.

Lemma atoi_space_and_sign_sample :
  Forall (λ c, isspace c = true) [" "%byte; x09]
  ∧ all_digits (bytes "2")
  ∧ main Samples.machine (bytes "random-winners")
      [bytes "draw.txt"; [" "%byte; x09; "+"%byte; "2"%byte]]
    = main Samples.machine (bytes "random-winners")
        [bytes "draw.txt"; bytes "2"]
  ∧ main Samples.machine (bytes "random-winners")
      [bytes "draw.txt"; [" "%byte; x09; "-"%byte; "2"%byte]]
    = Some (1, [error_winner_count]).
Proof.
  assert (Forall (λ c, isspace c = true) [" "%byte; x09]) as Hws
    by (by repeat constructor).
  assert (all_digits (bytes "2")) as Hds
    by (constructor; [by eexists|constructor]).
  assert (bytes "2" ≠ []) as Hne by done.
  split; [done|]. split; [done|].
  destruct (atoi_space_and_sign Samples.machine (bytes "random-winners")
              (bytes "draw.txt") [" "%byte; x09] (bytes "2") Hws Hne Hds)
    as (_ & _ & _ & Hplus & Hminus).
  split; [exact Hplus|]. apply Hminus. vm_compute. discriminate.
Defined.

Lemma winners_printed_sample :
  main Samples.machine (bytes "random-winners") [bytes "draw.txt"; bytes "2"]
  = Some (0, success_output Samples.machine 2 Samples.names
               [bytes "carol"; bytes "alice"; bytes "bob"])
  ∧ ∃ file arg N ls names positions,
      [bytes "draw.txt"; bytes "2"] = [file; arg] ∧ atoi arg = Some N
      ∧ read_lines (heap Samples.machine) (files Samples.machine file)
        = Some (0, ls)
      ∧ 1 ≤ N ≤ Z.of_nat (length ls)
      ∧ length names = Z.to_nat N
      ∧ Forall2 (λ name p, ls !! p = Some name) names positions
      ∧ NoDup positions
      ∧ success_output Samples.machine 2 Samples.names
          [bytes "carol"; bytes "alice"; bytes "bob"]
        = (if DEBUG Samples.machine
           then debug_dump ls (Z.of_nat (length ls))
                  ++ debug_dump ls (Z.of_nat (length ls))
           else [])
          ++ [header N (Z.of_nat (length ls))]
          ++ imap (λ k name, winner_line (Z.of_nat k + 1) name) names
          ++ [(stdout, [LF])]
      ∧ Forall (λ line, line.1 = stdout)
          (success_output Samples.machine 2 Samples.names
             [bytes "carol"; bytes "alice"; bytes "bob"]).
Proof.
  assert (main Samples.machine (bytes "random-winners")
            [bytes "draw.txt"; bytes "2"]
          = Some (0, success_output Samples.machine 2 Samples.names
                       [bytes "carol"; bytes "alice"; bytes "bob"]))
    as Hmain by (vm_compute; reflexivity).
  split; [done|].
  exact (winners_printed Samples.machine (bytes "random-winners")
           [bytes "draw.txt"; bytes "2"] _ Hmain).
Defined.

Lemma blank_file_is_refused_sample :
  Forall (λ c, c = LF ∨ c = CR) Samples.blank_only_file
  ∧ main Samples.blank_machine (bytes "random-winners")
      [bytes "blank.txt"; bytes "2"]
    = Some (1, [error_empty (bytes "blank.txt")])
  ∧ read_loop Samples.generous Samples.blank_only_file
      (State [] INITIAL_CAPACITY 1)
    = Some (0, State [] INITIAL_CAPACITY 1).
Proof.
  assert (Forall (λ c, c = LF ∨ c = CR) Samples.blank_only_file) as Hblank
    by (repeat constructor; by (left + right)).
  split; [done|].
  apply (blank_file_is_refused Samples.blank_machine
           (bytes "random-winners") (bytes "blank.txt") (bytes "2") 2
           Samples.blank_only_file); [reflexivity|lia|reflexivity|exact Hblank].
Defined.

Lemma fewer_winners_same_ranking_sample :
  main Samples.machine (bytes "random-winners") [bytes "draw.txt"; bytes "1"]
  = Some (0, success_output Samples.machine 1 Samples.names
               [bytes "carol"; bytes "alice"; bytes "bob"])
  ∧ main Samples.machine (bytes "random-winners")
      [bytes "draw.txt"; bytes "2"]
    = Some (0, success_output Samples.machine 2 Samples.names
                 [bytes "carol"; bytes "alice"; bytes "bob"])
  ∧ ∃ N N' ls shuffled,
      atoi (bytes "1") = Some N ∧ atoi (bytes "2") = Some N'
      ∧ success_output Samples.machine 1 Samples.names
          [bytes "carol"; bytes "alice"; bytes "bob"]
        = success_output Samples.machine N ls shuffled
      ∧ success_output Samples.machine 2 Samples.names
          [bytes "carol"; bytes "alice"; bytes "bob"]
        = success_output Samples.machine N' ls shuffled
      ∧ (N ≤ N' →
         take (Z.to_nat N) shuffled
         = take (Z.to_nat N) (take (Z.to_nat N') shuffled)).
Proof.
  assert (main Samples.machine (bytes "random-winners")
            [bytes "draw.txt"; bytes "1"]
          = Some (0, success_output Samples.machine 1 Samples.names
                       [bytes "carol"; bytes "alice"; bytes "bob"]))
    as Hone by (vm_compute; reflexivity).
  assert (main Samples.machine (bytes "random-winners")
            [bytes "draw.txt"; bytes "2"]
          = Some (0, success_output Samples.machine 2 Samples.names
                       [bytes "carol"; bytes "alice"; bytes "bob"]))
    as Htwo by (vm_compute; reflexivity).
  split; [done|]. split; [done|].
  exact (fewer_winners_same_ranking Samples.machine (bytes "random-winners")
           (bytes "draw.txt") (bytes "1") (bytes "2") _ _ Hone Htwo).
Defined.

End CliRuns.

(** * The heap and the stream *)

Module HeapFacts.
Import Sampler Cli Heap LoaderFacts LoaderBuffers.

Implicit Types (h : memory) (v : locals) (a b : nat) (addrs : list nat)
  (spare : list (option ptr)) (ls : list (list byte)).

(** *** Blocks that are there *)

Lemma live_lt (bs : list (option block)) b :
  is_Some (mjoin (bs !! b)) → (b < length bs)%nat.
Proof.
  intros [blk Hb]. apply lookup_lt_is_Some.
  destruct (bs !! b); [by eexists|done].
Qed.

Lemma string_at_lt h b s : string_at h b s → (b < length (blocks h))%nat.
Proof. intros Hb. by apply lookup_lt_Some in Hb. Qed.

Lemma holds_count h a addrs spare ls :
  holds h a addrs spare ls → length addrs = length ls.
Proof. intros (_ & _ & Hall & _). by apply Forall2_length in Hall. Qed.

Lemma holds_lt h a addrs spare ls :
  holds h a addrs spare ls →
  (a < length (blocks h))%nat
  ∧ Forall (λ b, (b < length (blocks h))%nat ∧ b ≠ a) addrs.
Proof.
  intros (Ha & Hdup & Hall & _). split; [by apply lookup_lt_Some in Ha|].
  apply list.NoDup_cons in Hdup as [Hnotin _].
  apply list.Forall_forall. intros b Hb. split; [|by intros ->].
  apply list_elem_of_lookup_1 in Hb as [k Hk].
  destruct (Forall2_lookup_l _ _ _ _ _ Hall Hk) as (s & _ & Hs).
  by apply string_at_lt in Hs.
Qed.

(** The strings stay where they are when the heap changes elsewhere. *)
Lemma strings_kept h h' addrs ls :
  Forall2 (string_at h) addrs ls →
  (∀ b, b ∈ addrs → blocks h' !! b = blocks h !! b) →
  Forall2 (string_at h') addrs ls.
Proof.
  intros Hall Hsame. apply Forall2_same_length_lookup.
  apply Forall2_same_length_lookup in Hall as [Hlen Hall].
  split; [done|]. intros i b s Hb Hs. unfold string_at.
  rewrite Hsame; [by apply (Hall i)|by eapply list_elem_of_lookup_2].
Qed.

(** *** One iteration of the loop, with and without the heap *)

Lemma fclose_open h :
  streams h = 1%nat → fclose h = Some (Memory (blocks h) 0 (asked h)).
Proof. unfold fclose. by intros ->. Qed.

Lemma cells_at_holds h a addrs spare ls :
  holds h a addrs spare ls →
  cells_at h (Addr a) = Some (a, (Some ∘ Addr <$> addrs) ++ spare).
Proof. intros (Ha & _). unfold cells_at, array_at in *. by rewrite Ha. Qed.

(** The array may change its spare cells, in place or in a new block. *)
Lemma holds_array h a addrs spare ls spare' (moved : bool) n k :
  holds h a addrs spare ls →
  let cells := (Some ∘ Addr <$> addrs) ++ spare' in
  let h' :=
    if moved
    then Memory (<[a := None]> (blocks h) ++ [Some (Pointers cells)]) n k
    else Memory (<[a := Some (Pointers cells)]> (blocks h)) n k in
  holds h' (if moved then length (blocks h) else a) addrs spare' ls.
Proof.
  intros Hh cells h'. pose proof (holds_lt _ _ _ _ _ Hh) as [Ha Haddrs].
  destruct Hh as (Hcells & Hdup & Hall & Hlive). unfold holds, array_at in *.
  apply list.NoDup_cons in Hdup as [Hnotin Hdup].
  rewrite list.Forall_forall in Haddrs.
  destruct moved; simpl.
  - split; [|split; [|split]].
    + rewrite lookup_app_r by (by rewrite length_insert).
      by rewrite length_insert, Nat.sub_diag.
    + apply list.NoDup_cons. split; [|done]. intros Hin.
      apply Haddrs in Hin. lia.
    + apply (strings_kept h); [done|]. intros b Hb.
      destruct (Haddrs b Hb) as [Hlt Hne]. simpl.
      rewrite lookup_app_l by (by rewrite length_insert).
      by rewrite list_lookup_insert_ne.
    + intros b Hb. pose proof (live_lt _ _ Hb) as Hlt.
      rewrite length_app, length_insert in Hlt. simpl in Hlt.
      destruct (decide (b = length (blocks h))) as [->|Hne];
        [apply list_elem_of_here|].
      apply list_elem_of_further.
      rewrite lookup_app_l in Hb by (rewrite length_insert; lia).
      destruct (decide (b = a)) as [->|Hba].
      { rewrite list_lookup_insert_eq in Hb by done. by destruct Hb. }
      rewrite list_lookup_insert_ne in Hb by done.
      apply Hlive in Hb. by apply elem_of_cons in Hb as [?|?].
  - split; [|split; [|split]].
    + by rewrite list_lookup_insert_eq.
    + by apply list.NoDup_cons.
    + apply (strings_kept h); [done|]. intros b Hb.
      destruct (Haddrs b Hb) as [Hlt Hne]. simpl.
      by rewrite list_lookup_insert_ne.
    + intros b Hb. destruct (decide (b = a)) as [->|Hba];
        [apply list_elem_of_here|].
      rewrite list_lookup_insert_ne in Hb by done. by apply Hlive.
Qed.

(** A string in a new block, and its address in the first spare cell. *)
Lemma holds_appended h a addrs c spare ls s fresh n k :
  holds h a addrs (c :: spare) ls →
  let b := length (blocks h) in
  holds
    (Memory
       (<[b := Some (Chars (S (length s)) (Some s))]>
          (<[a := Some (Pointers
                          ((Some ∘ Addr <$> addrs ++ [b]) ++ spare))]>
             (blocks h ++ [fresh])))
       n k)
    a (addrs ++ [b]) spare (ls ++ [s]).
Proof.
  intros Hh b. pose proof (holds_lt _ _ _ _ _ Hh) as [Ha Haddrs].
  destruct Hh as (Hcells & Hdup & Hall & Hlive). unfold holds, array_at in *.
  apply list.NoDup_cons in Hdup as [Hnotin Hdup].
  rewrite list.Forall_forall in Haddrs.
  assert (b ≠ a) as Hba by (unfold b; lia).
  assert (b ∉ addrs) as Hfresh.
  { intros Hin. apply Haddrs in Hin. unfold b in Hin. lia. }
  cbn [blocks]. split; [|split; [|split]].
  - rewrite list_lookup_insert_ne by done.
    by rewrite list_lookup_insert_eq by (rewrite length_app; lia).
  - apply list.NoDup_cons. split.
    + intros [Hin|Hin%list_elem_of_singleton]%elem_of_app; done.
    + apply list.NoDup_app. split; [done|]. split; [|apply NoDup_singleton].
      intros x Hx ->%list_elem_of_singleton. done.
  - apply Forall2_app.
    + apply (strings_kept h); [done|]. intros x Hx.
      destruct (Haddrs x Hx) as [Hlt Hne]. cbn [blocks].
      rewrite !list_lookup_insert_ne by (done || by intros ->).
      by rewrite lookup_app_l.
    + constructor; [|constructor]. unfold string_at. cbn [blocks].
      by rewrite list_lookup_insert_eq
        by (rewrite length_insert, length_app; simpl; unfold b; lia).
  - intros x Hx. pose proof (live_lt _ _ Hx) as Hlt.
    rewrite !length_insert, length_app in Hlt. simpl in Hlt.
    destruct (decide (x = a)) as [->|Hxa]; [apply list_elem_of_here|].
    apply list_elem_of_further, elem_of_app.
    destruct (decide (x = b)) as [->|Hxb];
      [right; apply list_elem_of_here|left].
    rewrite !list_lookup_insert_ne in Hx by done.
    rewrite lookup_app_l in Hx by (unfold b in Hxb; lia).
    apply Hlive in Hx. by apply elem_of_cons in Hx as [?|?].
Qed.

Lemma grow_sim alloc moves st v h a addrs spare :
  mirrors st v h a addrs spare →
  match Loader.grow alloc st with
  | None => grow alloc moves v h = None
  | Some (Loader.Continue st') =>
      ∃ v' h' a' spare',
        grow alloc moves v h = Some (Continue v' h')
        ∧ mirrors st' v' h' a' addrs spare'
  | Some (Loader.Return code st') =>
      ∃ v' h',
        grow alloc moves v h = Some (Return code v' h') ∧ settled st' v' h'
  end.
Proof.
  intros (Hlines & Hcount & Hcap & Hasked & Hopen & Hlen & Hh).
  unfold Loader.grow, grow. rewrite Hcap, Hcount.
  destruct (Loader.capacity st <=? Loader.count st) eqn:Hfull.
  2:{ by exists v, h, a, spare. }
  destruct (int (Loader.capacity st * 2)) as [c|] eqn:Hc; [|done].
  cbn [mbind option_bind]. apply int_inv in Hc as [-> Hrange].
  pose proof Hh as (Hcells & _). unfold array_at in Hcells.
  unfold realloc. rewrite Hlines, Hcells, Hasked.
  destruct (alloc (Loader.requests st)) eqn:Halloc.
  - set (n := Z.to_nat (Loader.capacity st * 2)).
    assert (length ((Some ∘ Addr <$> addrs) ++ spare) ≤ n)%nat as Hn.
    { rewrite length_app, length_fmap. lia. }
    rewrite take_ge, <-app_assoc by done.
    pose proof (holds_array h a addrs spare (Loader.lines st)
                  (spare
                   ++ replicate
                        (n - length ((Some ∘ Addr <$> addrs) ++ spare)) None)
                  (moves (Loader.requests st)) (streams h)
                  (S (Loader.requests st)) Hh) as Hgrown.
    destruct (moves (Loader.requests st)); cbn [mbind option_bind];
      eexists _, _, _, _; (split; [reflexivity|]);
      (split; [reflexivity|]); (split; [done|]); (split; [done|]);
      (split; [done|]); (split; [done|]); (split; [|exact Hgrown]);
      cbn [Loader.capacity]; rewrite length_app, length_replicate;
      rewrite length_app, length_fmap in Hn |- *; lia.
  - cbn [mbind option_bind]. unfold fclose. cbn [streams]. rewrite Hopen.
    cbn [mbind option_bind]. eexists _, _. split; [reflexivity|].
    exists a, addrs, spare. split; [done|]. split; [done|]. split; [done|].
    exact Hh.
Qed.

Lemma append_sim alloc text st v h a addrs spare :
  mirrors st v h a addrs spare →
  match Loader.append alloc text st with
  | None => append alloc (length text) text v h = None
  | Some (Loader.Continue st') =>
      ∃ v' h' addrs' spare',
        append alloc (length text) text v h = Some (Continue v' h')
        ∧ mirrors st' v' h' a addrs' spare'
  | Some (Loader.Return code st') =>
      ∃ v' h',
        append alloc (length text) text v h = Some (Return code v' h')
        ∧ settled st' v' h'
  end.
Proof.
  intros (Hlines & Hcount & Hcap & Hasked & Hopen & Hlen & Hh).
  pose proof (holds_count _ _ _ _ _ Hh) as Hn.
  pose proof (holds_lt _ _ _ _ _ Hh) as [Ha _].
  pose proof Hh as (Hcells & _). unfold array_at in Hcells.
  assert (Loader.count st = Z.of_nat (length addrs)) as Hused
    by (unfold Loader.count; by rewrite Hn).
  unfold Loader.append, append, malloc. rewrite Hasked, Hlines, Hcount.
  destruct (Z.ltb_spec (Loader.count st) (Loader.capacity st))
    as [Hroom|Hfull].
  - destruct spare as [|c spare]; [simpl in Hlen; lia|].
    destruct (alloc (Loader.requests st)).
    + unfold store_cell, cells_at. cbn [blocks streams asked].
      rewrite lookup_app_l, Hcells by done. cbn [mbind option_bind].
      rewrite Hused, Nat2Z.id.
      assert ((0 <=? Z.of_nat (length addrs))
              && (Z.of_nat (length addrs)
                  <? Z.of_nat (length ((Some ∘ Addr <$> addrs) ++ c :: spare)))
              = true) as ->.
      { rewrite length_app, length_fmap. simpl.
        apply andb_true_iff. split; [apply Z.leb_le|apply Z.ltb_lt]; lia. }
      cbn [mbind option_bind].
      rewrite (insert_app_r_alt (Some ∘ Addr <$> addrs))
        by (by rewrite length_fmap).
      rewrite length_fmap, Nat.sub_diag. cbn [insert list_insert].
      unfold strcpy. cbn [blocks streams asked].
      rewrite list_lookup_insert_ne by lia.
      rewrite lookup_app_r, Nat.sub_diag by done. cbn [lookup list_lookup].
      assert ((length text <? length text + 1)%nat = true) as ->
        by (apply Nat.ltb_lt; lia).
      cbn [mbind option_bind].
      destruct (int (Z.of_nat (length addrs) + 1)) as [count'|] eqn:Hint;
        [|done].
      cbn [mbind option_bind]. apply int_inv in Hint as [-> _].
      eexists _, _, (addrs ++ [length (blocks h)]), spare.
      split; [reflexivity|].
      split; [done|]. split.
      { cbn. unfold Loader.count. cbn. rewrite length_app. simpl. lia. }
      split; [done|]. split; [done|]. split; [done|]. split.
      { cbn. rewrite length_app. simpl in *. lia. }
      cbn [Loader.lines]. rewrite Nat.add_1_r.
      pose proof (holds_appended h a addrs c spare (Loader.lines st) text
                    (Some (Chars (S (length text)) None)) (streams h)
                    (S (Loader.requests st)) Hh) as Happ.
      cbn zeta in Happ. rewrite fmap_app, <-app_assoc in Happ. exact Happ.
    + unfold store_cell, cells_at. cbn [blocks streams asked].
      rewrite Hcells. cbn [mbind option_bind].
      rewrite Hused, Nat2Z.id.
      assert ((0 <=? Z.of_nat (length addrs))
              && (Z.of_nat (length addrs)
                  <? Z.of_nat (length ((Some ∘ Addr <$> addrs) ++ c :: spare)))
              = true) as ->.
      { rewrite length_app, length_fmap. simpl.
        apply andb_true_iff. split; [apply Z.leb_le|apply Z.ltb_lt]; lia. }
      cbn [mbind option_bind]. unfold fclose. cbn [blocks streams asked].
      rewrite Hopen. cbn [mbind option_bind].
      eexists _, _. split; [reflexivity|].
      exists a, addrs, (Some NULL :: spare).
      split; [done|]. split; [done|]. split; [done|].
      rewrite (insert_app_r_alt (Some ∘ Addr <$> addrs))
        by (by rewrite length_fmap).
      rewrite length_fmap, Nat.sub_diag. cbn [insert list_insert].
      exact (holds_array h a addrs (c :: spare) (Loader.lines st)
               (Some NULL :: spare) false 0 (S (Loader.requests st)) Hh).
  - assert (spare = []) as ->.
    { destruct spare; [done|]. simpl in Hlen. lia. }
    assert (store_cell_full : ∀ h1 p,
              blocks h1 !! a = blocks h !! a →
              store_cell h1 (Addr a) (Loader.count st) p = None).
    { intros h1 p Hsame. unfold store_cell, cells_at.
      rewrite Hsame, Hcells. cbn [mbind option_bind].
      rewrite app_nil_r, length_fmap.
      destruct (Z.ltb_spec (Loader.count st) (Z.of_nat (length addrs)));
        [lia|]. by rewrite andb_false_r. }
    destruct (alloc (Loader.requests st)).
    + rewrite store_cell_full; [done|]. cbn [blocks].
      by rewrite lookup_app_l.
    + by rewrite store_cell_full.
Qed.

Lemma body_sim alloc moves buffer st v h a addrs spare :
  mirrors st v h a addrs spare →
  match Loader.body alloc buffer st with
  | None => body alloc moves buffer v h = None
  | Some (Loader.Continue st') =>
      ∃ v' h' a' addrs' spare',
        body alloc moves buffer v h = Some (Continue v' h')
        ∧ mirrors st' v' h' a' addrs' spare'
  | Some (Loader.Return code st') =>
      ∃ v' h',
        body alloc moves buffer v h = Some (Return code v' h')
        ∧ settled st' v' h'
  end.
Proof.
  intros Hm. unfold Loader.body, body.
  destruct (Loader.strip buffer (Loader.strlen buffer) =? 0)%nat.
  { by exists v, h, a, addrs, spare. }
  pose proof (grow_sim alloc moves _ _ _ _ _ _ Hm) as Hgrow.
  destruct (Loader.grow alloc st) as [[st1|code1 st1]|].
  - destruct Hgrow as (v1 & h1 & a1 & spare1 & -> & Hm1).
    cbn [mbind option_bind].
    pose proof (append_sim alloc
                  (take (Loader.strip buffer (Loader.strlen buffer)) buffer)
                  _ _ _ _ _ _ Hm1) as Happ.
    rewrite length_take_le in Happ.
    2:{ pose proof (strip_le buffer (Loader.strlen buffer)).
        pose proof (strlen_le buffer). lia. }
    destruct (Loader.append alloc _ st1) as [[st2|code2 st2]|]; [|done|done].
    destruct Happ as (v2 & h2 & addrs2 & spare2 & -> & Hm2).
    by exists v2, h2, a1, addrs2, spare2.
  - destruct Hgrow as (v1 & h1 & -> & Hs). by exists v1, h1.
  - by rewrite Hgrow.
Qed.

(** *** The loop and [read_lines] *)

Lemma read_loop_sim alloc moves stream : ∀ st v h a addrs spare,
  mirrors st v h a addrs spare →
  match Loader.read_loop alloc stream st with
  | None => read_loop alloc moves (Loader.chunks stream) v h = None
  | Some (code, st') =>
      ∃ v' h',
        read_loop alloc moves (Loader.chunks stream) v h
        = Some (code, v', h')
        ∧ settled st' v' h'
  end.
Proof.
  by_bytes_left stream. intros st v h a addrs spare Hm.
  rewrite read_loop_unfold, chunks_unfold.
  destruct (Loader.fgets Loader.MAX_LINE_LENGTH stream)
    as [[buffer rest]|] eqn:Hgets.
  2:{ destruct Hm as (Hlines & Hcount & _ & _ & Hopen & _ & Hh).
      cbn [read_loop]. rewrite fclose_open by done.
      eexists _, _. split; [reflexivity|]. by exists a, addrs, spare. }
  apply fgets_Some in Hgets as (_ & _ & _ & Hlt); [|done].
  cbn [read_loop].
  pose proof (body_sim alloc moves buffer _ _ _ _ _ _ Hm) as Hbody.
  destruct (Loader.body alloc buffer st) as [[st1|code1 st1]|].
  - destruct Hbody as (v1 & h1 & a1 & addrs1 & spare1 & -> & Hm1).
    by apply (IH (length rest) Hlt rest eq_refl _ _ _ _ _ _ Hm1).
  - destruct Hbody as (v1 & h1 & -> & Hs). by exists v1, h1.
  - by rewrite Hbody.
Qed.

(** [read_lines] with the heap returns what [read_lines] without it
    returns, and is undefined in the same cases; it leaves the stream
    closed, and a heap that holds the array and the strings, or nothing
    when the array could not be allocated. *)
Lemma read_lines_sim alloc moves file :
  match Loader.read_lines alloc file with
  | None => read_lines alloc moves file initial = None
  | Some (code, ls) =>
      ∃ p h,
        read_lines alloc moves file initial
        = Some (code, p, Z.of_nat (length ls), h)
        ∧ streams h = 0%nat
        ∧ match p with
          | NULL => ls = [] ∧ code ≠ 0 ∧ blocks h = []
          | Addr a => ∃ addrs spare, holds h a addrs spare ls
          end
  end.
Proof.
  unfold Loader.read_lines, read_lines.
  destruct file as [contents|]; [|by exists NULL, initial].
  unfold malloc, fopen, initial. cbn [asked blocks streams].
  destruct (alloc 0%nat); [|by eexists NULL, _].
  assert (mirrors (Loader.State [] Loader.INITIAL_CAPACITY 1)
            (Locals (Addr 0) 0 Loader.INITIAL_CAPACITY)
            (Memory
               [Some (Pointers
                        (replicate (Z.to_nat Loader.INITIAL_CAPACITY) None))]
               1 1)
            0 [] (replicate (Z.to_nat Loader.INITIAL_CAPACITY) None)) as Hm.
  { split; [done|]. split; [done|]. split; [done|]. split; [done|].
    split; [done|]. split; [by rewrite length_replicate|].
    split; [done|]. split; [apply NoDup_singleton|]. split; [done|].
    intros [|b] Hb; [apply list_elem_of_here|]. by destruct Hb. }
  pose proof (read_loop_sim alloc moves contents _ _ _ _ _ _ Hm) as Hloop.
  cbn [length app] in *.
  destruct (Loader.read_loop alloc contents _) as [[code st']|].
  - destruct Hloop as (v' & h' & -> & a' & addrs & spare & Hl & Hc & Hs & Hh).
    cbn [mbind option_bind]. exists (lines v'), h'.
    rewrite Hc. split; [done|]. split; [done|]. rewrite Hl.
    by exists addrs, spare.
  - by rewrite Hloop.
Qed.

(** *** [free_lines] *)

Lemma load_cell_at h a addrs spare (k : nat) b :
  cells_at h (Addr a) = Some (a, (Some ∘ Addr <$> addrs) ++ spare) →
  addrs !! k = Some b →
  load_cell h (Addr a) (Z.of_nat k) = Some (Addr b).
Proof.
  intros Hcells Hk. unfold load_cell. rewrite Hcells.
  cbn [mbind option_bind]. destruct (Z.leb_spec 0 (Z.of_nat k)); [|lia].
  rewrite Nat2Z.id, lookup_app_l
    by (rewrite length_fmap; by apply lookup_lt_Some in Hk).
  by rewrite list_lookup_fmap, Hk.
Qed.

Lemma free_each_spec a addrs spare todo : ∀ h (i : nat),
  cells_at h (Addr a) = Some (a, (Some ∘ Addr <$> addrs) ++ spare) →
  NoDup (a :: addrs) →
  (i + todo)%nat = length addrs →
  (∀ k b, (i ≤ k)%nat → addrs !! k = Some b →
          is_Some (mjoin (blocks h !! b))) →
  Z.of_nat (length addrs) ≤ INT_MAX →
  ∃ h', free_each todo (Addr a) (Z.of_nat i) h = Some h'
        ∧ streams h' = streams h
        ∧ length (blocks h') = length (blocks h)
        ∧ blocks h' !! a = blocks h !! a
        ∧ ∀ b, is_Some (mjoin (blocks h' !! b)) →
               is_Some (mjoin (blocks h !! b)) ∧ b ∉ drop i addrs.
Proof.
  induction todo as [|todo IH]; intros h i Hcells Hdup Hi Hlive Hmax.
  { exists h. split; [done|]. split; [done|]. split; [done|].
    split; [done|]. intros b Hb. split; [done|].
    rewrite drop_ge by lia. apply not_elem_of_nil. }
  destruct (lookup_lt_is_Some_2 addrs i) as [b Hb]; [lia|].
  cbn [free_each]. rewrite (load_cell_at _ _ _ _ _ _ Hcells Hb).
  cbn [mbind option_bind]. unfold free.
  destruct (Hlive i b (le_n _) Hb) as [blk Hblk].
  destruct (blocks h !! b) as [[blk'|]|] eqn:Hlook; try done.
  cbn [mbind option_bind]. rewrite int_in_range by int_range.
  cbn [mbind option_bind].
  apply list.NoDup_cons in Hdup as Hdup'. destruct Hdup' as [Hnotin Hdup'].
  assert (b ≠ a) as Hba.
  { intros ->. by apply list_elem_of_lookup_2 in Hb. }
  replace (Z.of_nat i + 1) with (Z.of_nat (S i)) by lia.
  destruct (IH (Memory (<[b:=None]> (blocks h)) (streams h) (asked h)) (S i))
    as (h' & Hfree & Hstreams & Hlength & Ha & Hleft);
    [| done | lia | | done |].
  - revert Hcells. unfold cells_at. cbn [blocks].
    by rewrite list_lookup_insert_ne.
  - intros k b' Hk Hb'. cbn [blocks].
    rewrite list_lookup_insert_ne; [by apply (Hlive k); [lia|]|].
    intros ->. pose proof (NoDup_lookup _ _ _ _ Hdup' Hb Hb'). lia.
  - exists h'. split; [done|]. split; [done|].
    split; [by rewrite Hlength; cbn; rewrite length_insert|].
    split; [by rewrite Ha; cbn; rewrite list_lookup_insert_ne|].
    intros x Hx. apply Hleft in Hx as [Hx Hnotdrop]. cbn [blocks] in Hx.
    destruct (decide (x = b)) as [->|Hxb].
    { rewrite list_lookup_insert_eq in Hx by (by apply lookup_lt_Some in Hlook).
      by destruct Hx. }
    rewrite list_lookup_insert_ne in Hx by done. split; [done|].
    rewrite (drop_S _ _ _ Hb). by apply not_elem_of_cons.
Qed.

(** [free_lines] on a heap that holds the array and the strings frees
    every block. *)
Lemma free_lines_spec h a addrs spare ls :
  holds h a addrs spare ls → Z.of_nat (length ls) ≤ INT_MAX →
  ∃ h', free_lines (Addr a) (Z.of_nat (length ls)) h = Some h'
        ∧ Forall (λ freed, freed = None) (blocks h') ∧ streams h' = streams h.
Proof.
  intros Hh Hmax. pose proof (holds_count _ _ _ _ _ Hh) as Hn.
  pose proof (cells_at_holds _ _ _ _ _ Hh) as Hcells.
  destruct Hh as (Ha & Hdup & Hall & Hlive).
  destruct (free_each_spec a addrs spare (length addrs) h 0 Hcells Hdup)
    as (h1 & Hfree & Hstreams & Hlength & Ha1 & Hleft); [done| |lia|].
  { intros k b _ Hk.
    destruct (Forall2_lookup_l _ _ _ _ _ Hall Hk) as (s & _ & Hs).
    unfold string_at in Hs. rewrite Hs. by eexists. }
  unfold free_lines. rewrite Nat2Z.id, <-Hn. change (Z.of_nat 0) with 0 in Hfree.
  rewrite Hfree. cbn [mbind option_bind]. unfold free.
  rewrite Ha1, Ha. eexists. split; [reflexivity|]. split; [|done].
  cbn [blocks]. apply Forall_lookup_2. intros b [blk|] Hb; [|done].
  exfalso. destruct (decide (b = a)) as [->|Hba].
  { rewrite list_lookup_insert_eq in Hb; [done|].
    rewrite Hlength. by apply lookup_lt_Some in Ha. }
  rewrite list_lookup_insert_ne in Hb by done.
  destruct (Hleft b) as [Hin Hout]; [rewrite Hb; by eexists|].
  apply Hlive in Hin. rewrite drop_0 in Hout.
  by apply elem_of_cons in Hin as [?|?].
Qed.

(** *** [shuffle] on the cells of the array *)

Section cells.
Variables (a : nat) (spare : list (option ptr)).

Lemma rearranged_array h addrs addrs' :
  array_at h a spare addrs → array_at (rearranged h a spare addrs') a spare addrs'.
Proof.
  unfold array_at. intros Ha%lookup_lt_Some. unfold rearranged. cbn [blocks].
  by rewrite list_lookup_insert_eq.
Qed.

Lemma rearranged_twice h addrs addrs' :
  rearranged (rearranged h a spare addrs) a spare addrs'
  = rearranged h a spare addrs'.
Proof. unfold rearranged. cbn. by rewrite list_insert_insert_eq. Qed.

Lemma rearranged_same h addrs :
  array_at h a spare addrs → rearranged h a spare addrs = h.
Proof.
  intros Ha. unfold rearranged. rewrite list_insert_id by done.
  by destruct h.
Qed.

Lemma load_cell_sim h addrs i :
  array_at h a spare addrs → i < Z.of_nat (length addrs) →
  load_cell h (Addr a) i = Addr <$> Sampler.load addrs i.
Proof.
  intros Ha Hi. unfold load_cell, cells_at, Sampler.load. rewrite Ha.
  cbn [mbind option_bind]. destruct (Z.leb_spec 0 i); [|done].
  rewrite lookup_app_l by (rewrite length_fmap; lia).
  rewrite list_lookup_fmap. by destruct (addrs !! Z.to_nat i).
Qed.

Lemma store_cell_sim h addrs i y :
  array_at h a spare addrs → i < Z.of_nat (length addrs) →
  store_cell h (Addr a) i (Addr y)
  = rearranged h a spare <$> Sampler.store addrs i y.
Proof.
  intros Ha Hi. unfold store_cell, cells_at, Sampler.store. rewrite Ha.
  cbn [mbind option_bind]. rewrite length_app, length_fmap.
  destruct (Z.leb_spec 0 i); [|done].
  destruct (Z.ltb_spec i (Z.of_nat (length addrs))); [|lia].
  destruct (Z.ltb_spec i (Z.of_nat (length addrs + length spare))); [|lia].
  cbn. unfold rearranged. do 3 f_equal.
  rewrite insert_app_l by (rewrite length_fmap; lia).
  by rewrite list_fmap_insert.
Qed.

Lemma store_length (addrs addrs' : list nat) i y :
  Sampler.store addrs i y = Some addrs' → length addrs' = length addrs.
Proof.
  unfold Sampler.store. destruct (_ && _); [|done]. intros [= <-].
  apply length_insert.
Qed.

Lemma swap_sim h addrs i j :
  array_at h a spare addrs →
  i < Z.of_nat (length addrs) → j < Z.of_nat (length addrs) →
  swap h (Addr a) i j = rearranged h a spare <$> Sampler.swap addrs i j.
Proof.
  intros Ha Hi Hj. unfold swap, Sampler.swap.
  rewrite !(load_cell_sim h addrs) by done.
  destruct (Sampler.load addrs i) as [x|]; [|done].
  destruct (Sampler.load addrs j) as [y|]; [|done].
  cbn [fmap option_fmap option_map mbind option_bind].
  rewrite (store_cell_sim h addrs) by done.
  destruct (Sampler.store addrs i y) as [addrs1|] eqn:Hstore; [|done].
  cbn [fmap option_fmap option_map mbind option_bind].
  apply store_length in Hstore.
  rewrite (store_cell_sim _ addrs1);
    [|by apply (rearranged_array h addrs)|lia].
  destruct (Sampler.store addrs1 j x) as [addrs2|]; [|done].
  cbn [fmap option_fmap option_map mbind option_bind].
  by rewrite rearranged_twice.
Qed.

Lemma swap_length (addrs addrs' : list nat) i j :
  Sampler.swap addrs i j = Some addrs' → length addrs' = length addrs.
Proof.
  unfold Sampler.swap.
  destruct (Sampler.load addrs i) as [x|]; [|done].
  destruct (Sampler.load addrs j) as [y|]; [|done]. cbn.
  destruct (Sampler.store addrs i y) as [addrs1|] eqn:H1; [|done]. cbn.
  intros H2. apply store_length in H1, H2. lia.
Qed.

Lemma rem_below r d : 0 < d → Z.rem r d < d.
Proof.
  intros Hd. pose proof (Z.rem_bound_abs r d ltac:(lia)). lia.
Qed.

Lemma shuffle_from_sim n todo : ∀ h addrs i g,
  array_at h a spare addrs → n ≤ Z.of_nat (length addrs) →
  0 ≤ i → i + Z.of_nat todo ≤ n - 1 →
  shuffle_from todo h (Addr a) n i g
  = rearranged h a spare <$> Sampler.shuffle_from todo addrs n i g.
Proof.
  induction todo as [|todo IH]; intros h addrs i g Ha Hn Hi Htodo.
  { cbn. by rewrite rearranged_same. }
  cbn [shuffle_from Sampler.shuffle_from].
  unfold shuffle_step, Sampler.shuffle_step, rand.
  destruct (int (n - i)) as [d|] eqn:Hd; [|done]. cbn [mbind option_bind].
  apply int_inv in Hd as [-> _].
  destruct (n - i =? 0); [done|].
  destruct (int (i + Z.rem (g 0%nat) (n - i))) as [j|] eqn:Hj; [|done].
  cbn [mbind option_bind]. apply int_inv in Hj as [-> _].
  pose proof (rem_below (g 0%nat) (n - i) ltac:(lia)) as Hrem.
  rewrite (swap_sim h addrs) by (done || lia).
  destruct (Sampler.swap addrs i _) as [addrs1|] eqn:Hswap; [|done].
  cbn [fmap option_fmap option_map mbind option_bind].
  apply swap_length in Hswap.
  destruct (int (i + 1)) as [i'|] eqn:Hi'; [|done].
  cbn [fmap option_fmap option_map mbind option_bind].
  apply int_inv in Hi' as [-> _].
  rewrite (IH _ addrs1);
    [|by apply (rearranged_array h addrs)|lia|lia|lia].
  destruct (Sampler.shuffle_from todo addrs1 n (i + 1) _); [|done].
  cbn [fmap option_fmap option_map mbind option_bind].
  by rewrite rearranged_twice.
Qed.

(** [shuffle] on the array of the heap makes the moves of [shuffle] on
    the list of its pointers, and is undefined in the same cases. *)
Lemma shuffle_sim h addrs n g :
  array_at h a spare addrs → n ≤ Z.of_nat (length addrs) →
  shuffle h (Addr a) n g
  = rearranged h a spare <$> Sampler.shuffle addrs n g.
Proof.
  intros Ha Hn. unfold shuffle, Sampler.shuffle.
  destruct (int (n - 1)) as [bound|] eqn:Hb; [|done].
  cbn [mbind option_bind]. apply int_inv in Hb as [-> _].
  destruct (Z.le_gt_cases (n - 1) 0).
  - replace (Z.to_nat (n - 1)) with 0%nat by lia. cbn.
    by rewrite rearranged_same.
  - apply shuffle_from_sim; (done || lia).
Qed.

End cells.

(** *** The loops that print *)

Lemma load_string_at h b s : string_at h b s → load_string h (Addr b) = Some s.
Proof. unfold string_at, load_string. by intros ->. Qed.

Lemma cells_at_array h a spare addrs :
  array_at h a spare addrs →
  cells_at h (Addr a) = Some (a, (Some ∘ Addr <$> addrs) ++ spare).
Proof. unfold array_at, cells_at. by intros ->. Qed.

Lemma print_winners_sim h a addrs spare ls todo : ∀ i : nat,
  array_at h a spare addrs → Forall2 (string_at h) addrs ls →
  (i + todo ≤ length addrs)%nat →
  print_winners todo h (Addr a) (Z.of_nat i)
  = Cli.print_winners todo ls (Z.of_nat i).
Proof.
  induction todo as [|todo IH]; intros i Ha Hall Hi; [done|].
  destruct (lookup_lt_is_Some_2 addrs i) as [b Hb]; [lia|].
  destruct (Forall2_lookup_l _ _ _ _ _ Hall Hb) as (s & Hs & Hbs).
  cbn [print_winners Cli.print_winners].
  rewrite (load_cell_at _ _ _ _ _ _ (cells_at_array _ _ _ _ Ha) Hb).
  cbn [mbind option_bind]. rewrite (load_string_at _ _ _ Hbs).
  rewrite SamplerFacts.load_in_range, Nat2Z.id, Hs by lia.
  cbn [mbind option_bind].
  destruct (int (Z.of_nat i + 1)) as [rank|] eqn:Hrank; [|done].
  cbn [mbind option_bind]. apply int_inv in Hrank as [-> _].
  replace (Z.of_nat i + 1) with (Z.of_nat (S i)) by lia.
  rewrite IH by (done || lia). done.
Qed.

Lemma debug_lines_spec h a addrs spare ls todo : ∀ i : nat,
  array_at h a spare addrs → Forall2 (string_at h) addrs ls →
  (i + todo)%nat = length ls → Z.of_nat (length ls) ≤ INT_MAX →
  debug_lines todo h (Addr a) (Z.of_nat i)
  = Some (imap (λ k name, debug_line (Z.of_nat (i + k)) name) (drop i ls)).
Proof.
  induction todo as [|todo IH]; intros i Ha Hall Hi Hmax.
  { by rewrite drop_ge by lia. }
  pose proof (Forall2_length Hall) as Hlen.
  destruct (lookup_lt_is_Some_2 addrs i) as [b Hb]; [lia|].
  destruct (Forall2_lookup_l _ _ _ _ _ Hall Hb) as (s & Hs & Hbs).
  cbn [debug_lines].
  rewrite (load_cell_at _ _ _ _ _ _ (cells_at_array _ _ _ _ Ha) Hb).
  cbn [mbind option_bind]. rewrite (load_string_at _ _ _ Hbs).
  cbn [mbind option_bind]. rewrite int_in_range by int_range.
  cbn [mbind option_bind].
  replace (Z.of_nat i + 1) with (Z.of_nat (S i)) by lia.
  rewrite IH by (done || lia). cbn [mbind option_bind].
  rewrite (drop_S _ _ _ Hs). cbn [imap]. rewrite Nat.add_0_r.
  do 2 f_equal. apply imap_ext. intros k x _. simpl. do 2 f_equal. lia.
Qed.

Lemma debug_block_spec h a addrs spare ls :
  array_at h a spare addrs → Forall2 (string_at h) addrs ls →
  Z.of_nat (length ls) ≤ INT_MAX →
  debug_block h (Addr a) (Z.of_nat (length ls))
  = Some (debug_dump ls (Z.of_nat (length ls))).
Proof.
  intros Ha Hall Hmax. unfold debug_block. rewrite Nat2Z.id.
  change 0 with (Z.of_nat 0).
  rewrite (debug_lines_spec h a addrs spare ls) by done.
  cbn [mbind option_bind]. by rewrite drop_0.
Qed.

(** *** The heap after [shuffle] *)

Lemma holds_texts h a addrs spare ls :
  holds h a addrs spare ls → ls = text_of h <$> addrs.
Proof.
  intros (_ & _ & Hall & _). apply list_eq. intros k.
  rewrite list_lookup_fmap. destruct (addrs !! k) as [b|] eqn:Hb; simpl.
  - destruct (Forall2_lookup_l _ _ _ _ _ Hall Hb) as (s & -> & Hs).
    unfold text_of. by rewrite (load_string_at _ _ _ Hs).
  - apply lookup_ge_None. rewrite <-(Forall2_length Hall).
    by apply lookup_ge_None.
Qed.

Lemma holds_rearranged h a addrs spare ls addrs' :
  holds h a addrs spare ls → addrs' ≡ₚ addrs →
  holds (rearranged h a spare addrs') a addrs' spare (text_of h <$> addrs').
Proof.
  intros Hh Hperm. pose proof (holds_texts _ _ _ _ _ Hh) as Htexts.
  pose proof (holds_lt _ _ _ _ _ Hh) as [Ha Haddrs].
  destruct Hh as (Hcells & Hdup & Hall & Hlive).
  rewrite list.Forall_forall in Haddrs.
  split; [by apply (rearranged_array a spare h addrs)|].
  split; [by rewrite Hperm|]. split.
  - apply Forall2_fmap_r. apply Forall_Forall2_diag.
    apply list.Forall_forall. intros b Hb. rewrite Hperm in Hb.
    destruct (Haddrs b Hb) as [_ Hba].
    apply list_elem_of_lookup_1 in Hb as [k Hk].
    destruct (Forall2_lookup_l _ _ _ _ _ Hall Hk) as (s & _ & Hs).
    unfold string_at, rearranged, compose, text_of. cbn [blocks].
    rewrite list_lookup_insert_ne by done.
    by rewrite (load_string_at _ _ _ Hs).
  - intros b Hb. unfold rearranged in Hb. cbn [blocks] in Hb.
    destruct (decide (b = a)) as [->|Hba]; [apply list_elem_of_here|].
    rewrite list_lookup_insert_ne in Hb by done. rewrite Hperm.
    by apply Hlive.
Qed.

Lemma shuffle_perm (addrs addrs' : list nat) n g :
  Sampler.shuffle addrs n g = Some addrs' → addrs' ≡ₚ addrs.
Proof.
  unfold Sampler.shuffle. destruct (int (n - 1)) as [bound|]; [|done].
  simpl. intros [ijs ->]%CliRuns.shuffle_from_Some.
  apply SamplerFacts.apply_swaps_perm.
Qed.

(** *** The run *)

Lemma released_initial : released initial.
Proof. by split; [constructor|]. Qed.

Lemma free_lines_released h a addrs spare ls :
  holds h a addrs spare ls → Z.of_nat (length ls) ≤ INT_MAX →
  streams h = 0%nat →
  ∃ h', free_lines (Addr a) (Z.of_nat (length ls)) h = Some h' ∧ released h'.
Proof.
  intros Hh Hmax Hclosed.
  destruct (free_lines_spec _ _ _ _ _ Hh Hmax) as (h' & Hfree & Hnone & Hs).
  exists h'. split; [done|]. split; [done|]. by rewrite Hs.
Qed.

(** X20. The run with the heap ends as the run without it, with the same exit
    status and the same output, and is undefined in the same cases: the
    pointers add no undefined behaviour (no block is used after it was
    freed, freed twice or written beyond its size, no cell is read before
    it was assigned).  When it ends, every block it allocated has been
    freed and the stream is closed, whichever way it ends. *)
Theorem heap_discipline env moves prog args :
  match Cli.main env prog args with
  | None => main env moves prog args = None
  | Some (code, out) =>
      ∃ h, main env moves prog args = Some (code, out, h) ∧ released h
  end.
Proof.
  destruct (decide (length args = 2%nat)) as [Hlen|Hlen].
  2:{ rewrite CliFacts.main_other_arguments by done. exists initial.
      split; [|apply released_initial].
      by destruct args as [|? [|? [|? ?]]]. }
  destruct args as [|file [|arg [|more args]]]; try done. clear Hlen.
  rewrite CliFacts.main_two_arguments. unfold main.
  destruct (atoi arg) as [N|]; [|done]. cbn [mbind option_bind].
  destruct (Z.leb_spec N 0) as [HN|HN].
  { exists initial. split; [done|apply released_initial]. }
  destruct (files env file) as [contents|] eqn:Hfile.
  2:{ exists initial. split; [done|apply released_initial]. }
  pose proof (read_lines_sim (heap env) moves (Some contents)) as Hsim.
  destruct (Loader.read_lines (heap env) (Some contents))
    as [[result ls]|] eqn:Hread; [|by rewrite Hsim].
  destruct Hsim as (p & h & -> & Hclosed & Hp). cbn [mbind option_bind].
  destruct (read_lines_codes _ _ _ _ Hread)
    as [Hmax [(_ & ? & _)|[(-> & _)|(-> & _)]]]; [done| |].
  { (* an allocation was refused *)
    change (-2 =? -1) with false. change (-2 =? -2) with true. cbv iota.
    destruct p as [|a].
    - destruct Hp as (_ & _ & Hnone). exists h. split; [done|].
      split; [by rewrite Hnone|done].
    - destruct Hp as (addrs & spare & Hh).
      destruct (free_lines_released _ _ _ _ _ Hh Hmax Hclosed)
        as (h' & -> & Hreleased).
      by exists h'. }
  change (0 =? -1) with false. change (0 =? -2) with false. cbv iota.
  destruct p as [|a]; [by destruct Hp as (_ & ? & _)|].
  destruct Hp as (addrs & spare & Hh).
  pose proof (holds_count _ _ _ _ _ Hh) as Hn.
  destruct (free_lines_released _ _ _ _ _ Hh Hmax Hclosed)
    as (h' & Hfree & Hreleased).
  destruct (Z.eqb_spec (Z.of_nat (length ls)) 0) as [Hempty|Hsome].
  { rewrite Hempty in Hfree. change (free (Addr a) h = Some h') in Hfree.
    rewrite Hfree. by exists h'. }
  destruct (Z.ltb_spec (Z.of_nat (length ls)) N) as [Hfew|Henough].
  { rewrite Hfree. by exists h'. }
  clear h' Hfree Hreleased.
  pose proof Hh as (Harray & _ & Hstrings & _).
  set (g := generator env (clock env mod 2 ^ 32)).
  set (L := Z.of_nat (length ls)) in *.
  assert ((if DEBUG env
           then debug_block h (Addr a) L
                ≫= λ first, debug_block h (Addr a) L
                             ≫= λ second, Some (first ++ second)
           else Some [])
          = Some (if DEBUG env then debug_dump ls L ++ debug_dump ls L
                  else [])) as ->.
  { destruct (DEBUG env); [|done]. unfold L.
    by rewrite (debug_block_spec h a addrs spare ls). }
  cbn [mbind option_bind].
  rewrite (shuffle_sim a spare h addrs) by (done || lia).
  assert (Sampler.shuffle (text_of h <$> addrs) L g
          = fmap (M := list) (text_of h) <$> Sampler.shuffle addrs L g)
    as Hmoves.
  { unfold Sampler.shuffle. destruct (int (L - 1)) as [bound|]; [|done].
    simpl. apply SamplerDraws.shuffle_from_fmap. }
  rewrite <-(holds_texts _ _ _ _ _ Hh) in Hmoves. rewrite Hmoves.
  destruct (Sampler.shuffle addrs L g) as [addrs'|] eqn:Hshuffle; [|done].
  cbn [fmap option_fmap option_map mbind option_bind].
  pose proof (shuffle_perm _ _ _ _ Hshuffle) as Hperm.
  pose proof (holds_rearranged _ _ _ _ _ _ Hh Hperm) as Hh'.
  pose proof Hh' as (Harray' & _ & Hstrings' & _).
  pose proof (Permutation_length Hperm) as Hn'.
  pose proof (print_winners_sim _ _ _ _ _ (Z.to_nat N) 0 Harray' Hstrings')
    as Hprint.
  change (Z.of_nat 0) with 0 in Hprint. rewrite Hprint by lia.
  destruct (Cli.print_winners _ _ _) as [winners|]; [|done].
  cbn [mbind option_bind].
  destruct (free_lines_released _ _ _ _ _ Hh') as (h' & Hfree & Hreleased).
  { rewrite length_fmap. lia. }
  { done. }
  rewrite length_fmap, Hn', Hn in Hfree. fold L in Hfree. rewrite Hfree.
  by exists h'.
Qed.

(** X21. [read_lines] with the heap returns what [read_lines] without it
    returns, with the same count, and is undefined in the same cases.
    Whatever it returns, it has closed the stream; and the heap then
    holds the array, whose first [*count] cells point to blocks of their
    own for the entries, each of the size of its string, and nothing
    else - or nothing at all when the array could not be allocated or
    the file not be opened. *)
Theorem read_lines_on_heap alloc moves file :
  match read_lines alloc moves file initial with
  | None => Loader.read_lines alloc file = None
  | Some (code, p, n, h) =>
      ∃ ls,
        Loader.read_lines alloc file = Some (code, ls)
        ∧ n = Z.of_nat (length ls) ∧ streams h = 0%nat
        ∧ match p with
          | NULL => ls = [] ∧ code ≠ 0 ∧ blocks h = []
          | Addr a => ∃ addrs spare, holds h a addrs spare ls
          end
  end.
Proof.
  pose proof (read_lines_sim alloc moves file) as Hsim.
  destruct (Loader.read_lines alloc file) as [[code ls]|].
  - destruct Hsim as (p & h & -> & Hclosed & Hp). by exists ls.
  - by rewrite Hsim.
Qed.

(** X22. [shuffle] on the array of the heap exchanges pointers: it is defined
    when [shuffle] on the list of the pointers is, the array then holds
    the pointers in the order [shuffle] gives the list, and every other
    block - the strings - and the spare cells of the array are as they
    were. *)
Theorem shuffle_swaps_pointers h a spare addrs n g :
  array_at h a spare addrs → n ≤ Z.of_nat (length addrs) →
  match shuffle h (Addr a) n g with
  | None => Sampler.shuffle addrs n g = None
  | Some h' =>
      ∃ addrs',
        Sampler.shuffle addrs n g = Some addrs' ∧ addrs' ≡ₚ addrs
        ∧ h' = rearranged h a spare addrs'
        ∧ ∀ b, b ≠ a → blocks h' !! b = blocks h !! b
  end.
Proof.
  intros Ha Hn. rewrite (shuffle_sim a spare h addrs) by done.
  destruct (Sampler.shuffle addrs n g) as [addrs'|] eqn:Hshuffle; [|done].
  cbn. exists addrs'. split; [done|].
  split; [by apply shuffle_perm in Hshuffle|]. split; [done|].
  intros b Hb. by rewrite list_lookup_insert_ne.
Qed.

(** *** When [free_lines] is defined *)

Lemma release_snoc bs b h :
  release (bs ++ [b]) h
  = Memory (<[b := None]> (blocks (release bs h))) (streams h) (asked h).
Proof. unfold release. cbn [blocks]. by rewrite foldl_app. Qed.

Lemma release_cons b bs h :
  release (b :: bs) h
  = release bs (Memory (<[b := None]> (blocks h)) (streams h) (asked h)).
Proof. done. Qed.

Lemma release_other bs h x :
  x ∉ bs → blocks (release bs h) !! x = blocks h !! x.
Proof.
  unfold release. cbn [blocks]. generalize (blocks h).
  induction bs as [|b bs IH]; intros l Hx; [done|].
  apply not_elem_of_cons in Hx as [Hxb Hx]. cbn [foldl].
  rewrite IH by done. by rewrite list_lookup_insert_ne.
Qed.

Lemma live_freed h b x :
  live (Memory (<[b := None]> (blocks h)) (streams h) (asked h)) x
  ↔ live h x ∧ x ≠ b.
Proof.
  unfold live. cbn [blocks]. destruct (decide (x = b)) as [->|Hxb].
  - split; [|by intros [_ ?]]. intros [blk Hblk]. exfalso. revert Hblk.
    destruct (decide (b < length (blocks h))%nat).
    + by rewrite list_lookup_insert_eq.
    + by rewrite lookup_ge_None_2 by (rewrite length_insert; lia).
  - rewrite list_lookup_insert_ne by done. by split; [|intros [? _]].
Qed.

Lemma free_Some h b h' :
  free (Addr b) h = Some h' ↔
  live h b ∧ h' = Memory (<[b := None]> (blocks h)) (streams h) (asked h).
Proof.
  unfold free, live.
  destruct (blocks h !! b) as [[blk|]|]; simpl; split;
    try (by intros [[? ?] _]); try done.
  - intros [= <-]. split; [by eexists|done].
  - by intros [_ ->].
Qed.

Lemma Forall_live_freed h b (l : list nat) :
  Forall (live (Memory (<[b := None]> (blocks h)) (streams h) (asked h))) l
  ↔ Forall (live h) l ∧ b ∉ l.
Proof.
  rewrite !list.Forall_forall. split.
  - intros Hall. split.
    + intros x Hx. apply Hall in Hx. by apply live_freed in Hx as [? _].
    + intros Hin. apply Hall in Hin. by apply live_freed in Hin as [_ ?].
  - intros [Hall Hnotin] x Hx. apply live_freed. split; [by apply Hall|].
    by intros ->.
Qed.

(** The loop of [free_lines] goes through when the cells it visits hold
    different pointers to blocks that are there; it has then freed these
    blocks, and it goes through in this case only. *)
Lemma free_each_iff a addrs spare todo : ∀ h (i : nat) h',
  array_at h a spare addrs → a ∉ addrs →
  (i + todo)%nat = length addrs → Z.of_nat (length addrs) ≤ INT_MAX →
  free_each todo (Addr a) (Z.of_nat i) h = Some h' ↔
  NoDup (drop i addrs) ∧ Forall (live h) (drop i addrs)
  ∧ h' = release (drop i addrs) h.
Proof.
  induction todo as [|todo IH]; intros h i h' Ha Hself Hi Hmax.
  { rewrite drop_ge by lia. cbn. split.
    - intros [= <-]. split; [constructor|]. split; [done|by destruct h].
    - intros (_ & _ & ->). by destruct h. }
  destruct (lookup_lt_is_Some_2 addrs i) as [b Hb]; [lia|].
  assert (b ≠ a) as Hba.
  { intros ->. by apply list_elem_of_lookup_2 in Hb. }
  cbn [free_each].
  rewrite (load_cell_at _ _ _ _ _ _ (cells_at_array _ _ _ _ Ha) Hb).
  cbn [mbind option_bind]. rewrite (drop_S _ _ _ Hb).
  destruct (free (Addr b) h) as [h1|] eqn:Hfree.
  2:{ split; [done|]. intros (_ & [Hlive _]%Forall_cons_1 & _). exfalso.
      assert (free (Addr b) h = Some (Memory (<[b := None]> (blocks h))
                                        (streams h) (asked h))) as Hdef
        by (by apply free_Some).
      by rewrite Hfree in Hdef. }
  apply free_Some in Hfree as [Hlive ->]. cbn [mbind option_bind].
  rewrite int_in_range by int_range. cbn [mbind option_bind].
  replace (Z.of_nat i + 1) with (Z.of_nat (S i)) by lia.
  rewrite IH; [|by unfold array_at in *; cbn [blocks];
                   rewrite list_lookup_insert_ne|done|lia|done].
  rewrite Forall_live_freed, list.NoDup_cons. rewrite release_cons.
  split.
  - intros (Hdup & [Hall Hnotin] & ->). split; [done|].
    split; [by constructor|done].
  - intros ([Hnotin Hdup] & [_ Hall]%Forall_cons_1 & ->). done.
Qed.

(** X23. [free_lines(lines, count)] is defined exactly when the first [count]
    cells of the array hold different pointers to blocks that are there,
    the array not being one of them; what it frees is these blocks and
    the array. *)
Theorem free_lines_iff h a addrs spare h' :
  array_at h a spare addrs → (a ∉ addrs) →
  Z.of_nat (length addrs) ≤ INT_MAX →
  free_lines (Addr a) (Z.of_nat (length addrs)) h = Some h' ↔
  NoDup addrs ∧ Forall (live h) addrs ∧ h' = release (addrs ++ [a]) h.
Proof.
  intros Ha Hself Hmax. unfold free_lines. rewrite Nat2Z.id.
  pose proof (λ h', free_each_iff a addrs spare (length addrs) h 0 h'
                      Ha Hself eq_refl Hmax) as Heach.
  change (Z.of_nat 0) with 0 in Heach. rewrite drop_0 in Heach.
  assert (live (release addrs h) a
          ∧ free (Addr a) (release addrs h) = Some (release (addrs ++ [a]) h))
    as [Hlive Hfree].
  { pose proof (release_other addrs h a Hself) as Hsame.
    assert (live (release addrs h) a) as Hlive.
    { unfold live. rewrite Hsame. unfold array_at in Ha. rewrite Ha.
      by eexists. }
    split; [done|]. apply free_Some. split; [done|].
    by rewrite release_snoc. }
  destruct (free_each (length addrs) (Addr a) 0 h) as [h1|].
  - destruct (Heach h1) as [(Hdup & Hall & ->) _]; [done|].
    cbn [mbind option_bind]. rewrite Hfree. split.
    + by intros [= <-].
    + by intros (_ & _ & ->).
  - cbn [mbind option_bind]. split; [done|]. intros (Hdup & Hall & _).
    by destruct (Heach (release addrs h)) as [_ Hdef]; specialize (Hdef
      (conj Hdup (conj Hall eq_refl))).
Qed.

(** *** These properties on the sample heap *)

Lemma sample_array :
  array_at Samples.loaded 0 (replicate 97 None) [1; 2; 3]%nat.
Proof. reflexivity. Qed.

Lemma shuffle_swaps_pointers_sample :
  shuffle Samples.loaded (Addr 0) 3 Samples.draws
  = Some (rearranged Samples.loaded 0 (replicate 97 None) [3; 1; 2]%nat)
  ∧ ∃ addrs',
      Sampler.shuffle [1; 2; 3]%nat 3 Samples.draws = Some addrs'
      ∧ addrs' ≡ₚ [1; 2; 3]%nat
      ∧ rearranged Samples.loaded 0 (replicate 97 None) [3; 1; 2]%nat
        = rearranged Samples.loaded 0 (replicate 97 None) addrs'
      ∧ ∀ b, b ≠ 0%nat →
          blocks (rearranged Samples.loaded 0 (replicate 97 None)
                    [3; 1; 2]%nat) !! b
          = blocks Samples.loaded !! b.
Proof.
  assert (shuffle Samples.loaded (Addr 0) 3 Samples.draws
          = Some (rearranged Samples.loaded 0 (replicate 97 None)
                    [3; 1; 2]%nat)) as Hshuffle
    by (vm_compute; reflexivity).
  split; [done|].
  pose proof (shuffle_swaps_pointers Samples.loaded 0 (replicate 97 None)
                [1; 2; 3]%nat 3 Samples.draws sample_array
                ltac:(simpl; lia)) as Hmoves.
  rewrite Hshuffle in Hmoves. exact Hmoves.
Defined.

Lemma free_lines_iff_sample :
  free_lines (Addr 0) 3 Samples.loaded
  = Some (release [1; 2; 3; 0]%nat Samples.loaded)
  ∧ NoDup [1; 2; 3]%nat ∧ Forall (live Samples.loaded) [1; 2; 3]%nat
  ∧ released (release [1; 2; 3; 0]%nat Samples.loaded).
Proof.
  assert (free_lines (Addr 0) 3 Samples.loaded
          = Some (release [1; 2; 3; 0]%nat Samples.loaded)) as Hfree
    by (vm_compute; reflexivity).
  assert (0%nat ∉ [1; 2; 3]%nat) as Hself
    by (by apply (bool_decide_unpack _)).
  assert (Z.of_nat (length [1; 2; 3]%nat) ≤ INT_MAX) as Hmax
    by (by vm_compute).
  split; [done|].
  destruct (free_lines_iff Samples.loaded 0 [1; 2; 3]%nat
              (replicate 97 None)
              (release [1; 2; 3; 0]%nat Samples.loaded)
              sample_array Hself Hmax) as [Hdefined _].
  destruct (Hdefined Hfree) as (Hdup & Hlive & _).
  split; [done|]. split; [done|]. split; [|done].
  by repeat constructor.
Defined.

End HeapFacts.
